(** * magnetic-logo: the logo sampler and the particle simulation kernel

  A shallow embedding of [src/particles.ts] (and of the error path of
  [src/App.tsx]).

  Numbers.  Integer code (the seeded generator, pixel indices, buffer
  indices) is modelled on [Z] and [nat] with the 32-bit wrap-around of
  the JavaScript operators written out.  Values the program holds as
  floating-point numbers (coordinates, forces, uniforms) are modelled as
  real numbers [R]: every arithmetic operator is read as the exact
  operation, so the development speaks about the arithmetic the code
  writes down, not about rounding. *)

From Stdlib Require Import ZArith List Bool FinFun Reals Lra Lia.
Import ListNotations.

Local Open Scope R_scope.

(** ** JavaScript and WGSL scalar helpers *)

Module Num.

(** [a < b] and [a > b] on numbers, as a boolean. *)
Definition ltb (a b : R) : bool := if Rlt_dec a b then true else false.
Definition gtb (a b : R) : bool := ltb b a.

(** [Math.floor]. *)
Definition floor (r : R) : Z := Int_part r.

(** [Math.max] and [Math.min] on numbers. *)
Definition max (a b : R) : R := Rmax a b.
Definition min (a b : R) : R := Rmin a b.

(** [d.i32(x)]: conversion of a float to a signed integer, truncating
    toward zero. *)
Definition i32_of (r : R) : Z :=
  if Rlt_dec r 0 then (- Int_part (- r))%Z else Int_part r.

End Num.

(** ** The seeded generator [makeRng] (mulberry32) *)

Module Rng.

Local Open Scope Z_scope.

(** [x >>> 0]: the unsigned 32-bit value of an integer. *)
Definition u32 (x : Z) : Z := x mod 2 ^ 32.

(** [x | 0]: the signed 32-bit value of an integer, as the operands of
    [^] and [|] are read. *)
Definition i32 (x : Z) : Z := (x + 2 ^ 31) mod 2 ^ 32 - 2 ^ 31.

(** [Math.imul(a, b)]. *)
Definition imul (a b : Z) : Z := i32 (a * b).

(** [a ^ b], [a | b] and [a >>> n]. *)
Definition xor (a b : Z) : Z := Z.lxor (i32 a) (i32 b).
Definition or (a b : Z) : Z := Z.lor (i32 a) (i32 b).
Definition ushr (a n : Z) : Z := Z.shiftr (u32 a) n.

(** The captured variable [s] of the closure. *)
Definition state := Z.

(** [makeRng(seed)]: [let s = seed >>> 0]. *)
Definition makeRng (seed : Z) : state := u32 seed.

(** One call of the returned closure: the numerator of the result (the
    result is this integer divided by 4294967296) and the new [s]. *)
Definition next_u32 (s : state) : Z * state :=
  let s := u32 (s + 0x6d2b79f5) in
  let t := imul (xor s (ushr s 15)) (or 1 s) in
  let t := xor t (t + imul (xor t (ushr t 7)) (or 61 t)) in
  (ushr (xor t (ushr t 14)) 0, s).

(** The call as the program sees it: a number and the new state. *)
Definition next (s : state) : R * state :=
  let '(k, s') := next_u32 s in
  ((IZR k / 4294967296)%R, s').

End Rng.

(** ** [d.vec2f] and the [typegpu/std] operations the program uses *)

Module Vec.

Record Vec2 : Type := vec2f { vx : R; vy : R }.

Definition zero : Vec2 := vec2f 0 0.

(** [std.add], [std.sub] on vectors; [std.mul(v, k)] by a scalar. *)
Definition add (a b : Vec2) : Vec2 := vec2f (vx a + vx b) (vy a + vy b).
Definition sub (a b : Vec2) : Vec2 := vec2f (vx a - vx b) (vy a - vy b).
Definition mul (a : Vec2) (k : R) : Vec2 := vec2f (vx a * k) (vy a * k).

(** [std.dot] and [std.length]. *)
Definition dot (a b : Vec2) : R := vx a * vx b + vy a * vy b.
Definition length (a : Vec2) : R := sqrt (dot a a).

(** [std.mix(a, b, t)] is [a * (1 - t) + b * t]. *)
Definition mix (a b t : R) : R := a * (1 - t) + b * t.

(** [std.select(f, t, cond)] is [t] when [cond] holds and [f] otherwise. *)
Definition select {A : Type} (f t : A) (cond : bool) : A :=
  if cond then t else f.

End Vec.

Import Vec.

(** ** The logo sampler: [loadLogoPixelPositions] and [generateLogoPoints] *)

Module Sampler.

(** The decoded logo: the size of the bitmap and the RGBA bytes that
    [getImageData] returns for the canvas the bitmap was drawn on. *)
Record Bitmap : Type := {
  bitmap_width : Z;
  bitmap_height : Z;
  data : list Z
}.

(** [bitmap.width || 200] and [bitmap.height || 200]. *)
Definition width (b : Bitmap) : Z :=
  if (bitmap_width b =? 0)%Z then 200%Z else bitmap_width b.
Definition height (b : Bitmap) : Z :=
  if (bitmap_height b =? 0)%Z then 200%Z else bitmap_height b.

(** [data[i] ?? 0], for an index that is not negative. *)
Definition byte_at (b : Bitmap) (i : Z) : Z := nth (Z.to_nat i) (data b) 0%Z.

Definition isSolid (b : Bitmap) (px py : Z) : bool :=
  if ((px <? 0) || (py <? 0) || (px >=? width b) || (py >=? height b))%Z
  then false
  else
    let i := ((py * width b + px) * 4)%Z in
    (byte_at b (i + 3) >? 0)%Z.

Definition touchesEmpty (b : Bitmap) (x y : Z) : bool :=
  (negb (isSolid b (x + 1) y) ||
   negb (isSolid b (x - 1) y) ||
   negb (isSolid b x (y + 1)) ||
   negb (isSolid b x (y - 1)) ||
   negb (isSolid b (x + 1) (y + 1)) ||
   negb (isSolid b (x - 1) (y - 1)) ||
   negb (isSolid b (x + 1) (y - 1)) ||
   negb (isSolid b (x - 1) (y + 1)))%Z.

(** The pixel centre in normalized device coordinates. *)
Definition nx (b : Bitmap) (x : Z) : R :=
  ((IZR x + 0.5) / IZR (width b)) * 2 - 1.
Definition ny (b : Bitmap) (y : Z) : R :=
  ((IZR (height b) - (IZR y + 0.5)) / IZR (height b)) * 2 - 1.
Definition ndc (b : Bitmap) (x y : Z) : Vec2 := vec2f (nx b x) (ny b y).

(** The values [0, 1, ..., n - 1] a counting loop runs through. *)
Definition upto (n : Z) : list Z := map Z.of_nat (seq 0 (Z.to_nat n)).

(** The two accumulators of the scan, [fillPositions] and
    [borderPositions]. *)
Record Scan : Type := {
  fillPositions : list Vec2;
  borderPositions : list Vec2
}.

(** The body of the inner loop at pixel [(x, y)]. *)
Definition scan_pixel (b : Bitmap) (y : Z) (acc : Scan) (x : Z) : Scan :=
  if negb (isSolid b x y) then acc
  else
    let te := touchesEmpty b x y in
    let p := vec2f (nx b x) (ny b y) in
    {| fillPositions := fillPositions acc ++ [p];
       borderPositions :=
         if te then borderPositions acc ++ [p] else borderPositions acc |}.

Definition scan_row (b : Bitmap) (acc : Scan) (y : Z) : Scan :=
  fold_left (scan_pixel b y) (upto (width b)) acc.

Definition scan (b : Bitmap) : Scan :=
  fold_left (scan_row b) (upto (height b))
    {| fillPositions := []; borderPositions := [] |}.

(** What the browser gives the sampler: the decoded logo, if fetching and
    decoding it succeed, and whether a 2D canvas context is available. *)
Record LogoEnv : Type := {
  decoded : option Bitmap;
  context2d : bool
}.

Inductive Error : Type :=
| Rejected             (* an awaited browser promise rejected *)
| LogoMaskUnavailable  (* "Logo mask unavailable" *)
| LogoMaskEmpty        (* "Logo mask empty" *)
| WebGPUNotSupported   (* "WebGPU not supported" *)
| WebGPUNotInBrowser.  (* "WebGPU is not supported in this browser" *)

Definition result (A : Type) : Type := (Error + A)%type.

(** [Math.max(1, Math.floor(edgeWeight))]. *)
Definition borderWeight (edgeWeight : R) : Z :=
  Z.max 1 (Num.floor edgeWeight).

(** [positions] after the fill positions and [borderWeight] rounds of
    border positions were pushed. *)
Definition weighted (sc : Scan) (edgeWeight : R) : list Vec2 :=
  Nat.iter (Z.to_nat (borderWeight edgeWeight))
    (fun positions => positions ++ borderPositions sc)
    ([] ++ fillPositions sc).

(** The body of the promise of [loadLogoPixelPositions]. *)
Definition computeLogoPixelPositions (env : LogoEnv) (edgeWeight : R)
  : result (list Vec2) :=
  match decoded env with
  | None => inl Rejected
  | Some b =>
      if negb (context2d env) then inl LogoMaskUnavailable
      else
        let sc := scan b in
        if (List.length (fillPositions sc) =? 0)%nat then inl LogoMaskEmpty
        else inr (weighted sc edgeWeight)
  end.

(** [logoPixelPositionsCache]: a map from [edgeWeight] to the settled
    promise, most recent entry first. *)
Definition Cache : Type := list (R * result (list Vec2)).

Fixpoint cache_get (c : Cache) (k : R) : option (result (list Vec2)) :=
  match c with
  | [] => None
  | (k', v) :: c' => if Req_dec_T k' k then Some v else cache_get c' k
  end.

Definition cache_set (c : Cache) (k : R) (v : result (list Vec2)) : Cache :=
  (k, v) :: c.

Definition loadLogoPixelPositions (env : LogoEnv) (c : Cache) (edgeWeight : R)
  : result (list Vec2) * Cache :=
  match cache_get c edgeWeight with
  | Some cached => (cached, c)
  | None =>
      let promise := computeLogoPixelPositions env edgeWeight in
      (promise, cache_set c edgeWeight promise)
  end.

Definition jitter : R := 0.0025.

(** One round of the loop of [generateLogoPoints]: three draws, one
    point pushed. *)
Definition logo_point (positions : list Vec2) (s : Rng.state)
  : Vec2 * Rng.state :=
  let '(r0, s) := Rng.next s in
  let base :=
    nth (Z.to_nat (Num.floor (r0 * INR (List.length positions))))
        positions Vec.zero in
  let '(r1, s) := Rng.next s in
  let dx := (r1 - 0.5) * jitter in
  let '(r2, s) := Rng.next s in
  let dy := (r2 - 0.5) * jitter in
  let x := Num.max (-1) (Num.min 1 (vx base + dx)) in
  let y := Num.max (-1) (Num.min 1 (vy base + dy)) in
  (vec2f x y, s).

Fixpoint logo_points (count : nat) (positions : list Vec2)
         (s : Rng.state) (points : list Vec2) : list Vec2 * Rng.state :=
  match count with
  | O => (points, s)
  | S count' =>
      let '(p, s') := logo_point positions s in
      logo_points count' positions s' (points ++ [p])
  end.

Definition generateLogoPoints (env : LogoEnv) (c : Cache)
           (count : nat) (edgeWeight : R) (s : Rng.state)
  : result (list Vec2 * Rng.state) * Cache :=
  match loadLogoPixelPositions env c edgeWeight with
  | (inl e, c') => (inl e, c')
  | (inr positions, c') => (inr (logo_points count positions s []), c')
  end.

End Sampler.

Import Sampler.

(** ** The simulation kernel: [simulate] *)

Module Kernel.

Record Particle : Type := {
  position : Vec2;
  velocity : Vec2
}.

Record Uniforms : Type := {
  deltaTime : R;
  hoverStrength : R;
  time : R;
  aspectRatio : R;
  gravityStrength : R;
  massCount : R;
  wiggleOffsetScale : R;
  wiggleForceScale : R;
  repelStrength : R
}.

Definition zeroParticle : Particle :=
  {| position := Vec.zero; velocity := Vec.zero |}.

(** What a thread of the compute pass reads: the uniforms and the three
    read-only storage bindings. *)
Record Bindings : Type := {
  uniforms : Uniforms;
  particlesIn : list Particle;
  massPoints : list Vec2;
  restTargets : list Vec2
}.

(** The running values of the nearest-mass-point search. *)
Record Nearest : Type := {
  nearest : Vec2;
  nearestDiff : Vec2;
  nearestDistSq : R
}.

Definition repulsionRadius : R := 0.05.
Definition repulsionRadiusSq : R := repulsionRadius * repulsionRadius.

(** The values of [step] in [for (let step = 1; step <= 37; step += 12)]. *)
Definition repulsion_steps : list Z := [1; 13; 25; 37]%Z.

Section Thread.

(** One thread: the bindings [B] and the thread's [index].  A read
    [buffer.value[i]] is [nth i buffer default]. *)
Variable B : Bindings.
Variable index : nat.

Definition u : Uniforms := uniforms B.
Definition particle : Particle := nth index (particlesIn B) zeroParticle.
Definition rest : Vec2 := nth index (restTargets B) Vec.zero.
Definition pos : Vec2 := position particle.
Definition vel : Vec2 := velocity particle.
Definition hover : R := hoverStrength u.
Definition time_ : R := time u.
Definition dt : R := deltaTime u.
Definition particleIdx : R := INR index.

Definition massCount_i32 : Z := Num.i32_of (massCount u).

Definition nearest_init : Nearest :=
  let n := nth 0 (massPoints B) Vec.zero in
  let diff := sub n pos in
  {| nearest := n; nearestDiff := diff; nearestDistSq := dot diff diff |}.

(** The body of [for (let i = 1; i < massCount; i++)]. *)
Definition nearest_step (acc : Nearest) (i : nat) : Nearest :=
  let m := nth i (massPoints B) Vec.zero in
  let diff := sub m pos in
  let distSq := dot diff diff in
  let closer := Num.ltb distSq (nearestDistSq acc) in
  {| nearest := select (nearest acc) m closer;
     nearestDiff := select (nearestDiff acc) diff closer;
     nearestDistSq := select (nearestDistSq acc) distSq closer |}.

Definition nearest_search : Nearest :=
  fold_left nearest_step (seq 1 (Z.to_nat (massCount_i32 - 1))) nearest_init.

Definition wigglePhaseX : R := time_ * 4.0 + particleIdx * 0.17.
Definition wigglePhaseY : R := time_ * 3.4 + particleIdx * 0.11.
Definition wiggle : Vec2 := vec2f (sin wigglePhaseX) (cos wigglePhaseY).
Definition wiggleOffset : Vec2 := mul wiggle (wiggleOffsetScale u * hover).
Definition targetPos : Vec2 := add (nearest nearest_search) wiggleOffset.

Definition toTarget : Vec2 := sub targetPos pos.
Definition targetDist : R := Vec.length toTarget.
Definition targetDir : Vec2 :=
  select (vec2f 0 0) (mul toTarget (1.0 / targetDist))
         (Num.gtb targetDist 0.001).

Definition springStrength : R := mix 18.0 32.0 hover.
Definition dampingStrength : R := mix 12.0 3.0 hover.
Definition gravity : Vec2 := mul targetDir (gravityStrength u * hover).
Definition springForce : Vec2 :=
  mul targetDir (targetDist * springStrength * hover).
Definition dampingForce : Vec2 := mul vel (- dampingStrength).

Definition restForce : Vec2 := mul (sub rest pos) (6.0 * (1.0 - hover)).

Definition wiggleForce : Vec2 :=
  mul (vec2f (sin (time_ * 5.5 + particleIdx * 0.23))
             (cos (time_ * 5.2 + particleIdx * 0.29)))
      (wiggleForceScale u * hover).

Definition repulsionStrength : R := repelStrength u.
Definition count : Z := massCount_i32.

(** The body of the neighbour loop for one value of [step]. *)
Definition repulsion_step (repulsionForce : Vec2) (step : Z) : Vec2 :=
  let neighborIdx := Z.rem (Z.of_nat index + step) count in
  let other := nth (Z.to_nat neighborIdx) (particlesIn B) zeroParticle in
  let diff := sub pos (position other) in
  let distSq := dot diff diff in
  let within := Num.ltb distSq repulsionRadiusSq in
  let safeDist := Num.max distSq 1e-5 in
  let invDist := 1.0 / sqrt safeDist in
  let dir := mul diff invDist in
  let push :=
    mul dir ((repulsionRadius - sqrt safeDist) * repulsionStrength) in
  select repulsionForce (add repulsionForce push) within.

Definition repulsionForce : Vec2 :=
  fold_left repulsion_step repulsion_steps (vec2f 0 0).

Definition totalForce : Vec2 :=
  add restForce
      (add repulsionForce
           (add gravity
                (add springForce (add dampingForce wiggleForce)))).

Definition damping : R := mix 0.8 0.95 hover.

(** [particle.velocity] after the update with damping. *)
Definition velocity_integrated : Vec2 :=
  add (mul vel damping) (mul totalForce dt).

Definition speed : R := Vec.length velocity_integrated.
Definition maxSpeed : R := mix 0.8 3.2 hover.

(** [particle.velocity] after the speed limit. *)
Definition velocity_limited : Vec2 :=
  select velocity_integrated
         (mul velocity_integrated (maxSpeed / speed))
         (Num.gtb speed maxSpeed).

(** The particle stored at [particlesOut.value[index]]. *)
Definition simulate : Particle :=
  {| position := add pos (mul velocity_limited dt);
     velocity := velocity_limited |}.

End Thread.

(** A store [buffer.value[i] = v]; a store past the end of the buffer is
    dropped. *)
Fixpoint store {A : Type} (buffer : list A) (i : nat) (v : A) : list A :=
  match buffer, i with
  | [], _ => []
  | _ :: rest, O => v :: rest
  | a :: rest, S i' => a :: store rest i' v
  end.

(** [dispatchThreads(n)]: threads [0 .. n-1] each run [simulate] on the
    same read-only bindings and store their particle in [particlesOut]. *)
Definition dispatchThreads (n : nat) (B : Bindings)
           (particlesOut : list Particle) : list Particle :=
  fold_left (fun out index => store out index (simulate B index))
            (seq 0 n) particlesOut.

End Kernel.

Import Kernel.

(** ** The particle system: [createParticleSystem], [animate],
       [setHovering], and the error path of [App] *)

Module System.

Record Options : Type := {
  particleCount : nat;
  edgeWeight : R;
  scatter : R;
  seed : Z;
  gravityStrength : R;
  wiggleOffsetScale : R;
  wiggleForceScale : R;
  repelStrength : R
}.

(** [root.createBuffer(d.arrayOf(T, n))]: a buffer of [n] zeroed elements. *)
Definition createBuffer {A : Type} (zero : A) (n : nat) : list A :=
  repeat zero n.

(** [buffer.write(data)]: the elements of [data] replace the first elements
    of the buffer; the buffer keeps its size. *)
Definition write {A : Type} (buffer data : list A) : list A :=
  firstn (List.length buffer) data ++ skipn (List.length data) buffer.

Definition zeroUniforms : Kernel.Uniforms :=
  {| Kernel.deltaTime := 0; Kernel.hoverStrength := 0; Kernel.time := 0;
     Kernel.aspectRatio := 0; Kernel.gravityStrength := 0;
     Kernel.massCount := 0; Kernel.wiggleOffsetScale := 0;
     Kernel.wiggleForceScale := 0; Kernel.repelStrength := 0 |}.

(** The variables [createParticleSystem] leaves to its closures: the GPU
    buffers and the mutable state of [animate]. *)
Record State : Type := {
  options : Options;
  particleBuffers : list Particle * list Particle;
  massBuffer : list Vec2;
  restBuffer : list Vec2;
  uniforms : Kernel.Uniforms;
  logoMassPoints_length : nat;
  isHovering : bool;
  hoverTransition : R;
  time : R;
  lastTime : R;
  even : bool
}.

(** [particleBuffers[idx]] and the replacement of its contents. *)
Definition particleBuffer (bufs : list Particle * list Particle) (idx : nat)
  : list Particle :=
  match idx with O => fst bufs | S _ => snd bufs end.

Definition setParticleBuffer (bufs : list Particle * list Particle)
           (idx : nat) (contents : list Particle)
  : list Particle * list Particle :=
  match idx with O => (contents, snd bufs) | S _ => (fst bufs, contents) end.

(** A compute bind group names the particle buffer it reads and the one it
    writes; every group binds [massBuffer] and [restBuffer] read-only. *)
Record BindGroup : Type := {
  bg_particlesIn : nat;
  bg_particlesOut : nat
}.

Definition computeBindGroups : list BindGroup :=
  map (fun idx => {| bg_particlesIn := idx; bg_particlesOut := 1 - idx |})
      [0; 1]%nat.

(** [restPositions = logoMassPoints.map(...)]: two draws per mass point. *)
Fixpoint rest_positions (maxOffset : R) (mass : list Vec2) (s : Rng.state)
  : list Vec2 * Rng.state :=
  match mass with
  | [] => ([], s)
  | t :: mass' =>
      let '(r0, s) := Rng.next s in
      let angle := r0 * PI * 2 in
      let '(r1, s) := Rng.next s in
      let radius := r1 * maxOffset in
      let rx := vx t + cos angle * radius in
      let ry := vy t + sin angle * radius in
      let '(rests, s) := rest_positions maxOffset mass' s in
      (vec2f rx ry :: rests, s)
  end.

Definition initialParticles (restPositions : list Vec2) : list Particle :=
  map (fun p => {| position := p; velocity := vec2f 0 0 |}) restPositions.

(** The browser as [createParticleSystem] and [App] meet it. *)
Record Browser : Type := {
  logo : LogoEnv;
  navigator_gpu : bool;     (* [navigator.gpu] is defined *)
  tgpu_init : bool;         (* [await tgpu.init()] resolves *)
  webgpu_context : bool     (* [canvas.getContext("webgpu")] is not null *)
}.

(** The part of [createParticleSystem] from "Initialize data" to the
    declaration of the mutable state: the buffers are created and written,
    the state variables get their first values.  [logoPoints] and [rng] are
    what [generateLogoPoints] returned and the generator as it left it;
    [now0] is the first reading of [performance.now()]. *)
Definition populate (opts : Options) (now0 : R)
           (logoPoints : list Vec2) (rng : Rng.state) : State :=
  let n := particleCount opts in
  let buffer0 := createBuffer zeroParticle n in
  let buffer1 := createBuffer zeroParticle n in
  let massBuffer0 := createBuffer Vec.zero n in
  let restBuffer0 := createBuffer Vec.zero n in
  let logoMassPoints := firstn n logoPoints in
  let maxOffset := scatter opts in
  let '(restPositions, _) := rest_positions maxOffset logoMassPoints rng in
  let particles := initialParticles restPositions in
  {| options := opts;
     particleBuffers := (write buffer0 particles, write buffer1 particles);
     massBuffer := write massBuffer0 logoMassPoints;
     restBuffer := write restBuffer0 restPositions;
     uniforms := zeroUniforms;
     logoMassPoints_length := List.length logoMassPoints;
     isHovering := false;
     hoverTransition := 0;
     time := 0;
     lastTime := now0;
     even := false |}.

(** [createParticleSystem] up to the declaration of the mutable state. *)
Definition initialize (env : Browser) (c : Cache) (opts : Options) (now0 : R)
  : result State * Cache :=
  let rng := Rng.makeRng (seed opts) in
  if negb (tgpu_init env) then (inl Rejected, c)
  else if negb (webgpu_context env) then (inl WebGPUNotSupported, c)
  else
    match
      generateLogoPoints (logo env) c (particleCount opts) (edgeWeight opts)
                         rng
    with
    | (inl e, c') => (inl e, c')
    | (inr (logoPoints, rng), c') =>
        (inr (populate opts now0 logoPoints rng), c')
    end.

(** What one frame did with the particle buffers: the buffer the compute
    pass read, the one it wrote, and the one the render pass drew. *)
Record Frame : Type := {
  computeIn : nat;
  computeOut : nat;
  rendered : nat
}.

(** One call of [animate]; [now] is [performance.now()], and the canvas
    size is read for the aspect ratio. *)
Definition animate (now canvas_width canvas_height : R) (s : State)
  : State * Frame :=
  let dt := Num.min ((now - lastTime s) / 1000) 0.05 in
  let time' := time s + dt in
  let targetHover : R := if isHovering s then 1 else 0 in
  let rate : R :=
    if Num.gtb targetHover (hoverTransition s) then 5.0 else 1.2 in
  let hoverTransition' :=
    hoverTransition s + (targetHover - hoverTransition s) * dt * rate in
  let opts := options s in
  let uniforms' :=
    {| Kernel.deltaTime := dt;
       Kernel.hoverStrength := hoverTransition';
       Kernel.time := time';
       Kernel.aspectRatio := canvas_width / canvas_height;
       Kernel.gravityStrength := gravityStrength opts;
       Kernel.massCount := INR (logoMassPoints_length s);
       Kernel.wiggleOffsetScale := wiggleOffsetScale opts;
       Kernel.wiggleForceScale := wiggleForceScale opts;
       Kernel.repelStrength := repelStrength opts |} in
  let even' := negb (even s) in
  let group :=
    nth (if even' then 0 else 1)%nat computeBindGroups
        {| bg_particlesIn := 0; bg_particlesOut := 0 |} in
  let bindings :=
    {| Kernel.uniforms := uniforms';
       Kernel.particlesIn :=
         particleBuffer (particleBuffers s) (bg_particlesIn group);
       Kernel.massPoints := massBuffer s;
       Kernel.restTargets := restBuffer s |} in
  let out :=
    dispatchThreads (particleCount opts) bindings
      (particleBuffer (particleBuffers s) (bg_particlesOut group)) in
  ({| options := opts;
      particleBuffers :=
        setParticleBuffer (particleBuffers s) (bg_particlesOut group) out;
      massBuffer := massBuffer s;
      restBuffer := restBuffer s;
      uniforms := uniforms';
      logoMassPoints_length := logoMassPoints_length s;
      isHovering := isHovering s;
      hoverTransition := hoverTransition';
      time := time';
      lastTime := now;
      even := even' |},
   {| computeIn := bg_particlesIn group;
      computeOut := bg_particlesOut group;
      rendered := if even' then 1 else 0 |})%nat.

Definition setHovering (h : bool) (s : State) : State :=
  {| options := options s;
     particleBuffers := particleBuffers s;
     massBuffer := massBuffer s;
     restBuffer := restBuffer s;
     uniforms := uniforms s;
     logoMassPoints_length := logoMassPoints_length s;
     isHovering := h;
     hoverTransition := hoverTransition s;
     time := time s;
     lastTime := lastTime s;
     even := even s |}.

(** The readings of the clock and of the canvas size a frame's [animate]
    takes. *)
Record Tick : Type := {
  now : R;
  canvas_width : R;
  canvas_height : R
}.

(** [createParticleSystem]: initialization, then the first [animate()]. *)
Definition createParticleSystem (env : Browser) (c : Cache) (opts : Options)
           (now0 : R) (first : Tick)
  : result (State * Frame) * Cache :=
  match initialize env c opts now0 with
  | (inl e, c') => (inl e, c')
  | (inr s, c') =>
      (inr (animate (now first) (canvas_width first) (canvas_height first) s),
       c')
  end.

(** What happens to a running system: the animation loop calls [animate],
    the page calls [setHovering]. *)
Inductive Op : Type :=
| Animate (tick : Tick)
| SetHovering (h : bool).

Definition step (s : State) (op : Op) : State * list Frame :=
  match op with
  | Animate tick =>
      let '(s', f) :=
        animate (now tick) (canvas_width tick) (canvas_height tick) s in
      (s', [f])
  | SetHovering h => (setHovering h s, [])
  end.

(** A run of operations, with the frames it produced in order. *)
Fixpoint run (s : State) (ops : list Op) : State * list Frame :=
  match ops with
  | [] => (s, [])
  | op :: ops' =>
      let '(s1, fs1) := step s op in
      let '(s2, fs2) := run s1 ops' in
      (s2, fs1 ++ fs2)
  end.

(** The part of [App]'s React state the initialization writes. *)
Record UI : Type := {
  error : option Error;
  loading : bool;
  particleSystem : option State
}.

(** [init] of [App]: the capability check, [createParticleSystem], and the
    [catch] that puts the error on the page. *)
Definition App_init (env : Browser) (c : Cache) (opts : Options)
           (now0 : R) (first : Tick) (mounted : bool) (ui : UI)
  : UI * Cache :=
  let attempt :=
    if negb (navigator_gpu env) then (inl WebGPUNotInBrowser, c)
    else createParticleSystem env c opts now0 first in
  match attempt with
  | (inr (system, _), c') =>
      (if mounted
       then {| error := error ui; loading := false;
               particleSystem := Some system |}
       else ui, c')
  | (inl e, c') =>
      (if mounted
       then {| error := Some e; loading := false;
               particleSystem := particleSystem ui |}
       else ui, c')
  end.

End System.

Import System.

(** ** The sampler as the specification words it *)

Module SamplerSpec.

(** The alpha byte of pixel [(x, y)]. *)
Definition alpha (b : Bitmap) (x y : Z) : Z :=
  nth (Z.to_nat ((y * width b + x) * 4 + 3)) (data b) 0%Z.

(** A position is opaque when it lies in the image and its alpha is
    positive; a position outside the image counts as empty. *)
Definition opaque (b : Bitmap) (x y : Z) : bool :=
  ((0 <=? x) && (x <? width b) && (0 <=? y) && (y <? height b)
   && (0 <? alpha b x y))%Z.

(** The eight surrounding offsets. *)
Definition neighbours : list (Z * Z) :=
  filter (fun d => negb ((fst d =? 0) && (snd d =? 0))%Z)
         (list_prod [-1; 0; 1]%Z [-1; 0; 1]%Z).

(** A pixel is a border pixel when one of its eight neighbours is not
    opaque. *)
Definition has_empty_neighbour (b : Bitmap) (x y : Z) : bool :=
  existsb (fun d => negb (opaque b (x + fst d) (y + snd d))) neighbours.

(** The pixels of the image, row by row. *)
Definition pixels (b : Bitmap) : list (Z * Z) :=
  flat_map (fun y => map (fun x => (x, y)) (upto (width b))) (upto (height b)).

Definition centre (b : Bitmap) (p : Z * Z) : Vec2 := ndc b (fst p) (snd p).

Definition fill_pixels (b : Bitmap) : list (Z * Z) :=
  filter (fun p => opaque b (fst p) (snd p)) (pixels b).

Definition border_pixels (b : Bitmap) : list (Z * Z) :=
  filter (fun p => has_empty_neighbour b (fst p) (snd p)) (fill_pixels b).

(** Fill positions once, then the border positions [n] times. *)
Definition fill_then_borders (fill border : list Vec2) (n : nat) : list Vec2 :=
  fill ++ List.concat (repeat border n).

(** The open square and the closed square of normalized device
    coordinates. *)
Definition strictly_inside (p : Vec2) : Prop :=
  -1 < vx p < 1 /\ -1 < vy p < 1.

Definition inside (p : Vec2) : Prop :=
  -1 <= vx p <= 1 /\ -1 <= vy p <= 1.

(** [p] is a point of [positions] moved by at most half the jitter in each
    coordinate and clamped into the square. *)
Definition jittered (positions : list Vec2) (p : Vec2) : Prop :=
  exists (base : Vec2) (dx dy : R),
    In base positions /\
    Rabs dx <= jitter / 2 /\ Rabs dy <= jitter / 2 /\
    vx p = Num.max (-1) (Num.min 1 (vx base + dx)) /\
    vy p = Num.max (-1) (Num.min 1 (vy base + dy)).

End SamplerSpec.

Import SamplerSpec.

(** ** The force sum as the specification words it *)

Module KernelSpec.

(** The five named components: spring toward the target, velocity damping,
    neighbour repulsion, relaxation toward the rest point, periodic
    wiggle. *)
Definition five_component_sum (B : Bindings) (index : nat) : Vec2 :=
  add (springForce B index)
      (add (dampingForce B index)
           (add (repulsionForce B index)
                (add (restForce B index) (wiggleForce B index)))).

End KernelSpec.

Import KernelSpec.

(** ** The running system as the specification words it *)

Module SystemSpec.

(** WebGPU is available: [tgpu.init()] resolves and the canvas gives a
    WebGPU context. *)
Definition webgpu_available (env : Browser) : bool :=
  tgpu_init env && webgpu_context env.

(** The logo decodes into a usable mask: the image is fetched and decoded,
    a 2D context reads it back, and it has an opaque pixel. *)
Definition logo_usable (l : LogoEnv) : bool :=
  match decoded l with
  | None => false
  | Some b =>
      context2d l && negb (List.length (fill_pixels b) =? 0)%nat
  end.

(** Every entry of the cache holds what loading the logo in this browser
    gives for its key. *)
Definition cache_consistent (l : LogoEnv) (c : Cache) : Prop :=
  forall (k : R) (v : result (list Vec2)),
    cache_get c k = Some v -> v = computeLogoPixelPositions l k.

(** All four buffers hold [n] elements, and [n] is the particle count. *)
Definition sized (n : nat) (s : State) : Prop :=
  List.length (fst (particleBuffers s)) = n /\
  List.length (snd (particleBuffers s)) = n /\
  List.length (massBuffer s) = n /\
  List.length (restBuffer s) = n /\
  logoMassPoints_length s = n /\
  particleCount (options s) = n.

(** The rest point [r] is the mass point [t] moved by the polar offset
    [(cos angle, sin angle) * radius]. *)
Definition polar_offset (t r : Vec2) (angle radius : R) : Prop :=
  vx r = vx t + cos angle * radius /\ vy r = vy t + sin angle * radius.

(** The operations of a run that are frames. *)
Definition is_animate (op : Op) : bool :=
  match op with Animate _ => true | SetHovering _ => false end.

End SystemSpec.

Import SystemSpec.

(** ** Concrete inputs *)

Module Samples.

(** A single opaque pixel. *)
Definition one_pixel : Bitmap :=
  {| bitmap_width := 1; bitmap_height := 1; data := [0; 0; 0; 255]%Z |}.

(** A 3 x 3 image, every pixel opaque. *)
Definition block3 : Bitmap :=
  {| bitmap_width := 3; bitmap_height := 3;
     data := List.concat (repeat [255; 255; 255; 255]%Z 9) |}.

Definition logo_ok : LogoEnv :=
  {| decoded := Some one_pixel; context2d := true |}.

(** One particle at rest at the origin, fully hovered, with its only mass
    point one unit to the right; every tunable force scale is zero except
    [gravityStrength]. *)
Definition pulled : Bindings :=
  {| Kernel.uniforms :=
       {| Kernel.deltaTime := 0; Kernel.hoverStrength := 1;
          Kernel.time := 0; Kernel.aspectRatio := 1;
          Kernel.gravityStrength := 1; Kernel.massCount := 1;
          Kernel.wiggleOffsetScale := 0; Kernel.wiggleForceScale := 0;
          Kernel.repelStrength := 0 |};
     Kernel.particlesIn := [zeroParticle];
     Kernel.massPoints := [vec2f 1 0];
     Kernel.restTargets := [vec2f 0 0] |}.

(** A browser in which everything initialization asks for is there. *)
Definition browser_ok : Browser :=
  {| logo := logo_ok; navigator_gpu := true; tgpu_init := true;
     webgpu_context := true |}.

(** The defaults of the control panel, with two particles. *)
Definition sample_options : Options :=
  {| particleCount := 2; edgeWeight := 5; scatter := 0.3; seed := 409969;
     System.gravityStrength := 0.08; System.wiggleOffsetScale := 0.003;
     System.wiggleForceScale := 0.1; System.repelStrength := 10 |}.

Definition sample_tick : Tick :=
  {| now := 16; canvas_width := 800; canvas_height := 600 |}.

(** The candidate list of the one-pixel logo, and the state
    [createParticleSystem] builds from it before its first frame. *)
Definition sample_positions : list Vec2 :=
  weighted (scan one_pixel) (edgeWeight sample_options).

Definition sample_state : State :=
  populate sample_options 0
    (fst (logo_points (particleCount sample_options) sample_positions
                      (Rng.makeRng (seed sample_options)) []))
    (snd (logo_points (particleCount sample_options) sample_positions
                      (Rng.makeRng (seed sample_options)) [])).

Definition sample_cache : Cache :=
  cache_set [] (edgeWeight sample_options) (inr sample_positions).

(** The system [createParticleSystem] returns, after its first frame, and
    that frame. *)
Definition sample_running : State :=
  fst (animate (now sample_tick) (canvas_width sample_tick)
               (canvas_height sample_tick) sample_state).

Definition sample_frame : Frame :=
  snd (animate (now sample_tick) (canvas_width sample_tick)
               (canvas_height sample_tick) sample_state).

(** A short life of the system: a frame, the pointer enters, a frame. *)
Definition sample_ops : list Op :=
  [Animate sample_tick; SetHovering true; Animate sample_tick].

End Samples.

Import Samples.

(** ** The render pass: the quad, [mainVert] and [mainFrag] *)

Module Render.

Record Vec4 : Type := vec4f { x4 : R; y4 : R; z4 : R; w4 : R }.

Definition quadSize : R := 0.006.

(** The six vertices of the quad (two triangles). *)
Definition quadVertices : list Vec2 :=
  [vec2f (- quadSize) (- quadSize);
   vec2f quadSize (- quadSize);
   vec2f (- quadSize) quadSize;
   vec2f (- quadSize) quadSize;
   vec2f quadSize (- quadSize);
   vec2f quadSize quadSize].

Record VertexInput : Type := {
  quadPos : Vec2;
  particlePos : Vec2;
  particleVel : Vec2
}.

Record VertexOutput : Type := {
  position : Vec4;
  color : Vec4;
  uv : Vec2
}.

(** The scale factors of the aspect-ratio correction. *)
Definition scaleX (aspect : R) : R := Num.min 1.0 (1.0 / aspect).
Definition scaleY (aspect : R) : R := Num.min 1.0 aspect.

Definition mainVert (unif : Kernel.Uniforms) (input : VertexInput)
  : VertexOutput :=
  let pos := add (particlePos input) (quadPos input) in
  let aspect := Kernel.aspectRatio unif in
  let correctedX := vx pos * scaleX aspect in
  let correctedY := vy pos * scaleY aspect in
  let speed := Vec.length (particleVel input) in
  let brightness := mix 0.7 1.0 (speed * 2.0) in
  {| position := vec4f correctedX correctedY 0 1;
     color := vec4f brightness brightness brightness 1;
     uv := mul (quadPos input) (1.0 / quadSize) |}.

Definition mainFrag (input : VertexOutput) : Vec4 :=
  let dist := Vec.length (uv input) in
  let alpha := 1.0 - dist in
  let smoothAlpha := alpha * alpha * alpha in
  select (vec4f 0 0 0 0)
         (vec4f (x4 (color input)) (y4 (color input)) (z4 (color input))
                smoothAlpha)
         (Num.ltb dist 1.0).

End Render.

(** ** Notions the further properties are stated with *)

Module Notions.

(** The state of the generator after [n] draws. *)
Definition state_after (n : nat) (s : Rng.state) : Rng.state :=
  Nat.iter n (fun s => snd (Rng.next s)) s.

(** The compute pass with its threads run in the order [threads]. *)
Definition dispatch_in_order (threads : list nat) (B : Bindings)
           (particlesOut : list Particle) : list Particle :=
  fold_left (fun out index => store out index (simulate B index))
            threads particlesOut.

(** The squared distance from [pos] to the point [m]. *)
Definition distSq_to (pos m : Vec2) : R := dot (sub m pos) (sub m pos).

(** The index of the neighbour a thread samples at [step]. *)
Definition neighborIdx (B : Bindings) (index : nat) (step : Z) : Z :=
  Z.rem (Z.of_nat index + step) (count B).

(** No sampled neighbour of particle [index] is closer than the repulsion
    radius. *)
Definition no_neighbour_within (B : Bindings) (index : nat) : Prop :=
  forall step : Z,
    In step repulsion_steps ->
    repulsionRadiusSq <=
    distSq_to (position (nth (Z.to_nat (neighborIdx B index step))
                             (Kernel.particlesIn B) zeroParticle))
              (pos B index).

Definition pixel_eq_dec (p q : Z * Z) : {p = q} + {p <> q}.
Proof. decide equality; apply Z.eq_dec. Defined.

(** The pixels behind the candidate list: the fill pixels once, then the
    border pixels [borderWeight] times. *)
Definition weighted_pixels (b : Bitmap) (edgeWeight : R) : list (Z * Z) :=
  fill_pixels b ++
  List.concat (repeat (border_pixels b) (Z.to_nat (borderWeight edgeWeight))).

(** The frames of a run are [n] in number. *)
Definition frames_of (ops : list Op) : nat :=
  List.length (filter is_animate ops).

(** The end of [simulate], from the velocity update on, for a thread that
    found [force] as its total force. *)
Definition integrate (unif : Kernel.Uniforms) (p : Particle) (force : Vec2)
  : Particle :=
  let hover := Kernel.hoverStrength unif in
  let dt := Kernel.deltaTime unif in
  let damping := mix 0.8 0.95 hover in
  let v := add (mul (velocity p) damping) (mul force dt) in
  let speed := Vec.length v in
  let maxSpeed := mix 0.8 3.2 hover in
  let v' := select v (mul v (maxSpeed / speed)) (Num.gtb speed maxSpeed) in
  {| position := add (position p) (mul v' dt); velocity := v' |}.

(** The bindings with other mass points, or with other rest points. *)
Definition with_massPoints (B : Bindings) (mass : list Vec2) : Bindings :=
  {| Kernel.uniforms := Kernel.uniforms B;
     Kernel.particlesIn := Kernel.particlesIn B;
     Kernel.massPoints := mass;
     Kernel.restTargets := Kernel.restTargets B |}.

Definition with_restTargets (B : Bindings) (rests : list Vec2) : Bindings :=
  {| Kernel.uniforms := Kernel.uniforms B;
     Kernel.particlesIn := Kernel.particlesIn B;
     Kernel.massPoints := Kernel.massPoints B;
     Kernel.restTargets := rests |}.

(** What the compute pass of the frame [animate now w h s] is bound to. *)
Definition frame_bindings (now w h : R) (s : State) : Bindings :=
  {| Kernel.uniforms := uniforms (fst (animate now w h s));
     Kernel.particlesIn :=
       particleBuffer (particleBuffers s)
                      (computeIn (snd (animate now w h s)));
     Kernel.massPoints := massBuffer s;
     Kernel.restTargets := restBuffer s |}.

(** The clock readings of the frames of a run do not go back, starting
    from the reading [t]. *)
Fixpoint monotone_from (t : R) (ops : list Op) : Prop :=
  match ops with
  | [] => True
  | Animate tick :: ops' => t <= now tick /\ monotone_from (now tick) ops'
  | SetHovering _ :: ops' => monotone_from t ops'
  end.

(** The page before initialization. *)
Definition fresh_ui : UI :=
  {| error := None; loading := true; particleSystem := None |}.

(** [array[i]] for the two-element arrays of the system; [None] is
    [undefined]. *)
Definition lookup_group (i : nat) : option BindGroup :=
  nth_error computeBindGroups i.

Definition lookup_buffer (bufs : list Particle * list Particle) (i : nat)
  : option (list Particle) :=
  nth_error [fst bufs; snd bufs] i.

(** [animate] with its array lookups spelled out: the frame throws (gives
    [None]) when [computeBindGroups[even ? 0 : 1]], one of the two buffers
    that group was created from, or [particleBuffers[even ? 1 : 0]] is
    [undefined], since the library call that receives it cannot use it;
    otherwise the frame is the one [animate] describes. *)
Definition animate_checked (now w h : R) (s : State)
  : option (State * Frame) :=
  let even' := negb (even s) in
  match lookup_group (if even' then 0 else 1)%nat with
  | None => None
  | Some group =>
      match lookup_buffer (particleBuffers s) (bg_particlesIn group),
            lookup_buffer (particleBuffers s) (bg_particlesOut group),
            lookup_buffer (particleBuffers s) (if even' then 1 else 0)%nat
      with
      | Some _, Some _, Some _ => Some (animate now w h s)
      | _, _, _ => None
      end
  end.

Definition step_checked (s : State) (op : Op) : option (State * list Frame) :=
  match op with
  | Animate tick =>
      match animate_checked (now tick) (canvas_width tick)
                            (canvas_height tick) s with
      | Some (s', f) => Some (s', [f])
      | None => None
      end
  | SetHovering h => Some (setHovering h s, [])
  end.

(** A run that stops at the first frame that throws. *)
Fixpoint run_checked (s : State) (ops : list Op)
  : option (State * list Frame) :=
  match ops with
  | [] => Some (s, [])
  | op :: ops' =>
      match step_checked s op with
      | None => None
      | Some (s1, fs1) =>
          match run_checked s1 ops' with
          | None => None
          | Some (s2, fs2) => Some (s2, fs1 ++ fs2)
          end
      end
  end.

(** The outcome of the logo load [createParticleSystem] awaits. *)
Definition logo_load (env : Browser) (c : Cache) (opts : Options)
  : result (list Vec2) :=
  fst (loadLogoPixelPositions (logo env) c (edgeWeight opts)).

(** The cache a load leaves in a browser that cannot fetch the logo. *)
Definition stale_cache : Cache :=
  snd (loadLogoPixelPositions {| decoded := None; context2d := true |} []
                              (edgeWeight sample_options)).

End Notions.

Import Notions.

(** ** More concrete inputs *)

Module MoreSamples.

(** Two particles a unit apart, each at its rest point and still, not
    hovered. *)
Definition resting : Bindings :=
  {| Kernel.uniforms :=
       {| Kernel.deltaTime := 0.016; Kernel.hoverStrength := 0;
          Kernel.time := 1; Kernel.aspectRatio := 1;
          Kernel.gravityStrength := 0.08; Kernel.massCount := 2;
          Kernel.wiggleOffsetScale := 0.003;
          Kernel.wiggleForceScale := 0.1; Kernel.repelStrength := 10 |};
     Kernel.particlesIn :=
       [{| position := vec2f 0 0; velocity := vec2f 0 0 |};
        {| position := vec2f 1 0; velocity := vec2f 0 0 |}];
     Kernel.massPoints := [vec2f 0.5 0.5; vec2f (-0.5) 0.5];
     Kernel.restTargets := [vec2f 0 0; vec2f 1 0] |}.

(** A fully transparent pixel. *)
Definition clear_pixel : Bitmap :=
  {| bitmap_width := 1; bitmap_height := 1; data := [255; 255; 255; 0]%Z |}.

(** A browser whose canvas gives no WebGPU context and whose logo cannot
    be fetched. *)
Definition browser_bare : Browser :=
  {| logo := {| decoded := None; context2d := false |};
     navigator_gpu := true; tgpu_init := true; webgpu_context := false |}.

End MoreSamples.

Import MoreSamples.

(** * Properties *)

(** ** Scalars *)

Lemma ltb_true a b : Num.ltb a b = true <-> a < b.
Proof.
  unfold Num.ltb. destruct (Rlt_dec a b); split; intros; try easy.
Qed.

Lemma ltb_false a b : Num.ltb a b = false <-> b <= a.
Proof.
  unfold Num.ltb. destruct (Rlt_dec a b); split; intros; try easy; lra.
Qed.

Lemma floor_bounds (r : R) : IZR (Num.floor r) <= r < IZR (Num.floor r) + 1.
Proof.
  unfold Num.floor. destruct (base_Int_part r). lra.
Qed.

Lemma floor_unique (r : R) (z : Z) :
  IZR z <= r < IZR z + 1 -> Num.floor r = z.
Proof.
  intros H. unfold Num.floor. symmetry. apply Int_part_spec. lra.
Qed.

Lemma floor_IZR (z : Z) : Num.floor (IZR z) = z.
Proof. apply floor_unique. lra. Qed.

Lemma i32_of_INR (n : nat) : Num.i32_of (INR n) = Z.of_nat n.
Proof.
  unfold Num.i32_of. destruct (Rlt_dec (INR n) 0) as [H|H].
  - pose proof (pos_INR n). lra.
  - apply Int_part_INR.
Qed.

(** ** The generator *)

Lemma u32_range x : (0 <= Rng.u32 x < 2 ^ 32)%Z.
Proof. unfold Rng.u32. apply Z.mod_pos_bound. reflexivity. Qed.

Lemma next_u32_range s : (0 <= fst (Rng.next_u32 s) < 2 ^ 32)%Z.
Proof.
  unfold Rng.next_u32. cbn [fst]. unfold Rng.ushr at 1.
  rewrite Z.shiftr_0_r. apply u32_range.
Qed.

(** Every draw lies in [[0, 1)]. *)
Lemma next_range s : 0 <= fst (Rng.next s) < 1.
Proof.
  unfold Rng.next. pose proof (next_u32_range s) as H.
  destruct (Rng.next_u32 s) as [k s']. cbn [fst] in *.
  destruct H as [H0 H1].
  apply IZR_le in H0. apply IZR_lt in H1.
  change (2 ^ 32)%Z with 4294967296%Z in H1.
  split.
  - apply Rmult_le_pos; [exact H0 | ].
    left. apply Rinv_0_lt_compat. lra.
  - apply (Rmult_lt_reg_r 4294967296); [lra | ].
    unfold Rdiv. rewrite Rmult_assoc, Rinv_l by lra. lra.
Qed.

(** The first draws for the default seed, and for seed 0. *)
Example draws_409969 :
  Rng.next_u32 (Rng.makeRng 409969) = (2078710526, 1831975782)%Z /\
  Rng.next_u32 1831975782%Z = (927754174, 3663541595)%Z.
Proof. split; vm_compute; reflexivity. Qed.

Example draws_0 :
  Rng.next_u32 (Rng.makeRng 0) = (1144304738, 1831565813)%Z.
Proof. vm_compute. reflexivity. Qed.

(** ** Vectors *)

Lemma Vec2_eq (a b : Vec2) : vx a = vx b -> vy a = vy b -> a = b.
Proof. destruct a, b. cbn. intros -> ->. reflexivity. Qed.

Lemma length_nonneg (a : Vec2) : 0 <= Vec.length a.
Proof. apply sqrt_pos. Qed.

Lemma length_mul (a : Vec2) (k : R) :
  Vec.length (mul a k) = Vec.length a * Rabs k.
Proof.
  unfold Vec.length, dot, mul. cbn [vx vy].
  replace (vx a * k * (vx a * k) + vy a * k * (vy a * k))
    with ((vx a * vx a + vy a * vy a) * Rsqr k) by (unfold Rsqr; ring).
  rewrite sqrt_mult_alt by nra.
  rewrite sqrt_Rsqr_abs. reflexivity.
Qed.

Lemma mix_bounds (a b t : R) :
  a <= b -> 0 <= t <= 1 -> a <= mix a b t <= b.
Proof. unfold mix. intros; split; nra. Qed.

(** ** The scan of the image *)

Lemma isSolid_opaque (b : Bitmap) (x y : Z) : isSolid b x y = opaque b x y.
Proof.
  unfold isSolid, opaque, alpha, byte_at.
  destruct (x <? 0)%Z eqn:Hx0, (y <? 0)%Z eqn:Hy0,
           (x >=? width b)%Z eqn:Hxw, (y >=? height b)%Z eqn:Hyh;
    cbn [orb];
    repeat match goal with
           | H : (_ <? _)%Z = _ |- _ =>
               first [apply Z.ltb_lt in H | apply Z.ltb_ge in H]
           | H : (_ >=? _)%Z = _ |- _ =>
               rewrite Z.geb_leb in H;
               first [apply Z.leb_le in H | apply Z.leb_gt in H]
           end;
    repeat match goal with
           | |- context [(?a <=? ?c)%Z] =>
               first [rewrite (proj2 (Z.leb_le a c)) by lia
                     | rewrite (proj2 (Z.leb_gt a c)) by lia]
           | |- context [(?a <? ?c)%Z] =>
               first [rewrite (proj2 (Z.ltb_lt a c)) by lia
                     | rewrite (proj2 (Z.ltb_ge a c)) by lia]
           end;
    cbn [andb]; try reflexivity.
  rewrite Z.gtb_ltb. reflexivity.
Qed.

Lemma touchesEmpty_neighbour (b : Bitmap) (x y : Z) :
  touchesEmpty b x y = has_empty_neighbour b x y.
Proof.
  unfold touchesEmpty, has_empty_neighbour, neighbours.
  cbn [list_prod map app filter fst snd Z.eqb andb negb existsb Pos.eqb].
  rewrite !isSolid_opaque.
  replace (x + 0)%Z with x by lia. replace (y + 0)%Z with y by lia.
  change (x + -1)%Z with (x - 1)%Z. change (y + -1)%Z with (y - 1)%Z.
  destruct (opaque b (x + 1) y), (opaque b (x - 1) y),
           (opaque b x (y + 1)), (opaque b x (y - 1)),
           (opaque b (x + 1) (y + 1)), (opaque b (x - 1) (y - 1)),
           (opaque b (x + 1) (y - 1)), (opaque b (x - 1) (y + 1));
    reflexivity.
Qed.

Lemma filter_map_comm {A B : Type} (f : B -> bool) (g : A -> B) (l : list A) :
  filter f (map g l) = map g (filter (fun a => f (g a)) l).
Proof.
  induction l as [|a l IH]; cbn; [reflexivity | ].
  destruct (f (g a)); cbn; rewrite IH; reflexivity.
Qed.

Lemma filter_filter_and {A : Type} (f g : A -> bool) (l : list A) :
  filter g (filter f l) = filter (fun a => f a && g a) l.
Proof.
  induction l as [|a l IH]; cbn; [reflexivity | ].
  destruct (f a); cbn; [destruct (g a) | ]; rewrite IH; reflexivity.
Qed.

(** A row of the scan appends, in order, the centres of the row's solid
    pixels, and to the border list those that touch an empty position. *)
Lemma scan_row_fold (b : Bitmap) (y : Z) (xs : list Z) (acc : Scan) :
  fold_left (scan_pixel b y) xs acc =
  {| fillPositions :=
       fillPositions acc ++
       map (fun x => ndc b x y) (filter (fun x => isSolid b x y) xs);
     borderPositions :=
       borderPositions acc ++
       map (fun x => ndc b x y)
           (filter (fun x => isSolid b x y && touchesEmpty b x y) xs) |}.
Proof.
  revert acc. induction xs as [|x xs IH]; intros acc.
  - cbn. rewrite !app_nil_r. destruct acc; reflexivity.
  - cbn [fold_left]. rewrite IH. unfold scan_pixel. cbn [filter].
    destruct (isSolid b x y); cbn [negb andb].
    + destruct (touchesEmpty b x y); cbn [fillPositions borderPositions map];
        rewrite <- ?app_assoc; reflexivity.
    + reflexivity.
Qed.

Lemma scan_rows_fold (b : Bitmap) (ys : list Z) (acc : Scan) :
  let px := flat_map (fun y => map (fun x => (x, y)) (upto (width b))) ys in
  fold_left (scan_row b) ys acc =
  {| fillPositions :=
       fillPositions acc ++
       map (centre b) (filter (fun p => isSolid b (fst p) (snd p)) px);
     borderPositions :=
       borderPositions acc ++
       map (centre b)
           (filter (fun p => isSolid b (fst p) (snd p)
                             && touchesEmpty b (fst p) (snd p)) px) |}.
Proof.
  revert acc. induction ys as [|y ys IH]; intros acc; cbn zeta in *.
  - cbn. rewrite !app_nil_r. destruct acc; reflexivity.
  - cbn [fold_left flat_map]. rewrite IH. unfold scan_row at 1 2.
    rewrite scan_row_fold. cbn [fillPositions borderPositions].
    rewrite !filter_app, !map_app, !filter_map_comm, !map_map.
    cbn [fst snd]. unfold centre. cbn [fst snd].
    rewrite <- !app_assoc. reflexivity.
Qed.

Lemma scan_fill (b : Bitmap) :
  fillPositions (scan b) = map (centre b) (fill_pixels b).
Proof.
  unfold scan. rewrite scan_rows_fold. cbn [fillPositions app].
  unfold fill_pixels, pixels. f_equal. apply filter_ext.
  intros p. apply isSolid_opaque.
Qed.

Lemma scan_border (b : Bitmap) :
  borderPositions (scan b) = map (centre b) (border_pixels b).
Proof.
  unfold scan. rewrite scan_rows_fold. cbn [borderPositions app].
  unfold border_pixels, fill_pixels, pixels. rewrite filter_filter_and.
  f_equal. apply filter_ext.
  intros p. rewrite isSolid_opaque, touchesEmpty_neighbour. reflexivity.
Qed.

Lemma In_upto (n z : Z) : In z (upto n) <-> (0 <= z < n)%Z.
Proof.
  unfold upto. rewrite in_map_iff. split.
  - intros [k [<- Hk]]. apply in_seq in Hk. lia.
  - intros H. exists (Z.to_nat z). split; [lia | ].
    apply in_seq. lia.
Qed.

Lemma In_pixels (b : Bitmap) (x y : Z) :
  In (x, y) (pixels b) <-> (0 <= x < width b /\ 0 <= y < height b)%Z.
Proof.
  unfold pixels. rewrite in_flat_map. split.
  - intros [y' [Hy Hx]]. apply in_map_iff in Hx.
    destruct Hx as [x' [Heq Hx]]. inversion Heq; subst.
    apply In_upto in Hy. apply In_upto in Hx. lia.
  - intros [Hx Hy]. exists y. split; [apply In_upto; lia | ].
    apply in_map_iff. exists x. split; [reflexivity | apply In_upto; lia].
Qed.

Lemma opaque_in_image (b : Bitmap) (x y : Z) :
  opaque b x y = true -> (0 <= x < width b /\ 0 <= y < height b)%Z.
Proof.
  unfold opaque. rewrite !andb_true_iff.
  intros [[[[H1 H2] H3] H4] _].
  apply Z.leb_le in H1, H3. apply Z.ltb_lt in H2, H4. lia.
Qed.

Lemma has_empty_neighbour_iff (b : Bitmap) (x y : Z) :
  has_empty_neighbour b x y = true <->
  exists dx dy : Z,
    (-1 <= dx <= 1)%Z /\ (-1 <= dy <= 1)%Z /\ (dx, dy) <> (0, 0)%Z /\
    opaque b (x + dx) (y + dy) = false.
Proof.
  unfold has_empty_neighbour. rewrite existsb_exists. split.
  - intros [[dx dy] [Hin Hne]]. cbn [fst snd] in Hne.
    exists dx, dy. apply negb_true_iff in Hne.
    unfold neighbours in Hin. cbn in Hin.
    repeat (destruct Hin as [Hin | Hin];
            [inversion Hin; subst; repeat split; try lia; try easy | ]).
    contradiction.
  - intros (dx & dy & Hdx & Hdy & Hne & Hop).
    exists (dx, dy). cbn [fst snd]. rewrite Hop. split; [ | reflexivity].
    assert (Hx : dx = (-1)%Z \/ dx = 0%Z \/ dx = 1%Z) by lia.
    assert (Hy : dy = (-1)%Z \/ dy = 0%Z \/ dy = 1%Z) by lia.
    unfold neighbours. cbn.
    destruct Hx as [-> | [-> | ->]], Hy as [-> | [-> | ->]];
      try (exfalso; apply Hne; reflexivity); tauto.
Qed.

Lemma In_fill_pixels (b : Bitmap) (x y : Z) :
  In (x, y) (fill_pixels b) <-> opaque b x y = true.
Proof.
  unfold fill_pixels. rewrite filter_In. cbn [fst snd].
  rewrite In_pixels. split; [tauto | ].
  intros H. split; [apply opaque_in_image; exact H | exact H].
Qed.

Lemma NoDup_row (y : Z) (w : nat) :
  NoDup (map (fun x : Z => (x, y)) (map Z.of_nat (seq 0 w))).
Proof.
  apply Injective_map_NoDup.
  - intros x1 x2 Heq. inversion Heq. reflexivity.
  - apply Injective_map_NoDup; [intros n1 n2; lia | apply seq_NoDup].
Qed.

Lemma NoDup_rows (w : nat) (ys : list Z) :
  NoDup ys ->
  NoDup (flat_map (fun y => map (fun x : Z => (x, y))
                                (map Z.of_nat (seq 0 w))) ys).
Proof.
  induction ys as [|y ys IH]; intros Hnd; cbn [flat_map].
  - constructor.
  - inversion Hnd as [|? ? Hnotin Hnd']; subst.
    apply NoDup_app; [apply NoDup_row | apply IH; exact Hnd' | ].
    intros p Hp Hq. apply in_map_iff in Hp.
    destruct Hp as [x [<- _]]. apply in_flat_map in Hq.
    destruct Hq as [y' [Hy' Hq]]. apply in_map_iff in Hq.
    destruct Hq as [x' [Heq _]]. inversion Heq; subst.
    contradiction.
Qed.

Lemma NoDup_pixels (b : Bitmap) : NoDup (pixels b).
Proof.
  unfold pixels, upto. apply NoDup_rows.
  apply Injective_map_NoDup; [intros n1 n2; lia | apply seq_NoDup].
Qed.

(** C2.  The scan of a decoded bitmap classifies exactly the opaque pixels:
    [fillPositions] is, in row order, the centre of every pixel of the
    image that is opaque, each once; [borderPositions] is the centre of
    those among them that have, among their eight neighbours, a position
    that is not opaque (a position outside the image is not opaque).  So a
    classified pixel is a border pixel if and only if one of its eight
    neighbours is empty, and every classified pixel is a fill candidate. *)
Theorem C2_scan_classifies_opaque_pixels (b : Bitmap) :
  fillPositions (scan b) = map (centre b) (fill_pixels b) /\
  borderPositions (scan b) = map (centre b) (border_pixels b) /\
  (forall x y : Z,
      In (x, y) (fill_pixels b) <-> opaque b x y = true) /\
  (forall x y : Z,
      In (x, y) (border_pixels b) <->
      opaque b x y = true /\
      exists dx dy : Z,
        (-1 <= dx <= 1)%Z /\ (-1 <= dy <= 1)%Z /\ (dx, dy) <> (0, 0)%Z /\
        opaque b (x + dx) (y + dy) = false) /\
  NoDup (fill_pixels b) /\
  incl (border_pixels b) (fill_pixels b).
Proof.
  split; [apply scan_fill | ].
  split; [apply scan_border | ].
  split; [apply In_fill_pixels | ].
  split; [ | split].
  - intros x y. unfold border_pixels. rewrite filter_In. cbn [fst snd].
    rewrite In_fill_pixels, has_empty_neighbour_iff. reflexivity.
  - unfold fill_pixels. apply NoDup_filter. apply NoDup_pixels.
  - unfold border_pixels. apply incl_filter.
Qed.

(** In a 3 x 3 block of opaque pixels every pixel is a fill pixel, and
    every pixel but the centre is a border pixel. *)
Example block3_classes :
  fill_pixels block3 =
    [(0, 0); (1, 0); (2, 0); (0, 1); (1, 1); (2, 1); (0, 2); (1, 2); (2, 2)]%Z
  /\
  border_pixels block3 =
    [(0, 0); (1, 0); (2, 0); (0, 1); (2, 1); (0, 2); (1, 2); (2, 2)]%Z.
Proof. split; vm_compute; reflexivity. Qed.

(** ** The weighted candidate list *)

Lemma concat_repeat_comm {A : Type} (l : list A) (n : nat) :
  List.concat (repeat l n) ++ l = l ++ List.concat (repeat l n).
Proof.
  induction n as [|n IH]; cbn [repeat List.concat].
  - rewrite app_nil_r. reflexivity.
  - rewrite <- app_assoc, IH. reflexivity.
Qed.

Lemma weighted_rounds {A : Type} (fill border : list A) (n : nat) :
  Nat.iter n (fun positions => positions ++ border) ([] ++ fill) =
  fill ++ List.concat (repeat border n).
Proof.
  induction n as [|n IH].
  - cbn. rewrite app_nil_r. reflexivity.
  - rewrite Nat.iter_succ, IH. cbn [repeat List.concat].
    rewrite <- app_assoc, concat_repeat_comm. reflexivity.
Qed.

Lemma weighted_spec (sc : Scan) (edgeWeight : R) :
  weighted sc edgeWeight =
  fill_then_borders (fillPositions sc) (borderPositions sc)
                    (Z.to_nat (Z.max 1 (Num.floor edgeWeight))).
Proof. unfold weighted, borderWeight. apply weighted_rounds. Qed.

Lemma centre_fraction (a w : R) :
  0 <= a -> a <= w - 1 -> -1 < ((a + 0.5) / w) * 2 - 1 < 1.
Proof.
  intros Ha Hw. assert (Hpos : 0 < w) by lra.
  pose proof (Rinv_0_lt_compat w Hpos) as Hi.
  assert (Hwi : w * / w = 1) by (apply Rinv_r; lra).
  unfold Rdiv. split; nra.
Qed.

Lemma centre_strictly_inside (b : Bitmap) (x y : Z) :
  (0 <= x < width b)%Z -> (0 <= y < height b)%Z ->
  strictly_inside (ndc b x y).
Proof.
  intros [Hx0 Hx1] [Hy0 Hy1]. unfold strictly_inside, ndc, nx, ny.
  cbn [vx vy].
  apply IZR_le in Hx0, Hy0.
  assert (Hxw : IZR x <= IZR (width b) - 1).
  { rewrite <- minus_IZR. apply IZR_le. lia. }
  assert (Hyh : IZR y <= IZR (height b) - 1).
  { rewrite <- minus_IZR. apply IZR_le. lia. }
  split.
  - apply centre_fraction; assumption.
  - replace (IZR (height b) - (IZR y + 0.5))
      with ((IZR (height b) - 1 - IZR y) + 0.5) by lra.
    apply centre_fraction; lra.
Qed.

Lemma clamp_inside (v : R) : -1 <= Num.max (-1) (Num.min 1 v) <= 1.
Proof.
  unfold Num.max, Num.min. split.
  - apply Rmax_l.
  - apply Rmax_lub; [lra | apply Rmin_l].
Qed.

(** The index [Math.floor(rng() * positions.length)] is in range. *)
Lemma draw_index_in_range (r : R) (n : nat) :
  0 <= r < 1 -> (0 < n)%nat ->
  (Z.to_nat (Num.floor (r * INR n)) < n)%nat.
Proof.
  intros Hr Hn. pose proof (floor_bounds (r * INR n)) as [Hlo Hhi].
  assert (Hpos : 0 < INR n) by (apply lt_0_INR; exact Hn).
  assert (Hup : IZR (Num.floor (r * INR n)) < IZR (Z.of_nat n)).
  { rewrite <- INR_IZR_INZ. nra. }
  assert (Hdown : IZR (-1) < IZR (Num.floor (r * INR n))) by nra.
  apply lt_IZR in Hup, Hdown. lia.
Qed.

Lemma jitter_offset (r : R) : 0 <= r < 1 -> Rabs ((r - 0.5) * jitter) <= jitter / 2.
Proof.
  intros Hr. unfold jitter. apply Rabs_le. lra.
Qed.

Lemma logo_point_inside (positions : list Vec2) (s : Rng.state) :
  inside (fst (logo_point positions s)).
Proof.
  unfold logo_point.
  destruct (Rng.next s) as [r0 s0].
  destruct (Rng.next s0) as [r1 s1].
  destruct (Rng.next s1) as [r2 s2].
  cbn [fst]. split; cbn [vx vy]; apply clamp_inside.
Qed.

Lemma logo_point_jittered (positions : list Vec2) (s : Rng.state) :
  positions <> [] ->
  jittered positions (fst (logo_point positions s)).
Proof.
  intros Hne. unfold logo_point.
  pose proof (next_range s) as H0.
  destruct (Rng.next s) as [r0 s0]. cbn [fst] in H0.
  pose proof (next_range s0) as H1.
  destruct (Rng.next s0) as [r1 s1]. cbn [fst] in H1.
  pose proof (next_range s1) as H2.
  destruct (Rng.next s1) as [r2 s2]. cbn [fst] in H2.
  cbn [fst].
  exists (nth (Z.to_nat (Num.floor (r0 * INR (List.length positions))))
              positions Vec.zero),
         ((r1 - 0.5) * jitter), ((r2 - 0.5) * jitter).
  split.
  - apply nth_In. apply draw_index_in_range; [exact H0 | ].
    destruct positions; [contradiction | cbn; lia].
  - split; [apply jitter_offset; exact H1 | ].
    split; [apply jitter_offset; exact H2 | ].
    split; reflexivity.
Qed.

Lemma logo_points_inside (count : nat) (positions : list Vec2)
      (s : Rng.state) (points : list Vec2) :
  Forall inside points ->
  Forall inside (fst (logo_points count positions s points)).
Proof.
  revert s points. induction count as [|count IH]; intros s points Hpts.
  - exact Hpts.
  - cbn [logo_points].
    pose proof (logo_point_inside positions s) as Hp.
    destruct (logo_point positions s) as [p s']. cbn [fst] in Hp.
    apply IH. apply Forall_app. split; [exact Hpts | ].
    constructor; [exact Hp | constructor].
Qed.

Lemma logo_points_jittered (count : nat) (positions : list Vec2)
      (s : Rng.state) (points : list Vec2) :
  positions <> [] ->
  Forall (jittered positions) points ->
  Forall (jittered positions) (fst (logo_points count positions s points)).
Proof.
  intros Hne. revert s points.
  induction count as [|count IH]; intros s points Hpts.
  - exact Hpts.
  - cbn [logo_points].
    pose proof (logo_point_jittered positions s Hne) as Hp.
    destruct (logo_point positions s) as [p s']. cbn [fst] in Hp.
    apply IH. apply Forall_app. split; [exact Hpts | ].
    constructor; [exact Hp | constructor].
Qed.

(** C3.  When the logo decodes to a bitmap with at least one solid pixel
    (and a 2D context exists to read it), then for every [edgeWeight] the
    emitted list is every fill position once followed by the border
    positions [max(1, floor(edgeWeight))] times; every emitted point is the
    centre [nx = ((x+0.5)/width)*2-1], [ny = ((height-(y+0.5))/height)*2-1]
    of a pixel of the image and lies strictly inside the square
    [-1,1] x [-1,1]; and every point [generateLogoPoints] draws is a point
    of this list moved by at most half the jitter in each coordinate and
    clamped, so it lies in the closed square. *)
Theorem C3_weighted_candidates_in_ndc
        (env : LogoEnv) (b : Bitmap) (edgeWeight : R) :
  decoded env = Some b ->
  context2d env = true ->
  fill_pixels b <> [] ->
  let positions :=
    fill_then_borders (map (centre b) (fill_pixels b))
                      (map (centre b) (border_pixels b))
                      (Z.to_nat (Z.max 1 (Num.floor edgeWeight))) in
  computeLogoPixelPositions env edgeWeight = inr positions /\
  (forall p : Vec2,
      In p positions ->
      exists x y : Z,
        (0 <= x < width b)%Z /\ (0 <= y < height b)%Z /\
        isSolid b x y = true /\
        vx p = ((IZR x + 0.5) / IZR (width b)) * 2 - 1 /\
        vy p = ((IZR (height b) - (IZR y + 0.5)) / IZR (height b)) * 2 - 1 /\
        strictly_inside p) /\
  (forall (count : nat) (s : Rng.state),
      Forall inside (fst (logo_points count positions s [])) /\
      Forall (jittered positions) (fst (logo_points count positions s []))).
Proof.
  intros Hdec Hctx Hfill positions.
  pose proof (scan_fill b) as Hf. pose proof (scan_border b) as Hb.
  pose proof (In_fill_pixels b) as Hfin.
  assert (Hincl : incl (border_pixels b) (fill_pixels b))
    by apply incl_filter.
  split; [ | split].
  - unfold computeLogoPixelPositions. rewrite Hdec, Hctx. cbn [negb].
    rewrite weighted_spec, Hf, Hb, length_map. subst positions.
    destruct (fill_pixels b) as [|p0 ps]; [contradiction | ].
    reflexivity.
  - intros p Hin. subst positions. unfold fill_then_borders in Hin.
    assert (Hsrc : In p (map (centre b) (fill_pixels b))).
    { apply in_app_or in Hin. destruct Hin as [Hin | Hin]; [exact Hin | ].
      apply in_concat in Hin. destruct Hin as [l [Hl Hp]].
      apply repeat_spec in Hl. subst l.
      apply in_map_iff in Hp. destruct Hp as [q [<- Hq]].
      apply in_map. apply Hincl. exact Hq. }
    apply in_map_iff in Hsrc. destruct Hsrc as [[x y] [<- Hq]].
    apply Hfin in Hq. pose proof (opaque_in_image b x y Hq) as [Hx Hy].
    exists x, y. unfold centre. cbn [fst snd].
    repeat split; try lia; try apply (centre_strictly_inside b x y Hx Hy).
    rewrite isSolid_opaque. exact Hq.
  - intros count s. split.
    + apply logo_points_inside. constructor.
    + apply logo_points_jittered; [ | constructor].
      subst positions. unfold fill_then_borders.
      destruct (fill_pixels b); [contradiction | discriminate].
Qed.

Lemma C3_weighted_candidates_in_ndc_witness :
  decoded logo_ok = Some one_pixel /\
  context2d logo_ok = true /\
  fill_pixels one_pixel <> [] /\
  computeLogoPixelPositions logo_ok 5 =
    inr (fill_then_borders
           (map (centre one_pixel) (fill_pixels one_pixel))
           (map (centre one_pixel) (border_pixels one_pixel))
           (Z.to_nat (Z.max 1 (Num.floor 5)))).
Proof.
  assert (Hfill : fill_pixels one_pixel <> [])
    by (vm_compute; discriminate).
  split; [reflexivity | ]. split; [reflexivity | ]. split; [exact Hfill | ].
  exact (proj1 (C3_weighted_candidates_in_ndc logo_ok one_pixel 5
                  eq_refl eq_refl Hfill)).
Defined.

(** The weight of the border for some values of [edgeWeight]. *)
Example borderWeight_5 : borderWeight 5 = 5%Z.
Proof. unfold borderWeight. rewrite floor_IZR. reflexivity. Qed.

Example borderWeight_half : borderWeight 0.5 = 1%Z.
Proof.
  unfold borderWeight. rewrite (floor_unique 0.5 0) by lra. reflexivity.
Qed.

Example borderWeight_negative : borderWeight (-3) = 1%Z.
Proof. unfold borderWeight. rewrite floor_IZR. reflexivity. Qed.

(** ** The force sum of the kernel *)

Lemma vx_add (a b : Vec2) : vx (add a b) = vx a + vx b.
Proof. reflexivity. Qed.

Lemma vy_add (a b : Vec2) : vy (add a b) = vy a + vy b.
Proof. reflexivity. Qed.

(** The kernel's sum is the five named components plus [gravity]. *)
Lemma totalForce_five_plus_gravity (B : Bindings) (index : nat) :
  totalForce B index = add (five_component_sum B index) (gravity B index).
Proof.
  unfold totalForce, five_component_sum.
  apply Vec2_eq; rewrite ?vx_add, ?vy_add; ring.
Qed.

Lemma pulled_massCount : massCount_i32 pulled = 1%Z.
Proof.
  unfold massCount_i32, u, pulled. cbn [Kernel.uniforms Kernel.massCount].
  change 1 with (INR 1). apply i32_of_INR.
Qed.

Lemma pulled_nearest : nearest (nearest_search pulled 0) = vec2f 1 0.
Proof.
  unfold nearest_search. rewrite pulled_massCount. reflexivity.
Qed.

Lemma pulled_toTarget : toTarget pulled 0 = vec2f 1 0.
Proof.
  unfold toTarget, targetPos. rewrite pulled_nearest.
  unfold wiggleOffset, wiggle, hover, u, pos, particle.
  apply Vec2_eq; cbn; ring.
Qed.

Lemma pulled_targetDist : targetDist pulled 0 = 1.
Proof.
  unfold targetDist, Vec.length, dot. rewrite pulled_toTarget. cbn [vx vy].
  replace (1 * 1 + 0 * 0) with 1 by ring. apply sqrt_1.
Qed.

Lemma pulled_targetDir : targetDir pulled 0 = vec2f 1 0.
Proof.
  unfold targetDir. rewrite pulled_targetDist, pulled_toTarget.
  assert (Hgt : Num.gtb 1 0.001 = true) by (apply ltb_true; lra).
  rewrite Hgt. unfold select. apply Vec2_eq; cbn; lra.
Qed.

Lemma pulled_gravity : gravity pulled 0 = vec2f 1 0.
Proof.
  unfold gravity. rewrite pulled_targetDir. unfold hover, u.
  apply Vec2_eq; cbn; lra.
Qed.

(** With [repelStrength] zero no neighbour pushes. *)
Lemma repulsion_step_no_strength (B : Bindings) (index : nat)
      (acc : Vec2) (step : Z) :
  Kernel.repelStrength (Kernel.uniforms B) = 0 ->
  repulsion_step B index acc step = acc.
Proof.
  intros Hzero. unfold repulsion_step, repulsionStrength, u.
  rewrite Hzero. cbv zeta. unfold select.
  destruct (Num.ltb _ _); [ | reflexivity].
  apply Vec2_eq; cbn [vx vy add mul]; ring.
Qed.

Lemma pulled_repulsion : repulsionForce pulled 0 = vec2f 0 0.
Proof.
  unfold repulsionForce, repulsion_steps. cbn [fold_left].
  rewrite !repulsion_step_no_strength by reflexivity. reflexivity.
Qed.

(** The forces on the particle of [pulled]: the spring pulls with 32, the
    gravity with 1, everything else vanishes. *)
Example pulled_forces :
  springForce pulled 0 = vec2f 32 0 /\
  dampingForce pulled 0 = vec2f 0 0 /\
  repulsionForce pulled 0 = vec2f 0 0 /\
  restForce pulled 0 = vec2f 0 0 /\
  wiggleForce pulled 0 = vec2f 0 0 /\
  gravity pulled 0 = vec2f 1 0 /\
  five_component_sum pulled 0 = vec2f 32 0 /\
  totalForce pulled 0 = vec2f 33 0.
Proof.
  assert (Hs : springForce pulled 0 = vec2f 32 0).
  { unfold springForce. rewrite pulled_targetDir, pulled_targetDist.
    unfold springStrength, mix, hover, u. apply Vec2_eq; cbn; lra. }
  assert (Hd : dampingForce pulled 0 = vec2f 0 0).
  { unfold dampingForce, vel, particle. apply Vec2_eq; cbn; lra. }
  assert (Hr : restForce pulled 0 = vec2f 0 0).
  { unfold restForce, rest, pos, particle, hover, u.
    apply Vec2_eq; cbn; lra. }
  assert (Hw : wiggleForce pulled 0 = vec2f 0 0).
  { unfold wiggleForce, hover, u. apply Vec2_eq; cbn; ring. }
  assert (Hfive : five_component_sum pulled 0 = vec2f 32 0).
  { unfold five_component_sum. rewrite Hs, Hd, Hr, Hw, pulled_repulsion.
    apply Vec2_eq; cbn; lra. }
  repeat split; try assumption.
  - apply pulled_repulsion.
  - apply pulled_gravity.
  - rewrite totalForce_five_plus_gravity, Hfive, pulled_gravity.
    apply Vec2_eq; cbn; lra.
Qed.

(** C1, as stated, fails: for the particle of [pulled] the kernel's total
    force is not the sum of the five named components, because the kernel
    also adds [gravity]. *)
Lemma C1_five_components_counterexample :
  totalForce pulled 0 <> five_component_sum pulled 0.
Proof.
  rewrite totalForce_five_plus_gravity, pulled_gravity.
  intros Heq. apply (f_equal vx) in Heq. rewrite vx_add in Heq.
  cbn [vx] in Heq. lra.
Qed.

(** C1, amended.  For every particle index and every state of the bindings,
    the force the kernel accumulates is the sum of six components and no
    other term: the relaxation toward the rest point, the neighbour
    repulsion, the constant-magnitude pull [gravity] along the direction to
    the wiggle-offset target (of size [gravityStrength * hoverStrength]),
    the spring toward that target, the velocity damping and the periodic
    wiggle; it exceeds the five-component sum by exactly [gravity]; and it
    is this sum, times [deltaTime], that the kernel adds to the damped
    velocity. *)
Theorem C1_total_force_six_components (B : Bindings) (index : nat) :
  let unif := Kernel.uniforms B in
  let h := Kernel.hoverStrength unif in
  let dir := targetDir B index in
  let force :=
    add (mul (sub (rest B index) (pos B index)) (6.0 * (1.0 - h)))
      (add (repulsionForce B index)
        (add (mul dir (Kernel.gravityStrength unif * h))
          (add (mul dir (targetDist B index * mix 18.0 32.0 h * h))
            (add (mul (vel B index) (- mix 12.0 3.0 h))
                 (mul (vec2f
                         (sin (Kernel.time unif * 5.5 + INR index * 0.23))
                         (cos (Kernel.time unif * 5.2 + INR index * 0.29)))
                      (Kernel.wiggleForceScale unif * h)))))) in
  totalForce B index = force /\
  totalForce B index =
    add (five_component_sum B index)
        (mul dir (Kernel.gravityStrength unif * h)) /\
  vx (totalForce B index) =
    vx (springForce B index) + vx (dampingForce B index) +
    vx (repulsionForce B index) + vx (restForce B index) +
    vx (wiggleForce B index) + vx (gravity B index) /\
  vy (totalForce B index) =
    vy (springForce B index) + vy (dampingForce B index) +
    vy (repulsionForce B index) + vy (restForce B index) +
    vy (wiggleForce B index) + vy (gravity B index) /\
  velocity_integrated B index =
    add (mul (vel B index) (mix 0.8 0.95 h))
        (mul force (Kernel.deltaTime unif)).
Proof.
  cbn zeta. repeat split.
  - apply totalForce_five_plus_gravity.
  - rewrite totalForce_five_plus_gravity. unfold five_component_sum.
    rewrite !vx_add. ring.
  - rewrite totalForce_five_plus_gravity. unfold five_component_sum.
    rewrite !vy_add. ring.
Qed.

(** ** The speed limit of the kernel *)

Lemma maxSpeed_bounds (B : Bindings) (index : nat) :
  0 <= Kernel.hoverStrength (Kernel.uniforms B) <= 1 ->
  0.8 <= maxSpeed B <= 3.2.
Proof.
  intros Hh. unfold maxSpeed, hover, u. apply mix_bounds; [lra | exact Hh].
Qed.

Lemma velocity_limited_bound (B : Bindings) (index : nat) :
  0 <= maxSpeed B ->
  Vec.length (velocity_limited B index) <= maxSpeed B.
Proof.
  intros Hmax. unfold velocity_limited, select.
  destruct (Num.gtb (speed B index) (maxSpeed B)) eqn:Hcmp.
  - apply ltb_true in Hcmp. rewrite length_mul. fold (speed B index).
    assert (Hs : 0 < speed B index) by lra.
    assert (Hq : 0 <= maxSpeed B / speed B index).
    { unfold Rdiv. apply Rmult_le_pos; [exact Hmax | ].
      left. apply Rinv_0_lt_compat. exact Hs. }
    rewrite (Rabs_pos_eq _ Hq). right. field. lra.
  - apply ltb_false in Hcmp. exact Hcmp.
Qed.

(** C9.  Whatever the bindings hold, when [hoverStrength] lies in [[0, 1]]
    the velocity one simulation step stores has Euclidean norm at most
    [mix(0.8, 3.2, hoverStrength)], hence at most 3.2; a velocity faster
    than that after integration is rescaled onto the bound, and the
    position is advanced with the limited velocity. *)
Theorem C9_speed_limit (B : Bindings) (index : nat) :
  0 <= Kernel.hoverStrength (Kernel.uniforms B) <= 1 ->
  let limit := mix 0.8 3.2 (Kernel.hoverStrength (Kernel.uniforms B)) in
  let out := simulate B index in
  Vec.length (velocity out) <= limit /\
  limit <= 3.2 /\
  (limit < Vec.length (velocity_integrated B index) ->
   velocity out =
     mul (velocity_integrated B index)
         (limit / Vec.length (velocity_integrated B index)) /\
   Vec.length (velocity out) = limit) /\
  (Vec.length (velocity_integrated B index) <= limit ->
   velocity out = velocity_integrated B index) /\
  position out =
    add (position (nth index (Kernel.particlesIn B) zeroParticle))
        (mul (velocity out) (Kernel.deltaTime (Kernel.uniforms B))).
Proof.
  intros Hh limit out.
  pose proof (maxSpeed_bounds B index Hh) as Hmax.
  change limit with (maxSpeed B).
  change (velocity out) with (velocity_limited B index).
  split; [apply velocity_limited_bound; lra | ].
  split; [lra | ].
  split; [ | split].
  - intros Hfast. fold (speed B index) in *.
    assert (Hsel : velocity_limited B index =
                   mul (velocity_integrated B index)
                       (maxSpeed B / speed B index)).
    { unfold velocity_limited, select.
      apply ltb_true in Hfast. unfold Num.gtb. rewrite Hfast.
      reflexivity. }
    split; [exact Hsel | ].
    rewrite Hsel, length_mul. fold (speed B index).
    rewrite Rabs_pos_eq.
    + field. lra.
    + unfold Rdiv. apply Rmult_le_pos; [lra | ].
      left. apply Rinv_0_lt_compat. lra.
  - intros Hslow. fold (speed B index) in *.
    unfold velocity_limited, select, Num.gtb.
    apply ltb_false in Hslow. rewrite Hslow. reflexivity.
  - reflexivity.
Qed.

Lemma C9_speed_limit_witness :
  0 <= Kernel.hoverStrength (Kernel.uniforms pulled) <= 1 /\
  Vec.length (velocity (simulate pulled 0)) <= 3.2.
Proof.
  assert (Hh : 0 <= Kernel.hoverStrength (Kernel.uniforms pulled) <= 1)
    by (cbn; lra).
  split; [exact Hh | ].
  pose proof (C9_speed_limit pulled 0 Hh) as [Hle [Hlim _]].
  lra.
Defined.

(** ** Buffers keep their size *)

Lemma createBuffer_length {A : Type} (z : A) (n : nat) :
  List.length (createBuffer z n) = n.
Proof. apply repeat_length. Qed.

Lemma write_length {A : Type} (buffer data : list A) :
  List.length (write buffer data) = List.length buffer.
Proof.
  unfold write. rewrite length_app, length_firstn, length_skipn. lia.
Qed.

(** Writing as many elements as the buffer holds replaces its contents. *)
Lemma write_full {A : Type} (buffer data : list A) :
  List.length data = List.length buffer -> write buffer data = data.
Proof.
  intros Hlen. unfold write. rewrite <- Hlen, firstn_all.
  rewrite skipn_all2 by lia. apply app_nil_r.
Qed.

Lemma store_length {A : Type} (buffer : list A) (i : nat) (v : A) :
  List.length (store buffer i v) = List.length buffer.
Proof.
  revert i. induction buffer as [|a buffer IH]; intros [|i]; cbn;
    try reflexivity.
  rewrite IH. reflexivity.
Qed.

Lemma dispatchThreads_length (n : nat) (B : Bindings)
      (out : list Particle) :
  List.length (dispatchThreads n B out) = List.length out.
Proof.
  unfold dispatchThreads. generalize (seq 0 n) as threads.
  intros threads. revert out.
  induction threads as [|i threads IH]; intros out; cbn [fold_left].
  - reflexivity.
  - rewrite IH. apply store_length.
Qed.

Lemma logo_points_length (count : nat) (positions : list Vec2)
      (s : Rng.state) (points : list Vec2) :
  List.length (fst (logo_points count positions s points)) =
  (List.length points + count)%nat.
Proof.
  revert s points. induction count as [|count IH]; intros s points;
    cbn [logo_points].
  - cbn [fst]. lia.
  - destruct (logo_point positions s) as [p s']. rewrite IH.
    rewrite length_app. cbn [List.length]. lia.
Qed.

Lemma rest_positions_length (maxOffset : R) (mass : list Vec2)
      (s : Rng.state) :
  List.length (fst (rest_positions maxOffset mass s)) = List.length mass.
Proof.
  revert s. induction mass as [|t mass IH]; intros s; cbn [rest_positions].
  - reflexivity.
  - destruct (Rng.next s) as [r0 s0]. destruct (Rng.next s0) as [r1 s1].
    specialize (IH s1).
    destruct (rest_positions maxOffset mass s1) as [rests s2].
    cbn [fst List.length] in *. rewrite IH. reflexivity.
Qed.

(** What [initialize] returns when it succeeds. *)
Lemma initialize_success (env : Browser) (c : Cache) (opts : Options)
      (now0 : R) (s : State) (c' : Cache) :
  initialize env c opts now0 = (inr s, c') ->
  tgpu_init env = true /\ webgpu_context env = true /\
  exists positions : list Vec2,
    loadLogoPixelPositions (logo env) c (edgeWeight opts)
      = (inr positions, c') /\
    s = populate opts now0
          (fst (logo_points (particleCount opts) positions
                            (Rng.makeRng (seed opts)) []))
          (snd (logo_points (particleCount opts) positions
                            (Rng.makeRng (seed opts)) [])).
Proof.
  unfold initialize, generateLogoPoints.
  destruct (tgpu_init env); cbn [negb]; [ | discriminate].
  destruct (webgpu_context env); cbn [negb]; [ | discriminate].
  destruct (loadLogoPixelPositions (logo env) c (edgeWeight opts))
    as [[e | positions] c1]; [discriminate | ].
  destruct (logo_points (particleCount opts) positions
                        (Rng.makeRng (seed opts)) []) as [pts rng] eqn:Hpts.
  intros Heq. inversion Heq; subst.
  repeat split. exists positions. rewrite Hpts. split; reflexivity.
Qed.

(** The data [populate] writes, and that it fills each buffer exactly. *)
Lemma populate_buffers (opts : Options) (now0 : R)
      (logoPoints : list Vec2) (rng : Rng.state) :
  List.length logoPoints = particleCount opts ->
  let s := populate opts now0 logoPoints rng in
  let rests := fst (rest_positions (scatter opts) logoPoints rng) in
  massBuffer s = logoPoints /\
  restBuffer s = rests /\
  particleBuffers s = (initialParticles rests, initialParticles rests) /\
  logoMassPoints_length s = particleCount opts /\
  options s = opts.
Proof.
  intros Hlen. cbv zeta. unfold populate.
  assert (Hall : firstn (particleCount opts) logoPoints = logoPoints)
    by (rewrite <- Hlen; apply firstn_all).
  cbv zeta. rewrite Hall.
  pose proof (rest_positions_length (scatter opts) logoPoints rng) as Hr.
  destruct (rest_positions (scatter opts) logoPoints rng) as [rests rng'].
  cbn [fst] in *.
  cbn [massBuffer restBuffer particleBuffers logoMassPoints_length options].
  assert (Hp : List.length (initialParticles rests) = particleCount opts).
  { unfold initialParticles. rewrite length_map. lia. }
  rewrite !write_full by (rewrite createBuffer_length; lia).
  repeat split. exact Hlen.
Qed.

(** ** Initialization: when it succeeds, and that the cache does not
       matter *)

Lemma computeLogoPixelPositions_usable (l : LogoEnv) (edgeWeight : R) :
  (exists positions, computeLogoPixelPositions l edgeWeight = inr positions)
  <-> logo_usable l = true.
Proof.
  unfold computeLogoPixelPositions, logo_usable.
  destruct (decoded l) as [b | ].
  - rewrite scan_fill, length_map.
    destruct (context2d l); cbn [negb andb].
    + destruct (List.length (fill_pixels b) =? 0)%nat; cbn [negb].
      * split; [intros [p Hp]; discriminate | discriminate].
      * split; [reflexivity | intros _; eexists; reflexivity].
    + split; [intros [p Hp]; discriminate | discriminate].
  - split; [intros [p Hp]; discriminate | discriminate].
Qed.

Lemma load_consistent (l : LogoEnv) (c : Cache) (edgeWeight : R) :
  cache_consistent l c ->
  fst (loadLogoPixelPositions l c edgeWeight)
    = computeLogoPixelPositions l edgeWeight /\
  cache_consistent l (snd (loadLogoPixelPositions l c edgeWeight)).
Proof.
  intros Hc. unfold loadLogoPixelPositions.
  destruct (cache_get c edgeWeight) as [cached | ] eqn:Hget; cbn [fst snd].
  - split; [apply Hc; exact Hget | exact Hc].
  - split; [reflexivity | ].
    intros k v. unfold cache_set. cbn [cache_get].
    destruct (Req_dec_T edgeWeight k) as [-> | Hne].
    + intros Heq. inversion Heq. reflexivity.
    + apply Hc.
Qed.


(** With a consistent cache, the outcome of [initialize] is a function of
    the browser, the options and the clock alone. *)
Lemma initialize_consistent (env : Browser) (c : Cache) (opts : Options)
      (now0 : R) :
  cache_consistent (logo env) c ->
  fst (initialize env c opts now0) =
  (if negb (tgpu_init env) then inl Rejected
   else if negb (webgpu_context env) then inl WebGPUNotSupported
   else
     match computeLogoPixelPositions (logo env) (edgeWeight opts) with
     | inl e => inl e
     | inr positions =>
         inr (populate opts now0
                (fst (logo_points (particleCount opts) positions
                                  (Rng.makeRng (seed opts)) []))
                (snd (logo_points (particleCount opts) positions
                                  (Rng.makeRng (seed opts)) [])))
     end)
  /\ cache_consistent (logo env) (snd (initialize env c opts now0)).
Proof.
  intros Hc. unfold initialize, generateLogoPoints.
  destruct (tgpu_init env); cbn [negb fst snd]; [ | split; trivial].
  destruct (webgpu_context env); cbn [negb fst snd]; [ | split; trivial].
  pose proof (load_consistent (logo env) c (edgeWeight opts) Hc)
    as [Hload Hc'].
  destruct (loadLogoPixelPositions (logo env) c (edgeWeight opts))
    as [[e | positions] c1]; cbn [fst snd] in *; rewrite <- Hload.
  - split; trivial.
  - destruct (logo_points (particleCount opts) positions
                          (Rng.makeRng (seed opts)) []) as [pts rng].
    split; trivial.
Qed.

Lemma sample_logo_usable : logo_usable logo_ok = true.
Proof. reflexivity. Qed.

Lemma sample_initialize :
  initialize browser_ok [] sample_options 0 = (inr sample_state, sample_cache).
Proof.
  unfold initialize, generateLogoPoints, loadLogoPixelPositions.
  cbn [browser_ok tgpu_init webgpu_context negb logo cache_get].
  unfold computeLogoPixelPositions.
  cbn [logo_ok decoded context2d negb].
  rewrite scan_fill, length_map.
  change (List.length (fill_pixels one_pixel) =? 0)%nat with false.
  cbv iota. fold sample_positions.
  unfold sample_state, sample_cache.
  destruct (logo_points (particleCount sample_options) sample_positions
                        (Rng.makeRng (seed sample_options)) []) as [pts rng].
  reflexivity.
Qed.

Lemma createParticleSystem_success (env : Browser) (c : Cache)
      (opts : Options) (now0 : R) (first : Tick)
      (s : State) (f : Frame) (c' : Cache) :
  createParticleSystem env c opts now0 first = (inr (s, f), c') ->
  exists s0 : State,
    initialize env c opts now0 = (inr s0, c') /\
    animate (now first) (canvas_width first) (canvas_height first) s0
      = (s, f).
Proof.
  unfold createParticleSystem.
  destruct (initialize env c opts now0) as [[e | s0] c1]; [discriminate | ].
  intros Heq. inversion Heq as [[Hsf Hc]]. exists s0. split; reflexivity.
Qed.

Lemma sample_created :
  createParticleSystem browser_ok [] sample_options 0 sample_tick =
  (inr (animate (now sample_tick) (canvas_width sample_tick)
                (canvas_height sample_tick) sample_state),
   sample_cache).
Proof.
  unfold createParticleSystem. rewrite sample_initialize. reflexivity.
Qed.

(** ** One frame *)

(** [animate] and [setHovering] leave the mass points, the rest points, the
    options and the particle count alone. *)
Lemma animate_static (now w h : R) (s : State) :
  massBuffer (fst (animate now w h s)) = massBuffer s /\
  restBuffer (fst (animate now w h s)) = restBuffer s /\
  options (fst (animate now w h s)) = options s /\
  logoMassPoints_length (fst (animate now w h s)) = logoMassPoints_length s.
Proof. repeat split. Qed.

Lemma step_static (s : State) (op : Op) :
  massBuffer (fst (step s op)) = massBuffer s /\
  restBuffer (fst (step s op)) = restBuffer s /\
  options (fst (step s op)) = options s /\
  logoMassPoints_length (fst (step s op)) = logoMassPoints_length s.
Proof. destruct op; repeat split. Qed.

Lemma run_cons (s : State) (op : Op) (ops : list Op) :
  run s (op :: ops) =
  (fst (run (fst (step s op)) ops),
   snd (step s op) ++ snd (run (fst (step s op)) ops)).
Proof.
  cbn [run]. destruct (step s op) as [s1 fs1]. cbn [fst snd].
  destruct (run s1 ops) as [s2 fs2]. reflexivity.
Qed.

Lemma run_static (s : State) (ops : list Op) :
  massBuffer (fst (run s ops)) = massBuffer s /\
  restBuffer (fst (run s ops)) = restBuffer s /\
  options (fst (run s ops)) = options s /\
  logoMassPoints_length (fst (run s ops)) = logoMassPoints_length s.
Proof.
  revert s. induction ops as [|op ops IH]; intros s.
  - repeat split.
  - rewrite run_cons. cbn [fst].
    destruct (IH (fst (step s op))) as (Hm & Hr & Ho & Hl).
    destruct (step_static s op) as (Hm1 & Hr1 & Ho1 & Hl1).
    repeat split; congruence.
Qed.

(** The buffers a frame touches. *)
Lemma animate_buffers (now w h : R) (s : State) :
  let s' := fst (animate now w h s) in
  let f := snd (animate now w h s) in
  even s' = negb (even s) /\
  computeIn f = (if even s' then 0 else 1)%nat /\
  computeOut f = (1 - computeIn f)%nat /\
  rendered f = computeOut f /\
  particleBuffer (particleBuffers s') (computeIn f) =
    particleBuffer (particleBuffers s) (computeIn f) /\
  particleBuffer (particleBuffers s') (computeOut f) =
    dispatchThreads (particleCount (options s))
      {| Kernel.uniforms := uniforms s';
         Kernel.particlesIn :=
           particleBuffer (particleBuffers s) (computeIn f);
         Kernel.massPoints := massBuffer s;
         Kernel.restTargets := restBuffer s |}
      (particleBuffer (particleBuffers s) (computeOut f)).
Proof.
  cbv zeta. unfold animate. cbv zeta.
  destruct (even s); cbn; repeat split.
Qed.

Lemma animate_sized (n : nat) (now w h : R) (s : State) :
  sized n s -> sized n (fst (animate now w h s)).
Proof.
  intros (H0 & H1 & Hm & Hr & Hl & Hn).
  unfold sized, animate. cbv zeta.
  destruct (even s); cbn; rewrite dispatchThreads_length; repeat split;
    assumption.
Qed.

Lemma step_sized (n : nat) (s : State) (op : Op) :
  sized n s -> sized n (fst (step s op)).
Proof.
  intros Hs. destruct op as [tick | h].
  - cbn [step].
    pose proof (animate_sized n (now tick) (canvas_width tick)
                              (canvas_height tick) s Hs) as Ha.
    destruct (animate (now tick) (canvas_width tick) (canvas_height tick) s).
    exact Ha.
  - exact Hs.
Qed.

Lemma run_sized (n : nat) (s : State) (ops : list Op) :
  sized n s -> sized n (fst (run s ops)).
Proof.
  revert s. induction ops as [|op ops IH]; intros s Hs.
  - exact Hs.
  - rewrite run_cons. cbn [fst]. apply IH. apply step_sized. exact Hs.
Qed.

Lemma initialize_sized (env : Browser) (c : Cache) (opts : Options)
      (now0 : R) (s : State) (c' : Cache) :
  initialize env c opts now0 = (inr s, c') ->
  sized (particleCount opts) s.
Proof.
  intros Hinit.
  apply initialize_success in Hinit as (_ & _ & positions & _ & ->).
  set (pts := logo_points _ _ _ _).
  assert (Hlen : List.length (fst pts) = particleCount opts)
    by (unfold pts; rewrite logo_points_length; reflexivity).
  pose proof (populate_buffers opts now0 (fst pts) (snd pts) Hlen)
    as (Hm & Hr & Hp & Hl & Ho).
  pose proof (rest_positions_length (scatter opts) (fst pts) (snd pts))
    as Hrl.
  unfold sized. rewrite Hm, Hr, Hp, Hl, Ho. cbn [fst snd].
  unfold initialParticles. rewrite length_map, Hrl, Hlen.
  repeat split.
Qed.

Lemma sample_system :
  createParticleSystem browser_ok [] sample_options 0 sample_tick =
  (inr (sample_running, sample_frame), sample_cache).
Proof.
  rewrite sample_created. unfold sample_running, sample_frame.
  rewrite <- surjective_pairing. reflexivity.
Qed.

(** ** The static buffers *)

(** C4.  The mass-point and rest-point buffers are written at creation
    only: with [s0] the state [createParticleSystem] has built when it
    declares its mutable variables, the system it returns (after the first
    frame) and every state reached from it by [animate] steps and
    [setHovering] calls hold the same mass points and the same rest points
    as [s0]; and no single [animate] or [setHovering], from any state,
    changes either buffer. *)
Theorem C4_mass_and_rest_static
        (env : Browser) (c : Cache) (opts : Options) (now0 : R)
        (first : Tick) (s : State) (f : Frame) (c' : Cache) :
  createParticleSystem env c opts now0 first = (inr (s, f), c') ->
  (exists s0 : State,
      initialize env c opts now0 = (inr s0, c') /\
      forall ops : list Op,
        massBuffer (fst (run s ops)) = massBuffer s0 /\
        restBuffer (fst (run s ops)) = restBuffer s0) /\
  (forall (st : State) (tick : Tick),
      massBuffer (fst (animate (now tick) (canvas_width tick)
                               (canvas_height tick) st)) = massBuffer st /\
      restBuffer (fst (animate (now tick) (canvas_width tick)
                               (canvas_height tick) st)) = restBuffer st) /\
  (forall (st : State) (h : bool),
      massBuffer (setHovering h st) = massBuffer st /\
      restBuffer (setHovering h st) = restBuffer st).
Proof.
  intros Hcreate.
  apply createParticleSystem_success in Hcreate as (s0 & Hinit & Hfirst).
  split; [ | split].
  - exists s0. split; [exact Hinit | ].
    intros ops. destruct (run_static s ops) as (Hm & Hr & _).
    pose proof (animate_static (now first) (canvas_width first)
                               (canvas_height first) s0) as (Hm0 & Hr0 & _).
    rewrite Hfirst in Hm0, Hr0. cbn [fst] in Hm0, Hr0.
    split; congruence.
  - intros st tick. split; reflexivity.
  - intros st h. split; reflexivity.
Qed.

Lemma C4_mass_and_rest_static_witness :
  createParticleSystem browser_ok [] sample_options 0 sample_tick =
    (inr (sample_running, sample_frame), sample_cache) /\
  massBuffer (fst (run sample_running sample_ops)) = massBuffer sample_state /\
  restBuffer (fst (run sample_running sample_ops)) = restBuffer sample_state.
Proof.
  split; [exact sample_system | ].
  destruct (C4_mass_and_rest_static browser_ok [] sample_options 0
              sample_tick sample_running sample_frame sample_cache
              sample_system) as [[s0 [Hinit Hrun]] _].
  rewrite sample_initialize in Hinit. inversion Hinit; subst s0.
  exact (Hrun sample_ops).
Defined.

(** ** The buffer sizes *)

(** C5.  With particle count [n], [generateLogoPoints] returns exactly [n]
    points, the rest positions are as many as the mass points they are
    mapped from, and in the system [createParticleSystem] returns both
    particle buffers, the mass-point buffer and the rest-point buffer hold
    exactly [n] elements; every [animate] step and every [setHovering]
    call keeps it so. *)
Theorem C5_buffers_hold_particleCount
        (env : Browser) (c : Cache) (opts : Options) (now0 : R)
        (first : Tick) (s : State) (f : Frame) (c' : Cache) :
  createParticleSystem env c opts now0 first = (inr (s, f), c') ->
  let n := particleCount opts in
  (forall (l : LogoEnv) (c0 c1 : Cache) (edge : R) (rng rng' : Rng.state)
          (points : list Vec2),
      generateLogoPoints l c0 n edge rng = (inr (points, rng'), c1) ->
      List.length points = n) /\
  (forall (mass : list Vec2) (rng : Rng.state),
      List.length (fst (rest_positions (scatter opts) mass rng)) =
      List.length mass) /\
  (forall ops : list Op,
      let s' := fst (run s ops) in
      List.length (fst (particleBuffers s')) = n /\
      List.length (snd (particleBuffers s')) = n /\
      List.length (massBuffer s') = n /\
      List.length (restBuffer s') = n /\
      particleCount (options s') = n).
Proof.
  intros Hcreate n.
  apply createParticleSystem_success in Hcreate as (s0 & Hinit & Hfirst).
  split; [ | split].
  - intros l c0 c1 edge rng rng' points. unfold generateLogoPoints.
    destruct (loadLogoPixelPositions l c0 edge) as [[e | positions] c2];
      [discriminate | ].
    intros Heq. inversion Heq as [[Hpts Hc]].
    pose proof (logo_points_length n positions rng []) as Hlen.
    rewrite Hpts in Hlen. exact Hlen.
  - intros mass rng. apply rest_positions_length.
  - intros ops.
    assert (Hs : sized n s).
    { pose proof (animate_sized n (now first) (canvas_width first)
                                (canvas_height first) s0
                                (initialize_sized _ _ _ _ _ _ Hinit)) as Ha.
      rewrite Hfirst in Ha. exact Ha. }
    destruct (run_sized n s ops Hs) as (H0 & H1 & Hm & Hr & _ & Hn).
    cbv zeta. repeat split; assumption.
Qed.

Lemma C5_buffers_hold_particleCount_witness :
  createParticleSystem browser_ok [] sample_options 0 sample_tick =
    (inr (sample_running, sample_frame), sample_cache) /\
  List.length (fst (particleBuffers (fst (run sample_running sample_ops))))
    = 2%nat /\
  List.length (massBuffer (fst (run sample_running sample_ops))) = 2%nat.
Proof.
  split; [exact sample_system | ].
  destruct (C5_buffers_hold_particleCount browser_ok [] sample_options 0
              sample_tick sample_running sample_frame sample_cache
              sample_system) as (_ & _ & Hrun).
  destruct (Hrun sample_ops) as (H0 & _ & Hm & _).
  split; [exact H0 | exact Hm].
Defined.

(** ** The ping-pong of the particle buffers *)

(** C6.  Every [animate] step flips the parity flag; its compute pass reads
    the particle buffer the new parity selects (buffer 0 when the flag is
    now set, buffer 1 otherwise) and writes the other one, which the
    render pass of the same frame then draws; the buffer read is left as
    it was and the buffer written receives the result of the dispatch; the
    next frame reads the buffer this frame wrote and writes the buffer
    this frame read; [setHovering] does not touch the flag. *)
Theorem C6_double_buffer_parity (s : State) (tick next : Tick) (h : bool) :
  let s1 := fst (animate (now tick) (canvas_width tick)
                         (canvas_height tick) s) in
  let f1 := snd (animate (now tick) (canvas_width tick)
                         (canvas_height tick) s) in
  let f2 := snd (animate (now next) (canvas_width next)
                         (canvas_height next) (setHovering h s1)) in
  even s1 = negb (even s) /\
  computeIn f1 = (if even s1 then 0 else 1)%nat /\
  computeOut f1 = (1 - computeIn f1)%nat /\
  computeIn f1 <> computeOut f1 /\
  rendered f1 = computeOut f1 /\
  particleBuffer (particleBuffers s1) (computeIn f1) =
    particleBuffer (particleBuffers s) (computeIn f1) /\
  particleBuffer (particleBuffers s1) (computeOut f1) =
    dispatchThreads (particleCount (options s))
      {| Kernel.uniforms := uniforms s1;
         Kernel.particlesIn :=
           particleBuffer (particleBuffers s) (computeIn f1);
         Kernel.massPoints := massBuffer s;
         Kernel.restTargets := restBuffer s |}
      (particleBuffer (particleBuffers s) (computeOut f1)) /\
  even (setHovering h s1) = even s1 /\
  computeIn f2 = computeOut f1 /\
  computeOut f2 = computeIn f1.
Proof.
  cbv zeta.
  pose proof (animate_buffers (now tick) (canvas_width tick)
                              (canvas_height tick) s)
    as (He & Hin & Hout & Hren & Hread & Hwrite).
  cbv zeta in *.
  repeat (split; [first [assumption | reflexivity] | ]).
  split; [rewrite Hout, Hin; destruct (even _); cbn; lia | ].
  repeat (split; [first [assumption | reflexivity] | ]).
  unfold animate. cbv zeta. cbn [snd fst computeIn computeOut even
    setHovering].
  destruct (even s); cbn; split; reflexivity.
Qed.

(** ** The scatter of the rest points *)

Lemma polar_distance (t r : Vec2) (angle radius : R) :
  polar_offset t r angle radius -> Vec.length (sub r t) = Rabs radius.
Proof.
  intros [Hx Hy]. unfold Vec.length, dot, sub. cbn [vx vy].
  rewrite Hx, Hy.
  replace ((vx t + cos angle * radius - vx t) *
           (vx t + cos angle * radius - vx t) +
           (vy t + sin angle * radius - vy t) *
           (vy t + sin angle * radius - vy t))
    with ((Rsqr (sin angle) + Rsqr (cos angle)) * Rsqr radius)
    by (unfold Rsqr; ring).
  rewrite sin2_cos2, Rmult_1_l. apply sqrt_Rsqr_abs.
Qed.

(** Each rest position is its mass point moved by a polar offset whose
    radius is a draw from [[0, 1)] times [maxOffset]. *)
Lemma rest_positions_offsets (maxOffset : R) (mass : list Vec2)
      (s : Rng.state) :
  Forall2
    (fun t r =>
       exists angle radius draw : R,
         0 <= draw < 1 /\ radius = draw * maxOffset /\
         polar_offset t r angle radius)
    mass (fst (rest_positions maxOffset mass s)).
Proof.
  revert s. induction mass as [|t mass IH]; intros s; cbn [rest_positions].
  - constructor.
  - pose proof (next_range s) as Hr0.
    destruct (Rng.next s) as [r0 s0]. cbn [fst] in Hr0.
    pose proof (next_range s0) as Hr1.
    destruct (Rng.next s0) as [r1 s1]. cbn [fst] in Hr1.
    specialize (IH s1).
    destruct (rest_positions maxOffset mass s1) as [rests s2].
    cbn [fst] in *. constructor; [ | exact IH].
    exists (r0 * PI * 2), (r1 * maxOffset), r1.
    split; [exact Hr1 | ]. split; [reflexivity | ].
    split; reflexivity.
Qed.

Lemma Forall2_nth_error_both {A B : Type} (P : A -> B -> Prop)
      (l : list A) (l' : list B) :
  Forall2 P l l' ->
  forall (i : nat) (a : A) (b : B),
    nth_error l i = Some a -> nth_error l' i = Some b -> P a b.
Proof.
  induction 1 as [|a0 b0 l l' Hab Hrest IH]; intros [|i] a b Ha Hb;
    cbn in Ha, Hb; try discriminate.
  - inversion Ha; inversion Hb; subst. exact Hab.
  - exact (IH i a b Ha Hb).
Qed.

(** ** Errors *)

Lemma computeLogoPixelPositions_error (l : LogoEnv) (edgeWeight : R)
      (e : Error) :
  computeLogoPixelPositions l edgeWeight = inl e ->
  logo_usable l = false /\
  (e = Rejected \/ e = LogoMaskUnavailable \/ e = LogoMaskEmpty).
Proof.
  intros He. split.
  - destruct (logo_usable l) eqn:Hu; [ | reflexivity].
    apply (computeLogoPixelPositions_usable l edgeWeight) in Hu.
    destruct Hu as [positions Hp]. congruence.
  - unfold computeLogoPixelPositions in He.
    destruct (decoded l) as [b | ]; [ | inversion He; tauto].
    destruct (context2d l); cbn [negb] in He; [ | inversion He; tauto].
    destruct (List.length (fillPositions (scan b)) =? 0)%nat;
      [inversion He; tauto | discriminate].
Qed.

Lemma createParticleSystem_fst (env : Browser) (c : Cache) (opts : Options)
      (now0 : R) (first : Tick) :
  fst (createParticleSystem env c opts now0 first) =
  match fst (initialize env c opts now0) with
  | inl e => inl e
  | inr s0 =>
      inr (animate (now first) (canvas_width first) (canvas_height first) s0)
  end /\
  snd (createParticleSystem env c opts now0 first) =
  snd (initialize env c opts now0).
Proof.
  unfold createParticleSystem.
  destruct (initialize env c opts now0) as [[e | s0] c1]; split; reflexivity.
Qed.

(** With a consistent cache, [createParticleSystem] fails exactly when
    WebGPU is unavailable or the logo is unusable. *)
Lemma createParticleSystem_fails_iff (env : Browser) (c : Cache)
      (opts : Options) (now0 : R) (first : Tick) :
  cache_consistent (logo env) c ->
  (exists e, fst (createParticleSystem env c opts now0 first) = inl e) <->
  webgpu_available env = false \/ logo_usable (logo env) = false.
Proof.
  intros Hc.
  rewrite (proj1 (createParticleSystem_fst env c opts now0 first)).
  rewrite (proj1 (initialize_consistent env c opts now0 Hc)).
  unfold webgpu_available.
  destruct (tgpu_init env); cbn [negb andb];
    [ | split; [intros _; left; reflexivity | intros _; eexists; reflexivity]].
  destruct (webgpu_context env); cbn [negb];
    [ | split; [intros _; left; reflexivity | intros _; eexists; reflexivity]].
  destruct (computeLogoPixelPositions (logo env) (edgeWeight opts))
    as [e | positions] eqn:Hcomp.
  - apply computeLogoPixelPositions_error in Hcomp as [Hu _].
    split; [intros _; right; exact Hu | intros _; eexists; reflexivity].
  - assert (Hu : logo_usable (logo env) = true).
    { apply (computeLogoPixelPositions_usable _ (edgeWeight opts)).
      exists positions. exact Hcomp. }
    split; [intros [e He]; discriminate | ].
    intros [Hw | Hl]; [discriminate | congruence].
Qed.

Lemma createParticleSystem_error_kind (env : Browser) (c : Cache)
      (opts : Options) (now0 : R) (first : Tick) (e : Error) :
  cache_consistent (logo env) c ->
  fst (createParticleSystem env c opts now0 first) = inl e ->
  (webgpu_available env = false /\
   (e = Rejected \/ e = WebGPUNotSupported)) \/
  (webgpu_available env = true /\ logo_usable (logo env) = false /\
   (e = Rejected \/ e = LogoMaskUnavailable \/ e = LogoMaskEmpty)).
Proof.
  intros Hc.
  rewrite (proj1 (createParticleSystem_fst env c opts now0 first)).
  rewrite (proj1 (initialize_consistent env c opts now0 Hc)).
  unfold webgpu_available.
  destruct (tgpu_init env); cbn [negb andb];
    [ | intros He; inversion He; left; tauto].
  destruct (webgpu_context env); cbn [negb];
    [ | intros He; inversion He; left; tauto].
  destruct (computeLogoPixelPositions (logo env) (edgeWeight opts))
    as [e0 | positions] eqn:Hcomp; [ | discriminate].
  intros He. inversion He; subst e0.
  apply computeLogoPixelPositions_error in Hcomp as [Hu Hkind].
  right. split; [reflexivity | split; assumption].
Qed.

Lemma run_frames (s : State) (ops : list Op) :
  List.length (snd (run s ops)) = List.length (filter is_animate ops).
Proof.
  revert s. induction ops as [|op ops IH]; intros s.
  - reflexivity.
  - rewrite run_cons. cbn [snd]. rewrite length_app, IH.
    destruct op as [tick | h]; cbn [filter is_animate step].
    + destruct (animate (now tick) (canvas_width tick)
                        (canvas_height tick) s).
      reflexivity.
    + reflexivity.
Qed.

(** ** Determinism of initialization *)

Lemma populate_flags (opts : Options) (now0 : R)
      (logoPoints : list Vec2) (rng : Rng.state) :
  even (populate opts now0 logoPoints rng) = false /\
  isHovering (populate opts now0 logoPoints rng) = false /\
  hoverTransition (populate opts now0 logoPoints rng) = 0 /\
  time (populate opts now0 logoPoints rng) = 0 /\
  lastTime (populate opts now0 logoPoints rng) = now0.
Proof.
  unfold populate. cbv zeta.
  destruct (rest_positions (scatter opts)
              (firstn (particleCount opts) logoPoints) rng).
  repeat split.
Qed.





(** ** Initialization in browsers that lack something *)

Example no_webgpu_context (opts : Options) (now0 : R) (first : Tick) :
  fst (createParticleSystem
         {| logo := logo_ok; navigator_gpu := true; tgpu_init := true;
            webgpu_context := false |} [] opts now0 first)
  = inl WebGPUNotSupported.
Proof. reflexivity. Qed.

Example no_canvas_2d (opts : Options) (now0 : R) (first : Tick) :
  fst (createParticleSystem
         {| logo := {| decoded := Some one_pixel; context2d := false |};
            navigator_gpu := true; tgpu_init := true;
            webgpu_context := true |} [] opts now0 first)
  = inl LogoMaskUnavailable.
Proof. reflexivity. Qed.

Example transparent_logo (opts : Options) (now0 : R) (first : Tick) :
  fst (createParticleSystem
         {| logo := {| decoded :=
                         Some {| bitmap_width := 1; bitmap_height := 1;
                                 data := [255; 255; 255; 0]%Z |};
                       context2d := true |};
            navigator_gpu := true; tgpu_init := true;
            webgpu_context := true |} [] opts now0 first)
  = inl LogoMaskEmpty.
Proof.
  unfold createParticleSystem, initialize, generateLogoPoints,
    loadLogoPixelPositions, computeLogoPixelPositions.
  cbn [tgpu_init webgpu_context logo decoded context2d negb cache_get].
  rewrite scan_fill, length_map. reflexivity.
Qed.

(** ** The speed limit in a running system *)

Lemma store_lookup_eq {A : Type} (buffer : list A) (i : nat) (v : A) :
  (i < List.length buffer)%nat -> nth_error (store buffer i v) i = Some v.
Proof.
  revert i. induction buffer as [|a buffer IH]; intros [|i] Hi;
    cbn in *; try lia; [reflexivity | apply IH; lia].
Qed.

Lemma store_lookup_ne {A : Type} (buffer : list A) (i j : nat) (v : A) :
  i <> j -> nth_error (store buffer i v) j = nth_error buffer j.
Proof.
  revert i j. induction buffer as [|a buffer IH]; intros [|i] [|j] Hne;
    cbn; try reflexivity; try contradiction.
  apply IH. lia.
Qed.

Lemma dispatch_untouched (B : Bindings) (threads : list nat)
      (out : list Particle) (i : nat) :
  ~ In i threads ->
  nth_error
    (fold_left (fun out index => store out index (simulate B index))
               threads out) i
  = nth_error out i.
Proof.
  revert out. induction threads as [|t threads IH]; intros out Hnot.
  - reflexivity.
  - cbn [fold_left]. rewrite IH by (intros Hin; apply Hnot; right; exact Hin).
    apply store_lookup_ne. intros ->. apply Hnot. left. reflexivity.
Qed.

Lemma dispatch_stored (B : Bindings) (threads : list nat)
      (out : list Particle) (i : nat) :
  In i threads -> (i < List.length out)%nat ->
  nth_error
    (fold_left (fun out index => store out index (simulate B index))
               threads out) i
  = Some (simulate B i).
Proof.
  revert out. induction threads as [|t threads IH]; intros out Hin Hlen.
  - contradiction.
  - cbn [fold_left].
    destruct (in_dec Nat.eq_dec i threads) as [Hlater | Hnot].
    + apply IH; [exact Hlater | rewrite store_length; exact Hlen].
    + rewrite dispatch_untouched by exact Hnot.
      destruct Hin as [-> | Hin]; [ | contradiction].
      apply store_lookup_eq. exact Hlen.
Qed.

(** After [dispatchThreads(n)] on a buffer of [n] particles, element [i] is
    what thread [i] computed. *)
Lemma dispatchThreads_lookup (n : nat) (B : Bindings)
      (out : list Particle) (i : nat) :
  (i < n)%nat -> List.length out = n ->
  nth_error (dispatchThreads n B out) i = Some (simulate B i).
Proof.
  intros Hi Hlen. unfold dispatchThreads. apply dispatch_stored.
  - apply in_seq. lia.
  - lia.
Qed.

(** With a clock that does not run backwards, the hover blend factor stays
    in [[0, 1]]. *)
Lemma hoverTransition_unit (now w h : R) (s : State) :
  lastTime s <= now ->
  0 <= hoverTransition s <= 1 ->
  0 <= hoverTransition (fst (animate now w h s)) <= 1.
Proof.
  intros Hclock Hh. unfold animate. cbv zeta. cbn [fst hoverTransition].
  set (dt := Num.min ((now - lastTime s) / 1000) 0.05).
  assert (Hdt : 0 <= dt <= 0.05).
  { unfold dt, Num.min. split.
    - apply Rmin_glb; lra.
    - apply Rmin_r. }
  destruct (isHovering s);
    destruct (Num.gtb _ (hoverTransition s)); nra.
Qed.

(** Every particle a frame writes obeys the speed limit. *)
Lemma frame_speed_limit (n : nat) (now w h : R) (s : State) :
  sized n s ->
  lastTime s <= now ->
  0 <= hoverTransition s <= 1 ->
  let s' := fst (animate now w h s) in
  let f := snd (animate now w h s) in
  forall (i : nat) (p : Particle),
    nth_error (particleBuffer (particleBuffers s') (computeOut f)) i = Some p ->
    Vec.length (velocity p) <= 3.2.
Proof.
  intros Hsized Hclock Hh s' f i p Hp.
  pose proof (hoverTransition_unit now w h s Hclock Hh) as Hh'.
  pose proof (animate_buffers now w h s) as (_ & _ & _ & _ & _ & Hout).
  cbv zeta in Hout. fold s' f in Hout. rewrite Hout in Hp.
  destruct Hsized as (H0 & H1 & _ & _ & _ & Hn).
  assert (Hlen : List.length
                   (particleBuffer (particleBuffers s) (computeOut f)) = n).
  { destruct (computeOut f); cbn [particleBuffer]; assumption. }
  assert (Hi : (i < n)%nat).
  { assert (Hsome : nth_error
                      (dispatchThreads (particleCount (options s))
                         {| Kernel.uniforms := uniforms s';
                            Kernel.particlesIn :=
                              particleBuffer (particleBuffers s)
                                             (computeIn f);
                            Kernel.massPoints := massBuffer s;
                            Kernel.restTargets := restBuffer s |}
                         (particleBuffer (particleBuffers s) (computeOut f)))
                      i <> None) by congruence.
    apply nth_error_Some in Hsome.
    rewrite dispatchThreads_length, Hlen in Hsome. exact Hsome. }
  rewrite Hn in Hp.
  rewrite (dispatchThreads_lookup n _ _ i Hi Hlen) in Hp.
  apply (f_equal (fun o => match o with Some q => q | None => p end)) in Hp.
  cbv beta iota in Hp. rewrite <- Hp. clear Hp.
  set (B := {| Kernel.uniforms := uniforms s';
               Kernel.particlesIn :=
                 particleBuffer (particleBuffers s) (computeIn f);
               Kernel.massPoints := massBuffer s;
               Kernel.restTargets := restBuffer s |}).
  assert (HB : 0 <= Kernel.hoverStrength (Kernel.uniforms B) <= 1)
    by exact Hh'.
  pose proof (maxSpeed_bounds B i HB) as Hmax.
  assert (Hlim : Vec.length (velocity_limited B i) <= maxSpeed B)
    by (apply velocity_limited_bound; lra).
  change (velocity (simulate B i)) with (velocity_limited B i).
  lra.
Qed.

(** * Further properties of the code *)

(** ** The generator *)

Lemma next_state (s : Rng.state) :
  snd (Rng.next s) = Rng.u32 (s + 0x6d2b79f5).
Proof. reflexivity. Qed.

(** X1.  Every call of the generator returns a number in [[0, 1)] that is a
    whole multiple of 1/4294967296, and leaves an unsigned 32-bit state,
    whatever integer the state was. *)
Theorem rng_draw_is_unit_fraction (s : Rng.state) :
  0 <= fst (Rng.next s) < 1 /\
  (exists k : Z,
      (0 <= k < 2 ^ 32)%Z /\ fst (Rng.next s) = IZR k / 4294967296) /\
  (0 <= snd (Rng.next s) < 2 ^ 32)%Z.
Proof.
  split; [apply next_range | ]. split.
  - exists (fst (Rng.next_u32 s)). split; [apply next_u32_range | ].
    unfold Rng.next. destruct (Rng.next_u32 s). reflexivity.
  - rewrite next_state. apply u32_range.
Qed.

Lemma state_after_closed (n : nat) (s : Rng.state) :
  state_after n s =
  match n with
  | O => s
  | S _ => Rng.u32 (s + Z.of_nat n * 0x6d2b79f5)
  end.
Proof.
  induction n as [|n IH]; [reflexivity | ].
  unfold state_after in *. rewrite Nat.iter_succ, IH, next_state.
  destruct n as [|n].
  - replace (s + Z.of_nat 1 * 0x6d2b79f5)%Z with (s + 0x6d2b79f5)%Z by lia.
    reflexivity.
  - unfold Rng.u32. rewrite Zplus_mod_idemp_l.
    replace (s + Z.of_nat (S n) * 0x6d2b79f5 + 0x6d2b79f5)%Z
      with (s + Z.of_nat (S (S n)) * 0x6d2b79f5)%Z by lia.
    reflexivity.
Qed.

Lemma state_after_makeRng (n : nat) (seed : Z) :
  state_after n (Rng.makeRng seed) =
  Rng.u32 (seed + Z.of_nat n * 0x6d2b79f5).
Proof.
  rewrite state_after_closed. destruct n as [|n].
  - unfold Rng.makeRng.
    replace (seed + Z.of_nat 0 * 0x6d2b79f5)%Z with seed by lia.
    reflexivity.
  - unfold Rng.makeRng, Rng.u32. rewrite Zplus_mod_idemp_l. reflexivity.
Qed.

Lemma odd_increment_cancels (d : Z) :
  ((d * 0x6d2b79f5) mod 2 ^ 32 = 0 <-> d mod 2 ^ 32 = 0)%Z.
Proof.
  rewrite !Z.mod_divide by discriminate. split.
  - intros Hdiv. apply (Z.gauss _ 0x6d2b79f5%Z); [ | reflexivity].
    rewrite Z.mul_comm. exact Hdiv.
  - intros Hdiv. apply Z.divide_mul_l. exact Hdiv.
Qed.

(** X2.  The state of [makeRng(seed)] after [n] draws is
    [(seed + n * 0x6d2b79f5) mod 2^32]: seeds that agree modulo 2^32 give
    the same generator, and two draw counts lead to the same state exactly
    when they agree modulo 2^32, so the generator runs through all 2^32
    states before it repeats. *)
Theorem rng_state_is_weyl_sequence (seed : Z) (n m : nat) :
  state_after n (Rng.makeRng seed) =
    Rng.u32 (seed + Z.of_nat n * 0x6d2b79f5) /\
  (forall k : Z, Rng.makeRng (seed + k * 2 ^ 32) = Rng.makeRng seed) /\
  (state_after n (Rng.makeRng seed) = state_after m (Rng.makeRng seed) <->
   ((Z.of_nat n - Z.of_nat m) mod 2 ^ 32 = 0)%Z).
Proof.
  split; [apply state_after_makeRng | ]. split.
  - intros k. unfold Rng.makeRng, Rng.u32. apply Z_mod_plus_full.
  - rewrite !state_after_makeRng. unfold Rng.u32.
    rewrite <- odd_increment_cancels.
    set (c := 0x6d2b79f5%Z).
    replace ((Z.of_nat n - Z.of_nat m) * c)%Z
      with ((seed + Z.of_nat n * c) - (seed + Z.of_nat m * c))%Z by ring.
    split.
    + intros Heq. rewrite Zminus_mod, Heq, Z.sub_diag. reflexivity.
    + intros Hzero.
      apply Z.mod_divide in Hzero; [ | discriminate].
      destruct Hzero as [q Hq].
      replace (seed + Z.of_nat n * c)%Z
        with ((seed + Z.of_nat m * c) + q * 2 ^ 32)%Z by lia.
      apply Z_mod_plus_full.
Qed.

(** ** The cache of candidate lists *)

Lemma cache_get_set_same (c : Cache) (k : R) (v : result (list Vec2)) :
  cache_get (cache_set c k v) k = Some v.
Proof.
  unfold cache_set. cbn [cache_get].
  destruct (Req_dec_T k k) as [_ | Hne]; [reflexivity | contradiction].
Qed.

Lemma cache_get_set_other (c : Cache) (k k' : R) (v : result (list Vec2)) :
  k <> k' -> cache_get (cache_set c k v) k' = cache_get c k'.
Proof.
  intros Hne. unfold cache_set. cbn [cache_get].
  destruct (Req_dec_T k k') as [Heq | _]; [contradiction | reflexivity].
Qed.

(** X3.  Once [loadLogoPixelPositions] has been called for an
    [edgeWeight], every later call for the same [edgeWeight] returns the
    same outcome and leaves the cache as it is, in whatever state the
    browser then is: a list is computed once, and a failed load is never
    tried again.  The call changes the cached outcome of no other
    [edgeWeight]. *)
Theorem load_is_cached_for_good
        (env env' : LogoEnv) (c : Cache) (edgeWeight other : R) :
  let first := loadLogoPixelPositions env c edgeWeight in
  loadLogoPixelPositions env' (snd first) edgeWeight = first /\
  cache_get (snd first) edgeWeight = Some (fst first) /\
  (other <> edgeWeight ->
   cache_get (snd first) other = cache_get c other).
Proof.
  cbv zeta. unfold loadLogoPixelPositions.
  destruct (cache_get c edgeWeight) as [cached | ] eqn:Hget; cbn [fst snd].
  - rewrite Hget. split; [reflexivity | ]. split; [reflexivity | ].
    intros _. reflexivity.
  - rewrite cache_get_set_same. split; [reflexivity | ].
    split; [reflexivity | ].
    intros Hne. apply cache_get_set_other. congruence.
Qed.

(** ** Which error the sampler raises *)

Lemma fill_pixels_nil_iff (b : Bitmap) :
  fill_pixels b = [] <->
  forall x y : Z, (0 <= x < width b)%Z -> (0 <= y < height b)%Z ->
                  (alpha b x y <= 0)%Z.
Proof.
  split.
  - intros Hnil x y Hx Hy.
    destruct (Z_le_gt_dec (alpha b x y) 0) as [Hle | Hgt]; [exact Hle | ].
    assert (Hin : In (x, y) (fill_pixels b)).
    { apply In_fill_pixels. unfold opaque.
      rewrite (proj2 (Z.leb_le 0 x)), (proj2 (Z.ltb_lt x (width b))),
        (proj2 (Z.leb_le 0 y)), (proj2 (Z.ltb_lt y (height b))),
        (proj2 (Z.ltb_lt 0 (alpha b x y))) by lia.
      reflexivity. }
    rewrite Hnil in Hin. contradiction.
  - intros Hall. destruct (fill_pixels b) as [|[x y] ps] eqn:Hfp;
      [reflexivity | ].
    assert (Hin : In (x, y) (fill_pixels b)) by (rewrite Hfp; left; reflexivity).
    apply In_fill_pixels in Hin.
    pose proof (opaque_in_image b x y Hin) as [Hx Hy].
    specialize (Hall x y Hx Hy).
    unfold opaque in Hin. rewrite !andb_true_iff in Hin.
    destruct Hin as [_ Ha]. apply Z.ltb_lt in Ha. lia.
Qed.

(** X4.  The error of an uncached load names what is wrong, in this order:
    the load is rejected exactly when the image cannot be fetched and
    decoded; it raises "Logo mask unavailable" exactly when the image
    decodes but no 2D context is there, whatever the image holds; it raises
    "Logo mask empty" exactly when both are there and no pixel of the image
    has a positive alpha byte (in particular when the pixel data is
    missing); the [edgeWeight] has no part in it. *)
Theorem load_error_names_the_cause (env : LogoEnv) (edgeWeight : R) :
  (computeLogoPixelPositions env edgeWeight = inl Rejected <->
   decoded env = None) /\
  (computeLogoPixelPositions env edgeWeight = inl LogoMaskUnavailable <->
   exists b, decoded env = Some b /\ context2d env = false) /\
  (computeLogoPixelPositions env edgeWeight = inl LogoMaskEmpty <->
   exists b,
     decoded env = Some b /\ context2d env = true /\
     forall x y : Z, (0 <= x < width b)%Z -> (0 <= y < height b)%Z ->
                     (alpha b x y <= 0)%Z) /\
  (forall b : Bitmap,
      decoded env = Some b -> context2d env = true -> data b = [] ->
      computeLogoPixelPositions env edgeWeight = inl LogoMaskEmpty).
Proof.
  unfold computeLogoPixelPositions.
  destruct (decoded env) as [b | ].
  - rewrite scan_fill, length_map.
    destruct (context2d env); cbn [negb].
    + pose proof (fill_pixels_nil_iff b) as Hnil.
      destruct (fill_pixels b) as [|p ps] eqn:Hfp; cbn [List.length Nat.eqb].
      * repeat split; try discriminate.
        -- intros (b' & Hb & Hc). discriminate.
        -- intros _. exists b. repeat split. apply Hnil. reflexivity.
      * repeat split; try discriminate.
        -- intros (b' & Hb & Hc). discriminate.
        -- intros (b' & Hb & _ & Hall). inversion Hb; subst b'.
           apply Hnil in Hall. discriminate.
        -- intros b' Hb _ Hdata. inversion Hb; subst b'. exfalso.
           assert (Hall : forall x y : Z,
                      (0 <= x < width b)%Z -> (0 <= y < height b)%Z ->
                      (alpha b x y <= 0)%Z).
           { intros x y _ _. unfold alpha. rewrite Hdata.
             destruct (Z.to_nat _); cbn; lia. }
           apply Hnil in Hall. discriminate.
    + repeat split; try discriminate.
      * intros _. exists b. split; reflexivity.
      * intros (b' & _ & Hc & _). discriminate.
  - repeat split; try discriminate.
    + intros (b' & Hb & _). discriminate.
    + intros (b' & Hb & _). discriminate.
Qed.

(** ** How often a pixel is a candidate, and where it lands *)

Lemma count_occ_concat_repeat {A : Type}
      (dec : forall a b : A, {a = b} + {a <> b})
      (l : list A) (n : nat) (a : A) :
  count_occ dec (List.concat (repeat l n)) a = (n * count_occ dec l a)%nat.
Proof.
  induction n as [|n IH]; cbn [repeat List.concat]; [reflexivity | ].
  rewrite count_occ_app, IH. cbn. reflexivity.
Qed.

Lemma count_occ_NoDup {A : Type}
      (dec : forall a b : A, {a = b} + {a <> b}) (l : list A) (a : A) :
  NoDup l -> count_occ dec l a = if in_dec dec a l then 1%nat else 0%nat.
Proof.
  intros Hnd. destruct (in_dec dec a l) as [Hin | Hnot].
  - apply (proj1 (NoDup_count_occ' dec l) Hnd). exact Hin.
  - apply count_occ_not_In. exact Hnot.
Qed.

Lemma NoDup_fill_pixels (b : Bitmap) : NoDup (fill_pixels b).
Proof. apply NoDup_filter. apply NoDup_pixels. Qed.

Lemma NoDup_border_pixels (b : Bitmap) : NoDup (border_pixels b).
Proof. apply NoDup_filter. apply NoDup_fill_pixels. Qed.

Lemma weighted_as_pixels (b : Bitmap) (edgeWeight : R) :
  weighted (scan b) edgeWeight = map (centre b) (weighted_pixels b edgeWeight).
Proof.
  rewrite weighted_spec, scan_fill, scan_border.
  unfold fill_then_borders, weighted_pixels, borderWeight.
  rewrite map_app. f_equal.
  generalize (Z.to_nat (Z.max 1 (Num.floor edgeWeight))) as n.
  induction n as [|n IH]; cbn [repeat List.concat]; [reflexivity | ].
  rewrite map_app, IH. reflexivity.
Qed.

Lemma borderWeight_low (edgeWeight : R) :
  edgeWeight < 2 -> borderWeight edgeWeight = 1%Z.
Proof.
  intros Hlow. unfold borderWeight.
  pose proof (floor_bounds edgeWeight) as [Hlo _].
  assert (Hlt : IZR (Num.floor edgeWeight) < IZR 2) by lra.
  apply lt_IZR in Hlt. lia.
Qed.

Lemma borderWeight_high (edgeWeight : R) :
  1 <= edgeWeight -> borderWeight edgeWeight = Num.floor edgeWeight.
Proof.
  intros Hhigh. unfold borderWeight.
  pose proof (floor_bounds edgeWeight) as [_ Hhi].
  assert (Hlt : IZR 0 < IZR (Num.floor edgeWeight)) by lra.
  apply lt_IZR in Hlt. lia.
Qed.

(** X5.  The candidate list is the list of pixel centres of the fill
    pixels followed by [w] rounds of the border pixels, where the weight
    [w = max(1, floor(edgeWeight))] is at least 1, is 1 for every
    [edgeWeight] below 2 (zero and negative ones too) and is
    [floor(edgeWeight)] from 1 on.  So a border pixel stands [1 + w] times
    in the list, an opaque pixel that is not on the border once, and any
    other pixel not at all; the list has
    [#fill + w * #border] entries. *)
Theorem candidate_multiplicity (b : Bitmap) (edgeWeight : R) :
  let w := Z.to_nat (borderWeight edgeWeight) in
  weighted (scan b) edgeWeight
    = map (centre b) (weighted_pixels b edgeWeight) /\
  (1 <= w)%nat /\
  (edgeWeight < 2 -> w = 1%nat) /\
  (1 <= edgeWeight -> Z.of_nat w = Num.floor edgeWeight) /\
  List.length (weighted (scan b) edgeWeight)
    = (List.length (fill_pixels b) + w * List.length (border_pixels b))%nat /\
  (forall p : Z * Z,
      count_occ pixel_eq_dec (weighted_pixels b edgeWeight) p =
      if in_dec pixel_eq_dec p (border_pixels b) then (1 + w)%nat
      else if in_dec pixel_eq_dec p (fill_pixels b) then 1%nat
           else 0%nat).
Proof.
  cbv zeta.
  assert (Hw : (1 <= borderWeight edgeWeight)%Z)
    by (unfold borderWeight; lia).
  split; [apply weighted_as_pixels | ].
  split; [lia | ].
  split; [intros Hlow; rewrite borderWeight_low by exact Hlow; reflexivity | ].
  split; [intros Hhigh; rewrite <- borderWeight_high by exact Hhigh; lia | ].
  split.
  - rewrite weighted_as_pixels, length_map. unfold weighted_pixels.
    rewrite length_app. f_equal.
    generalize (Z.to_nat (borderWeight edgeWeight)) as n.
    induction n as [|n IH]; cbn [repeat List.concat]; [reflexivity | ].
    rewrite length_app, IH. cbn. reflexivity.
  - intros p. unfold weighted_pixels.
    rewrite count_occ_app, count_occ_concat_repeat.
    rewrite (count_occ_NoDup _ _ _ (NoDup_fill_pixels b)).
    rewrite (count_occ_NoDup _ _ _ (NoDup_border_pixels b)).
    destruct (in_dec pixel_eq_dec p (border_pixels b)) as [Hb | Hb].
    + destruct (in_dec pixel_eq_dec p (fill_pixels b)) as [Hf | Hf].
      * lia.
      * exfalso. apply Hf. unfold border_pixels in Hb.
        apply filter_In in Hb. tauto.
    + destruct (in_dec pixel_eq_dec p (fill_pixels b)); lia.
Qed.

Lemma nx_bounds (b : Bitmap) (x : Z) :
  (0 <= x < width b)%Z ->
  / IZR (width b) - 1 <= nx b x <= 1 - / IZR (width b).
Proof.
  intros [Hx0 Hx1]. unfold nx.
  apply IZR_le in Hx0.
  assert (Hxw : IZR x <= IZR (width b) - 1).
  { rewrite <- minus_IZR. apply IZR_le. lia. }
  assert (Hpos : 0 < IZR (width b)) by lra.
  pose proof (Rinv_0_lt_compat _ Hpos) as Hi.
  assert (Hwi : IZR (width b) * / IZR (width b) = 1)
    by (apply Rinv_r; lra).
  unfold Rdiv. split; nra.
Qed.

Lemma ny_bounds (b : Bitmap) (y : Z) :
  (0 <= y < height b)%Z ->
  / IZR (height b) - 1 <= ny b y <= 1 - / IZR (height b).
Proof.
  intros [Hy0 Hy1]. unfold ny.
  apply IZR_le in Hy0.
  assert (Hyh : IZR y <= IZR (height b) - 1).
  { rewrite <- minus_IZR. apply IZR_le. lia. }
  assert (Hpos : 0 < IZR (height b)) by lra.
  pose proof (Rinv_0_lt_compat _ Hpos) as Hi.
  assert (Hwi : IZR (height b) * / IZR (height b) = 1)
    by (apply Rinv_r; lra).
  unfold Rdiv. split; nra.
Qed.

(** X6.  For an image of positive size the mapping to normalized device
    coordinates keeps the order of columns and turns the order of rows
    round (row 0 is the top of the picture), maps mirrored pixels to
    mirrored points, and so sends distinct pixels to distinct points. *)
Theorem ndc_orientation (b : Bitmap) (x1 x2 y1 y2 : Z) :
  (0 < width b)%Z -> (0 < height b)%Z ->
  ((x1 < x2)%Z -> nx b x1 < nx b x2) /\
  ((y1 < y2)%Z -> ny b y2 < ny b y1) /\
  nx b (width b - 1 - x1) = - nx b x1 /\
  ny b (height b - 1 - y1) = - ny b y1 /\
  (ndc b x1 y1 = ndc b x2 y2 -> x1 = x2 /\ y1 = y2).
Proof.
  intros Hw Hh.
  apply IZR_lt in Hw, Hh.
  pose proof (Rinv_0_lt_compat _ Hw) as Hiw.
  pose proof (Rinv_0_lt_compat _ Hh) as Hih.
  assert (Hmx : forall a c : Z, (a < c)%Z -> nx b a < nx b c).
  { intros a c Hac. apply IZR_lt in Hac. unfold nx, Rdiv. nra. }
  assert (Hmy : forall a c : Z, (a < c)%Z -> ny b c < ny b a).
  { intros a c Hac. apply IZR_lt in Hac. unfold ny, Rdiv. nra. }
  split; [apply Hmx | ]. split; [apply Hmy | ].
  split; [ | split].
  - assert (Hwi : IZR (width b) * / IZR (width b) = 1)
      by (apply Rinv_r; lra).
    unfold nx, Rdiv. rewrite !minus_IZR. nra.
  - assert (Hhi : IZR (height b) * / IZR (height b) = 1)
      by (apply Rinv_r; lra).
    unfold ny, Rdiv. rewrite !minus_IZR. nra.
  - intros Heq. unfold ndc in Heq. inversion Heq as [[Hx Hy]]. split.
    + destruct (Z.lt_trichotomy x1 x2) as [Hlt | [Heq' | Hgt]];
        [apply Hmx in Hlt; lra | exact Heq' | apply Hmx in Hgt; lra].
    + destruct (Z.lt_trichotomy y1 y2) as [Hlt | [Heq' | Hgt]];
        [apply Hmy in Hlt; lra | exact Heq' | apply Hmy in Hgt; lra].
Qed.

Lemma ndc_orientation_witness :
  (0 < width block3)%Z /\ (0 < height block3)%Z /\
  nx block3 0 < nx block3 2 /\ ny block3 2 < ny block3 0.
Proof.
  assert (Hw : (0 < width block3)%Z) by reflexivity.
  assert (Hh : (0 < height block3)%Z) by reflexivity.
  split; [exact Hw | ]. split; [exact Hh | ].
  destruct (ndc_orientation block3 0 2 0 2 Hw Hh) as (Hx & Hy & _).
  split; [apply Hx; reflexivity | apply Hy; reflexivity].
Defined.

Lemma logo_points_Forall (P : Vec2 -> Prop) (positions : list Vec2) :
  (forall s : Rng.state, P (fst (logo_point positions s))) ->
  forall (count : nat) (s : Rng.state) (points : list Vec2),
    Forall P points ->
    Forall P (fst (logo_points count positions s points)).
Proof.
  intros Hpoint n. induction n as [|n IH]; intros s points Hpts.
  - exact Hpts.
  - cbn [logo_points]. specialize (Hpoint s).
    destruct (logo_point positions s) as [p s']. cbn [fst] in Hpoint.
    apply IH. apply Forall_app. split; [exact Hpts | ].
    constructor; [exact Hpoint | constructor].
Qed.

Lemma In_weighted_is_centre (b : Bitmap) (edgeWeight : R) (p : Vec2) :
  In p (weighted (scan b) edgeWeight) ->
  exists x y : Z,
    (0 <= x < width b)%Z /\ (0 <= y < height b)%Z /\ p = ndc b x y.
Proof.
  rewrite weighted_as_pixels. intros Hin. apply in_map_iff in Hin.
  destruct Hin as [[x y] [<- Hq]].
  assert (Hfill : In (x, y) (fill_pixels b)).
  { unfold weighted_pixels in Hq. apply in_app_or in Hq.
    destruct Hq as [Hq | Hq]; [exact Hq | ].
    apply in_concat in Hq. destruct Hq as [l [Hl Hq]].
    apply repeat_spec in Hl. subst l.
    unfold border_pixels in Hq. apply filter_In in Hq. tauto. }
  apply In_fill_pixels in Hfill.
  pose proof (opaque_in_image b x y Hfill) as [Hx Hy].
  exists x, y. repeat split; lia.
Qed.

Lemma unclamped (v d margin : R) :
  margin - 1 <= v <= 1 - margin -> Rabs d <= margin ->
  Num.max (-1) (Num.min 1 (v + d)) = v + d.
Proof.
  intros Hv Hd.
  assert (Hd' : - margin <= d <= margin)
    by (unfold Rabs in Hd; destruct (Rcase_abs d); lra).
  unfold Num.max, Num.min, Rmax, Rmin.
  destruct (Rle_dec 1 (v + d)); destruct (Rle_dec (-1) _); lra.
Qed.

Lemma small_side_margin (n : Z) :
  (0 < n <= 800)%Z -> jitter / 2 <= / IZR n.
Proof.
  intros [Hpos Hle]. apply IZR_lt in Hpos. apply IZR_le in Hle.
  unfold jitter. replace (0.0025 / 2) with (/ 800) by lra.
  apply Rinv_le_contravar; lra.
Qed.

(** X7.  For a logo of at most 800 by 800 pixels with an opaque pixel the
    clamp of [generateLogoPoints] never bites: every point it returns is a
    candidate point plus an offset of at most half the jitter in each
    coordinate, exactly, and lies in the square [-1,1] x [-1,1]. *)
Theorem small_logo_jitter_unclamped
        (b : Bitmap) (edgeWeight : R) (count : nat) (s : Rng.state) :
  (width b <= 800)%Z -> (height b <= 800)%Z -> fill_pixels b <> [] ->
  let positions := weighted (scan b) edgeWeight in
  Forall
    (fun p : Vec2 =>
       exists (base : Vec2) (dx dy : R),
         In base positions /\
         Rabs dx <= jitter / 2 /\ Rabs dy <= jitter / 2 /\
         p = vec2f (vx base + dx) (vy base + dy) /\
         inside p)
    (fst (logo_points count positions s [])).
Proof.
  intros Hw Hh Hfill positions.
  assert (Hne : positions <> []).
  { subst positions. rewrite weighted_as_pixels. unfold weighted_pixels.
    destruct (fill_pixels b); [contradiction | discriminate]. }
  apply logo_points_Forall; [ | constructor].
  intros s0.
  pose proof (logo_point_inside positions s0) as Hin.
  destruct (logo_point_jittered positions s0 Hne)
    as (base & dx & dy & Hbase & Hdx & Hdy & Hx & Hy).
  destruct (In_weighted_is_centre b edgeWeight base Hbase)
    as (x & y & Hxr & Hyr & Hndc).
  pose proof (nx_bounds b x Hxr) as Hnx.
  pose proof (ny_bounds b y Hyr) as Hny.
  pose proof (small_side_margin (width b) ltac:(lia)) as Hmw.
  pose proof (small_side_margin (height b) ltac:(lia)) as Hmh.
  rewrite Hndc in Hx, Hy. cbn [ndc vx vy] in Hx, Hy.
  rewrite (unclamped (nx b x) dx (/ IZR (width b))) in Hx by lra.
  rewrite (unclamped (ny b y) dy (/ IZR (height b))) in Hy by lra.
  exists base, dx, dy.
  split; [exact Hbase | ]. split; [exact Hdx | ]. split; [exact Hdy | ].
  split; [ | exact Hin].
  rewrite Hndc. cbn [ndc vx vy]. apply Vec2_eq; cbn [vx vy]; assumption.
Qed.

Lemma small_logo_jitter_unclamped_witness :
  (width one_pixel <= 800)%Z /\ (height one_pixel <= 800)%Z /\
  fill_pixels one_pixel <> [] /\
  Forall inside
    (fst (logo_points 3 (weighted (scan one_pixel) 5) (Rng.makeRng 1) [])).
Proof.
  assert (Hw : (width one_pixel <= 800)%Z) by (vm_compute; discriminate).
  assert (Hh : (height one_pixel <= 800)%Z) by (vm_compute; discriminate).
  assert (Hfill : fill_pixels one_pixel <> []) by (vm_compute; discriminate).
  split; [exact Hw | ]. split; [exact Hh | ]. split; [exact Hfill | ].
  pose proof (small_logo_jitter_unclamped one_pixel 5 3 (Rng.makeRng 1)
                Hw Hh Hfill) as Hall.
  cbv zeta in Hall. eapply Forall_impl; [ | exact Hall].
  intros p (base & dx & dy & _ & _ & _ & _ & Hin). exact Hin.
Defined.

(** ** The nearest mass point *)

Lemma nearest_search_from (B : Bindings) (index : nat)
      (k n : nat) (acc : Nearest) :
  let dsq := fun i => distSq_to (pos B index) (nth i (Kernel.massPoints B) Vec.zero) in
  (exists j : nat,
      (j < n)%nat /\
      nearest acc = nth j (Kernel.massPoints B) Vec.zero /\
      nearestDiff acc = sub (nearest acc) (pos B index) /\
      nearestDistSq acc = dsq j /\
      (forall i : nat, (i < n)%nat -> dsq j <= dsq i) /\
      (forall i : nat, (i < j)%nat -> dsq j < dsq i)) ->
  let r := fold_left (nearest_step B index) (seq n k) acc in
  exists j : nat,
    (j < n + k)%nat /\
    nearest r = nth j (Kernel.massPoints B) Vec.zero /\
    nearestDiff r = sub (nearest r) (pos B index) /\
    nearestDistSq r = dsq j /\
    (forall i : nat, (i < n + k)%nat -> dsq j <= dsq i) /\
    (forall i : nat, (i < j)%nat -> dsq j < dsq i).
Proof.
  intros dsq. revert n acc. induction k as [|k IH]; intros n acc Hacc.
  - cbn [seq fold_left]. rewrite Nat.add_0_r. exact Hacc.
  - cbn [seq fold_left]. replace (n + S k)%nat with (S n + k)%nat by lia.
    apply IH. destruct Hacc as (j & Hj & Hn & Hd & Hq & Hmin & Hfirst).
    unfold nearest_step. cbv zeta. fold (dsq n). unfold distSq_to in dsq.
    destruct (Num.ltb (dot (sub (nth n (Kernel.massPoints B) Vec.zero)
                                (pos B index))
                           (sub (nth n (Kernel.massPoints B) Vec.zero)
                                (pos B index)))
                      (nearestDistSq acc)) eqn:Hcmp;
      unfold select; cbn [nearest nearestDiff nearestDistSq].
    + apply ltb_true in Hcmp. rewrite Hq in Hcmp. fold (dsq n) in Hcmp.
      exists n. repeat split; try lia.
      * intros i Hi. destruct (Nat.eq_dec i n) as [-> | Hne]; [lra | ].
        assert (Hle : dsq j <= dsq i) by (apply Hmin; lia). lra.
      * intros i Hi. assert (Hle : dsq j <= dsq i) by (apply Hmin; lia). lra.
    + apply ltb_false in Hcmp. rewrite Hq in Hcmp. fold (dsq n) in Hcmp.
      exists j. repeat split; try lia; try assumption.
      intros i Hi. destruct (Nat.eq_dec i n) as [-> | Hne]; [lra | ].
      apply Hmin. lia.
Qed.

(** X8.  The search loop of the kernel finds the nearest mass point: among
    the mass points with index below [max(1, massCount)] the one it returns
    has the least squared distance to the particle, the first such one if
    several are equally near; [nearestDiff] is the vector from the particle
    to it and [nearestDistSq] its squared distance. *)
Theorem nearest_search_finds_nearest (B : Bindings) (index : nat) :
  let n := S (Z.to_nat (massCount_i32 B - 1)) in
  let dsq := fun i =>
    distSq_to (pos B index) (nth i (Kernel.massPoints B) Vec.zero) in
  let r := nearest_search B index in
  exists j : nat,
    (j < n)%nat /\
    nearest r = nth j (Kernel.massPoints B) Vec.zero /\
    nearestDiff r = sub (nearest r) (pos B index) /\
    nearestDistSq r = dsq j /\
    (forall i : nat, (i < n)%nat -> dsq j <= dsq i) /\
    (forall i : nat, (i < j)%nat -> dsq j < dsq i) /\
    ((Z.of_nat n <= Z.of_nat (List.length (Kernel.massPoints B)))%Z ->
     In (nearest r) (Kernel.massPoints B)).
Proof.
  cbv zeta.
  destruct (nearest_search_from B index (Z.to_nat (massCount_i32 B - 1)) 1
              (nearest_init B index)) as (j & Hj & Hn & Hd & Hq & Hmin & Hf).
  - exists 0%nat. unfold nearest_init. cbv zeta.
    cbn [nearest nearestDiff nearestDistSq]. unfold distSq_to.
    repeat split; try lia.
    intros i Hi. replace i with 0%nat by lia. lra.
  - exists j. fold (nearest_search B index) in *.
    repeat split; try assumption.
    intros Hlen. rewrite Hn. apply nth_In. lia.
Qed.

(** ** The pull toward the target *)

Lemma length_zero : Vec.length (vec2f 0 0) = 0.
Proof.
  unfold Vec.length, dot. cbn [vx vy].
  replace (0 * 0 + 0 * 0) with 0 by ring. apply sqrt_0.
Qed.

Lemma mul_mul (v : Vec2) (a k : R) : mul (mul v a) k = mul v (a * k).
Proof. apply Vec2_eq; cbn; ring. Qed.

(** X9.  The direction to the target is a unit vector when the particle is
    farther than 0.001 from its wiggle-offset target and the zero vector
    otherwise.  So outside this dead zone the spring force is the
    displacement to the target times [mix(18, 32, hover) * hover], and the
    gravity has the constant size [|gravityStrength * hover|]; inside it
    both vanish. *)
Theorem target_pull_has_dead_zone (B : Bindings) (index : nat) :
  let unif := Kernel.uniforms B in
  let h := Kernel.hoverStrength unif in
  (0.001 < targetDist B index ->
   Vec.length (targetDir B index) = 1 /\
   springForce B index = mul (toTarget B index) (mix 18.0 32.0 h * h) /\
   Vec.length (gravity B index) = Rabs (Kernel.gravityStrength unif * h)) /\
  (targetDist B index <= 0.001 ->
   targetDir B index = vec2f 0 0 /\
   springForce B index = vec2f 0 0 /\
   gravity B index = vec2f 0 0).
Proof.
  cbv zeta. split.
  - intros Hfar.
    assert (Hdir : targetDir B index =
                   mul (toTarget B index) (1.0 / targetDist B index)).
    { unfold targetDir, select, Num.gtb.
      rewrite (proj2 (ltb_true _ _) Hfar). reflexivity. }
    assert (Hunit : Vec.length (targetDir B index) = 1).
    { rewrite Hdir, length_mul. fold (targetDist B index).
      replace 1.0 with 1 by lra.
      rewrite Rabs_pos_eq.
      - field. lra.
      - unfold Rdiv. apply Rmult_le_pos; [lra | ].
        left. apply Rinv_0_lt_compat. lra. }
    split; [exact Hunit | ]. split.
    + unfold springForce, springStrength, hover, u. rewrite Hdir, mul_mul.
      f_equal. replace 1.0 with 1 by lra.
      set (m := mix 18.0 32.0 (Kernel.hoverStrength (Kernel.uniforms B))).
      field. lra.
    + unfold gravity, hover, u. rewrite length_mul, Hunit. ring.
  - intros Hnear.
    assert (Hdir : targetDir B index = vec2f 0 0).
    { unfold targetDir, select, Num.gtb.
      rewrite (proj2 (ltb_false _ _) Hnear). reflexivity. }
    split; [exact Hdir | ].
    unfold springForce, gravity. rewrite Hdir.
    split; apply Vec2_eq; cbn; ring.
Qed.

Lemma target_pull_has_dead_zone_witness :
  0.001 < targetDist pulled 0 /\ Vec.length (targetDir pulled 0) = 1.
Proof.
  assert (Hfar : 0.001 < targetDist pulled 0)
    by (rewrite pulled_targetDist; lra).
  split; [exact Hfar | ].
  exact (proj1 (proj1 (target_pull_has_dead_zone pulled 0) Hfar)).
Defined.

(** ** Fully hovered and not hovered at all *)

Lemma simulate_integrate (B : Bindings) (index : nat) :
  simulate B index =
  integrate (Kernel.uniforms B) (particle B index) (totalForce B index).
Proof. reflexivity. Qed.

Lemma logo_forces_vanish (B : Bindings) (index : nat) :
  Kernel.hoverStrength (Kernel.uniforms B) = 0 ->
  gravity B index = vec2f 0 0 /\
  springForce B index = vec2f 0 0 /\
  wiggleForce B index = vec2f 0 0.
Proof.
  intros Hh. unfold gravity, springForce, wiggleForce, hover, u.
  rewrite Hh. repeat split; apply Vec2_eq; cbn; ring.
Qed.

Lemma restForce_vanishes (B : Bindings) (index : nat) :
  Kernel.hoverStrength (Kernel.uniforms B) = 1 ->
  restForce B index = vec2f 0 0.
Proof.
  intros Hh. unfold restForce, hover, u. rewrite Hh.
  replace (6.0 * (1.0 - 1)) with 0 by lra.
  apply Vec2_eq; cbn; ring.
Qed.

Lemma totalForce_unhovered (B : Bindings) (index : nat) :
  Kernel.hoverStrength (Kernel.uniforms B) = 0 ->
  totalForce B index =
  add (restForce B index)
      (add (repulsionForce B index) (dampingForce B index)).
Proof.
  intros Hh. destruct (logo_forces_vanish B index Hh) as (Hg & Hs & Hw).
  unfold totalForce. rewrite Hg, Hs, Hw.
  apply Vec2_eq; cbn [vx vy add]; ring.
Qed.

Lemma totalForce_hovered (B : Bindings) (index : nat) :
  Kernel.hoverStrength (Kernel.uniforms B) = 1 ->
  totalForce B index =
  add (repulsionForce B index)
      (add (gravity B index)
           (add (springForce B index)
                (add (dampingForce B index) (wiggleForce B index)))).
Proof.
  intros Hh. unfold totalForce. rewrite (restForce_vanishes B index Hh).
  apply Vec2_eq; cbn [vx vy add]; ring.
Qed.

(** X10.  With [hoverStrength] 0 the logo exerts no force: gravity, spring
    and wiggle force vanish, the total force is the relaxation
    [6 (rest - pos)] plus the repulsion plus the damping [-12 vel], and the
    particle a thread stores does not depend on the mass points at all.
    With [hoverStrength] 1 the relaxation vanishes and the stored particle
    does not depend on the rest points. *)
Theorem hover_selects_the_attractor (B : Bindings) (index : nat) :
  (Kernel.hoverStrength (Kernel.uniforms B) = 0 ->
   gravity B index = vec2f 0 0 /\
   springForce B index = vec2f 0 0 /\
   wiggleForce B index = vec2f 0 0 /\
   totalForce B index =
     add (mul (sub (rest B index) (pos B index)) 6)
         (add (repulsionForce B index) (mul (vel B index) (-12))) /\
   forall mass : list Vec2,
     simulate (with_massPoints B mass) index = simulate B index) /\
  (Kernel.hoverStrength (Kernel.uniforms B) = 1 ->
   restForce B index = vec2f 0 0 /\
   forall rests : list Vec2,
     simulate (with_restTargets B rests) index = simulate B index).
Proof.
  split.
  - intros Hh. destruct (logo_forces_vanish B index Hh) as (Hg & Hs & Hw).
    split; [exact Hg | ]. split; [exact Hs | ]. split; [exact Hw | ].
    split.
    + rewrite (totalForce_unhovered B index Hh).
      unfold restForce, dampingForce, dampingStrength, mix, hover, u.
      rewrite Hh.
      apply Vec2_eq; cbn [vx vy add mul sub]; lra.
    + intros mass. rewrite !simulate_integrate.
      rewrite (totalForce_unhovered B index Hh).
      rewrite (totalForce_unhovered (with_massPoints B mass) index Hh).
      reflexivity.
  - intros Hh. split; [apply restForce_vanishes; exact Hh | ].
    intros rests. rewrite !simulate_integrate.
    rewrite (totalForce_hovered B index Hh).
    rewrite (totalForce_hovered (with_restTargets B rests) index Hh).
    reflexivity.
Qed.

Lemma hover_selects_the_attractor_witness :
  Kernel.hoverStrength (Kernel.uniforms pulled) = 1 /\
  restForce pulled 0 = vec2f 0 0.
Proof.
  assert (Hh : Kernel.hoverStrength (Kernel.uniforms pulled) = 1)
    by reflexivity.
  split; [exact Hh | ].
  exact (proj1 (proj2 (hover_selects_the_attractor pulled 0) Hh)).
Defined.

(** ** The repulsion *)

Lemma length_sq (a : Vec2) : Vec.length a * Vec.length a = dot a a.
Proof. unfold Vec.length. apply sqrt_def. unfold dot. nra. Qed.

Lemma length_le_from_sq (a : Vec2) (r : R) :
  0 <= r -> dot a a <= r * r -> Vec.length a <= r.
Proof.
  intros Hr Hsq. pose proof (length_sq a) as Hl.
  pose proof (length_nonneg a) as Hn.
  destruct (Rle_dec (Vec.length a) r) as [Hle | Hgt]; [exact Hle | ].
  exfalso. nra.
Qed.

Lemma cauchy_schwarz (a b : Vec2) :
  dot a b <= Vec.length a * Vec.length b.
Proof.
  pose proof (length_sq a) as Ha. pose proof (length_sq b) as Hb.
  pose proof (length_nonneg a) as Hna. pose proof (length_nonneg b) as Hnb.
  assert (Hcs : dot a b * dot a b <= dot a a * dot b b).
  { pose proof (Rle_0_sqr (vx a * vy b - vy a * vx b)) as Hsq.
    unfold Rsqr in Hsq. unfold dot. lra. }
  destruct (Rle_dec (dot a b) (Vec.length a * Vec.length b))
    as [Hle | Hgt]; [exact Hle | ].
  exfalso.
  assert (Hpos : 0 <= Vec.length a * Vec.length b) by nra.
  assert (Hsq : (Vec.length a * Vec.length b) * (Vec.length a * Vec.length b)
                = dot a a * dot b b) by (rewrite <- Ha, <- Hb; ring).
  nra.
Qed.

(** The triangle inequality. *)
Lemma length_add (a b : Vec2) :
  Vec.length (add a b) <= Vec.length a + Vec.length b.
Proof.
  pose proof (length_sq a) as Ha. pose proof (length_sq b) as Hb.
  pose proof (length_nonneg a) as Hna. pose proof (length_nonneg b) as Hnb.
  pose proof (cauchy_schwarz a b) as Hcs.
  apply length_le_from_sq; [lra | ].
  replace (dot (add a b) (add a b))
    with (dot a a + 2 * dot a b + dot b b)
    by (unfold dot, add; cbn [vx vy]; ring).
  nra.
Qed.

Lemma sqrt_small : sqrt 1e-5 < repulsionRadius.
Proof.
  unfold repulsionRadius.
  assert (Hr : sqrt (0.05 * 0.05) = 0.05) by (apply sqrt_square; lra).
  rewrite <- Hr. apply sqrt_lt_1_alt. lra.
Qed.

(** One neighbour pushes with at most [repulsionRadius * |strength|], and
    not at all when it is not within the radius. *)
Lemma repulsion_step_bound (B : Bindings) (index : nat)
      (acc : Vec2) (step : Z) :
  Vec.length (repulsion_step B index acc step) <=
  Vec.length acc + repulsionRadius * Rabs (repulsionStrength B).
Proof.
  unfold repulsion_step. cbv zeta.
  set (diff := sub (pos B index) _).
  set (safe := Num.max (dot diff diff) 1e-5).
  assert (Hrad : 0 < repulsionRadius) by (unfold repulsionRadius; lra).
  pose proof (Rabs_pos (repulsionStrength B)) as Habs.
  destruct (Num.ltb (dot diff diff) repulsionRadiusSq) eqn:Hwithin;
    unfold select; [ | nra].
  apply ltb_true in Hwithin.
  eapply Rle_trans; [apply length_add | ].
  apply Rplus_le_compat_l.
  assert (Hsafe_lo : 1e-5 <= safe) by (unfold safe, Num.max; apply Rmax_r).
  assert (Hsafe_d : dot diff diff <= safe)
    by (unfold safe, Num.max; apply Rmax_l).
  assert (Hsafe_hi : safe < repulsionRadiusSq).
  { unfold safe, Num.max. apply Rmax_lub_lt; [exact Hwithin | ].
    unfold repulsionRadiusSq, repulsionRadius. lra. }
  assert (Hs_pos : 0 < sqrt safe) by (apply sqrt_lt_R0; lra).
  assert (Hs_hi : sqrt safe < repulsionRadius).
  { assert (Hr : sqrt repulsionRadiusSq = repulsionRadius)
      by (unfold repulsionRadiusSq; apply sqrt_square; lra).
    rewrite <- Hr. apply sqrt_lt_1_alt. lra. }
  assert (Hlen_d : Vec.length diff <= sqrt safe).
  { unfold Vec.length. apply sqrt_le_1_alt. exact Hsafe_d. }
  pose proof (length_nonneg diff) as Hd0.
  rewrite !length_mul.
  assert (Hinv : Rabs (1.0 / sqrt safe) = / sqrt safe).
  { replace (1.0 / sqrt safe) with (/ sqrt safe) by (unfold Rdiv; lra).
    apply Rabs_pos_eq. left. apply Rinv_0_lt_compat. exact Hs_pos. }
  rewrite Hinv, Rabs_mult.
  rewrite (Rabs_pos_eq (repulsionRadius - sqrt safe)) by lra.
  assert (Hdir : Vec.length diff * / sqrt safe <= 1).
  { apply (Rmult_le_reg_r (sqrt safe)); [exact Hs_pos | ].
    rewrite Rmult_assoc, Rinv_l by lra. lra. }
  assert (Hdir0 : 0 <= Vec.length diff * / sqrt safe).
  { apply Rmult_le_pos; [exact Hd0 | ].
    left. apply Rinv_0_lt_compat. exact Hs_pos. }
  assert (Hgap : 0 <= (repulsionRadius - sqrt safe)
                      * Rabs (repulsionStrength B)
                 <= repulsionRadius * Rabs (repulsionStrength B)) by nra.
  nra.
Qed.

Lemma repulsion_step_far (B : Bindings) (index : nat)
      (acc : Vec2) (step : Z) :
  repulsionRadiusSq <=
    distSq_to (position (nth (Z.to_nat (neighborIdx B index step))
                             (Kernel.particlesIn B) zeroParticle))
              (pos B index) ->
  repulsion_step B index acc step = acc.
Proof.
  intros Hfar. unfold repulsion_step. cbv zeta.
  unfold distSq_to, neighborIdx in Hfar.
  rewrite (proj2 (ltb_false _ _) Hfar). reflexivity.
Qed.

Lemma repulsionForce_far (B : Bindings) (index : nat) :
  no_neighbour_within B index -> repulsionForce B index = vec2f 0 0.
Proof.
  intros Hfar. unfold repulsionForce, repulsion_steps. cbn [fold_left].
  rewrite !repulsion_step_far; [reflexivity | | | | ];
    apply Hfar; unfold repulsion_steps; cbn; tauto.
Qed.

Lemma i32_of_IZR (z : Z) : (0 <= z)%Z -> Num.i32_of (IZR z) = z.
Proof.
  intros Hz. unfold Num.i32_of. apply IZR_le in Hz.
  destruct (Rlt_dec (IZR z) 0) as [Hneg | _]; [lra | ].
  apply floor_IZR.
Qed.

(** X11.  The repulsion force on a particle has norm at most
    [0.2 * |repelStrength|] (four sampled neighbours, each pushing with at
    most the repulsion radius 0.05 times the strength), and it is zero
    when none of the four sampled neighbours is closer than the radius.
    The sampled neighbours are the particles [index + 1], [index + 13],
    [index + 25] and [index + 37], modulo the particle count. *)
Theorem repulsion_is_bounded (B : Bindings) (index : nat) :
  Vec.length (repulsionForce B index)
    <= 0.2 * Rabs (Kernel.repelStrength (Kernel.uniforms B)) /\
  (no_neighbour_within B index -> repulsionForce B index = vec2f 0 0) /\
  map (neighborIdx B index) repulsion_steps =
    [Z.rem (Z.of_nat index + 1) (massCount_i32 B);
     Z.rem (Z.of_nat index + 13) (massCount_i32 B);
     Z.rem (Z.of_nat index + 25) (massCount_i32 B);
     Z.rem (Z.of_nat index + 37) (massCount_i32 B)].
Proof.
  split; [ | split].
  - unfold repulsionForce, repulsion_steps. cbn [fold_left].
    pose proof length_zero as Hz.
    set (f0 := vec2f 0 0) in *.
    set (f1 := repulsion_step B index f0 1).
    set (f2 := repulsion_step B index f1 13).
    set (f3 := repulsion_step B index f2 25).
    pose proof (repulsion_step_bound B index f0 1) as H1.
    pose proof (repulsion_step_bound B index f1 13) as H2.
    pose proof (repulsion_step_bound B index f2 25) as H3.
    pose proof (repulsion_step_bound B index f3 37) as H4.
    fold f1 in H1, H2. fold f2 in H2, H3. fold f3 in H3, H4.
    change (repulsionStrength B)
      with (Kernel.repelStrength (Kernel.uniforms B)) in *.
    unfold repulsionRadius in *. lra.
  - apply repulsionForce_far.
  - reflexivity.
Qed.

Lemma resting_count : massCount_i32 resting = 2%Z.
Proof.
  unfold massCount_i32, u, resting.
  cbn [Kernel.uniforms Kernel.massCount]. apply i32_of_IZR. lia.
Qed.

Lemma resting_far : no_neighbour_within resting 0.
Proof.
  intros step Hstep. unfold neighborIdx, count. rewrite resting_count.
  unfold repulsion_steps in Hstep. cbn [In] in Hstep.
  assert (Hidx : Z.to_nat (Z.rem (Z.of_nat 0 + step) 2) = 1%nat)
    by (destruct Hstep as [<- | [<- | [<- | [<- | []]]]]; reflexivity).
  rewrite Hidx. unfold distSq_to, dot, sub, pos, particle, resting,
    repulsionRadiusSq, repulsionRadius.
  cbn [nth Kernel.particlesIn position vx vy]. lra.
Qed.

Lemma repulsion_is_bounded_witness :
  no_neighbour_within resting 0 /\ repulsionForce resting 0 = vec2f 0 0.
Proof.
  split; [exact resting_far | ].
  exact (proj1 (proj2 (repulsion_is_bounded resting 0)) resting_far).
Defined.

(** ** The rest state *)

(** X12.  A particle that is not hovered, sits at its rest point with zero
    velocity and has no sampled neighbour within the repulsion radius is
    at equilibrium: the kernel stores it unchanged, for every time step and
    whatever the mass points and the other uniforms are. *)
Theorem rest_is_equilibrium (B : Bindings) (index : nat) :
  Kernel.hoverStrength (Kernel.uniforms B) = 0 ->
  pos B index = rest B index ->
  vel B index = vec2f 0 0 ->
  no_neighbour_within B index ->
  simulate B index = particle B index.
Proof.
  intros Hh Hpos Hvel Hfar.
  assert (Hforce : totalForce B index = vec2f 0 0).
  { rewrite (totalForce_unhovered B index Hh).
    rewrite (repulsionForce_far B index Hfar).
    unfold restForce, dampingForce. rewrite Hpos, Hvel.
    apply Vec2_eq; cbn [vx vy add mul sub]; ring. }
  rewrite simulate_integrate, Hforce. unfold integrate. cbv zeta.
  unfold vel, pos in *. rewrite Hvel, Hh.
  set (v := add (mul (vec2f 0 0) (mix 0.8 0.95 0))
                (mul (vec2f 0 0) (Kernel.deltaTime (Kernel.uniforms B)))).
  assert (Hv : v = vec2f 0 0)
    by (unfold v; apply Vec2_eq; cbn [vx vy add mul]; ring).
  rewrite Hv, length_zero.
  assert (Hslow : Num.gtb 0 (mix 0.8 3.2 0) = false)
    by (apply ltb_false; unfold mix; lra).
  rewrite Hslow. unfold select.
  destruct (particle B index) as [p w]. cbn [position velocity] in *.
  subst w. f_equal. apply Vec2_eq; cbn [vx vy add mul]; ring.
Qed.

Lemma rest_is_equilibrium_witness :
  Kernel.hoverStrength (Kernel.uniforms resting) = 0 /\
  pos resting 0 = rest resting 0 /\
  vel resting 0 = vec2f 0 0 /\
  no_neighbour_within resting 0 /\
  simulate resting 0 = {| position := vec2f 0 0; velocity := vec2f 0 0 |}.
Proof.
  split; [reflexivity | ]. split; [reflexivity | ]. split; [reflexivity | ].
  split; [exact resting_far | ].
  exact (rest_is_equilibrium resting 0 eq_refl eq_refl eq_refl resting_far).
Defined.

(** ** The compute pass *)

Lemma dispatch_in_order_length (threads : list nat) (B : Bindings)
      (out : list Particle) :
  List.length (dispatch_in_order threads B out) = List.length out.
Proof.
  unfold dispatch_in_order. revert out.
  induction threads as [|i threads IH]; intros out; cbn [fold_left].
  - reflexivity.
  - rewrite IH. apply store_length.
Qed.

Lemma dispatch_in_order_lookup (threads : list nat) (B : Bindings)
      (out : list Particle) (i : nat) :
  nth_error (dispatch_in_order threads B out) i =
  if in_dec Nat.eq_dec i threads
  then option_map (fun _ => simulate B i) (nth_error out i)
  else nth_error out i.
Proof.
  unfold dispatch_in_order.
  destruct (in_dec Nat.eq_dec i threads) as [Hin | Hnot].
  - destruct (nth_error out i) as [q | ] eqn:Hq; cbn [option_map].
    + apply dispatch_stored; [exact Hin | ].
      apply nth_error_Some. congruence.
    + apply nth_error_None. apply nth_error_None in Hq.
      fold (dispatch_in_order threads B out).
      rewrite dispatch_in_order_length. exact Hq.
  - apply dispatch_untouched. exact Hnot.
Qed.

(** X14.  The compute pass does not depend on the order in which its
    threads run, nor on a thread running more than once: run in any order
    that covers exactly the threads [0 .. n-1] it gives the buffer
    [dispatchThreads(n)] gives.  In that buffer element [i] is what thread
    [i] computed from the input buffer when [i < n], and what it was before
    when [i >= n]; the buffer keeps its length. *)
Theorem dispatch_is_order_independent
        (n : nat) (threads : list nat) (B : Bindings) (out : list Particle) :
  (forall i : nat, In i threads <-> (i < n)%nat) ->
  dispatch_in_order threads B out = dispatchThreads n B out /\
  List.length (dispatchThreads n B out) = List.length out /\
  (forall (i : nat) (q : Particle),
      (i < n)%nat -> nth_error out i = Some q ->
      nth_error (dispatchThreads n B out) i = Some (simulate B i)) /\
  (forall i : nat,
      (n <= i)%nat ->
      nth_error (dispatchThreads n B out) i = nth_error out i).
Proof.
  intros Hcover.
  assert (Hseq : forall i, In i (seq 0 n) <-> (i < n)%nat)
    by (intros i; rewrite in_seq; lia).
  change (dispatchThreads n B out) with (dispatch_in_order (seq 0 n) B out).
  split; [ | split; [apply dispatch_in_order_length | split]].
  - apply nth_error_ext. intros i. rewrite !dispatch_in_order_lookup.
    destruct (in_dec Nat.eq_dec i threads) as [H1 | H1],
             (in_dec Nat.eq_dec i (seq 0 n)) as [H2 | H2];
      try reflexivity; exfalso.
    + apply H2, Hseq, Hcover, H1.
    + apply H1, Hcover, Hseq, H2.
  - intros i q Hi Hq. rewrite dispatch_in_order_lookup.
    destruct (in_dec Nat.eq_dec i (seq 0 n)) as [_ | Hnot].
    + rewrite Hq. reflexivity.
    + exfalso. apply Hnot, Hseq, Hi.
  - intros i Hi. rewrite dispatch_in_order_lookup.
    destruct (in_dec Nat.eq_dec i (seq 0 n)) as [Hin | _]; [ | reflexivity].
    apply Hseq in Hin. lia.
Qed.

Lemma dispatch_is_order_independent_witness :
  (forall i : nat, In i [1; 0; 1]%nat <-> (i < 2)%nat) /\
  dispatch_in_order [1; 0; 1]%nat resting (Kernel.particlesIn resting)
  = dispatchThreads 2 resting (Kernel.particlesIn resting).
Proof.
  assert (Hcover : forall i : nat, In i [1; 0; 1]%nat <-> (i < 2)%nat).
  { intros i. cbn [In]. lia. }
  split; [exact Hcover | ].
  exact (proj1 (dispatch_is_order_independent 2 [1; 0; 1]%nat resting
                  (Kernel.particlesIn resting) Hcover)).
Defined.

(** ** Frames of a running system *)

Lemma frame_writes_dispatch (now w h : R) (s : State) :
  particleBuffer (particleBuffers (fst (animate now w h s)))
                 (computeOut (snd (animate now w h s))) =
  dispatchThreads (particleCount (options s)) (frame_bindings now w h s)
    (particleBuffer (particleBuffers s)
                    (computeOut (snd (animate now w h s)))).
Proof.
  pose proof (animate_buffers now w h s) as (_ & _ & _ & _ & _ & Hout).
  exact Hout.
Qed.

Lemma frame_bindings_sized (n : nat) (now w h : R) (s : State) :
  sized n s ->
  List.length (Kernel.particlesIn (frame_bindings now w h s)) = n /\
  List.length (Kernel.massPoints (frame_bindings now w h s)) = n /\
  List.length (Kernel.restTargets (frame_bindings now w h s)) = n /\
  massCount_i32 (frame_bindings now w h s) = Z.of_nat n.
Proof.
  intros (H0 & H1 & Hm & Hr & Hl & Hn).
  unfold frame_bindings. cbn [Kernel.particlesIn Kernel.massPoints
    Kernel.restTargets].
  split; [ | split; [exact Hm | split; [exact Hr | ]]].
  - destruct (computeIn _); cbn [particleBuffer]; assumption.
  - unfold massCount_i32, u. cbn [Kernel.uniforms].
    unfold animate. cbv zeta. cbn [fst uniforms Kernel.massCount].
    rewrite Hl. apply i32_of_INR.
Qed.

(** X15.  In a frame of a system whose buffers hold the particle count [n],
    the compute pass is [dispatchThreads(n)] on bindings in which every
    read of a thread [index < n] stays inside its buffer: the three bound
    buffers hold [n] elements, the [massCount] the kernel reads is [n], so
    the search loop reads mass points [0 .. n-1] only, and each sampled
    neighbour index [(index + step) % n] lies in [0 .. n-1]. *)
Theorem frame_reads_stay_in_bounds
        (n : nat) (now w h : R) (s : State) (index : nat) (step : Z) :
  sized n s -> (index < n)%nat -> In step repulsion_steps ->
  let B := frame_bindings now w h s in
  let f := snd (animate now w h s) in
  particleBuffer (particleBuffers (fst (animate now w h s))) (computeOut f) =
    dispatchThreads n B (particleBuffer (particleBuffers s) (computeOut f)) /\
  List.length (Kernel.particlesIn B) = n /\
  List.length (Kernel.massPoints B) = n /\
  List.length (Kernel.restTargets B) = n /\
  massCount_i32 B = Z.of_nat n /\
  seq 1 (Z.to_nat (massCount_i32 B - 1)) = seq 1 (n - 1) /\
  (0 <= neighborIdx B index step < Z.of_nat n)%Z.
Proof.
  intros Hsized Hindex Hstep B f.
  pose proof (frame_bindings_sized n now w h s Hsized)
    as (Hp & Hm & Hr & Hc).
  fold B in Hp, Hm, Hr, Hc.
  split.
  - subst B f. rewrite frame_writes_dispatch.
    destruct Hsized as (_ & _ & _ & _ & _ & Hn). rewrite Hn. reflexivity.
  - repeat (split; [assumption | ]). split.
    + rewrite Hc. f_equal. lia.
    + unfold neighborIdx, count. rewrite Hc.
      apply Z.rem_bound_pos; [ | lia].
      unfold repulsion_steps in Hstep. cbn [In] in Hstep.
      destruct Hstep as [<- | [<- | [<- | [<- | []]]]]; lia.
Qed.

Lemma sample_state_sized : sized 2 sample_state.
Proof.
  exact (initialize_sized browser_ok [] sample_options 0 sample_state
           sample_cache sample_initialize).
Qed.

Lemma frame_reads_stay_in_bounds_witness :
  sized 2 sample_state /\ (0 < 2)%nat /\ In 13%Z repulsion_steps /\
  (0 <= neighborIdx (frame_bindings 16 800 600 sample_state) 0 13 < 2)%Z.
Proof.
  assert (Hstep : In 13%Z repulsion_steps) by (cbn; tauto).
  assert (Hidx : (0 < 2)%nat) by lia.
  split; [exact sample_state_sized | ]. split; [exact Hidx | ].
  split; [exact Hstep | ].
  destruct (frame_reads_stay_in_bounds 2 16 800 600 sample_state 0 13
              sample_state_sized Hidx Hstep) as (_ & _ & _ & _ & _ & _ & H).
  exact H.
Defined.

Lemma frame_dt_bounds (now w h : R) (s : State) :
  Kernel.deltaTime (uniforms (fst (animate now w h s))) <= 0.05 /\
  (lastTime s <= now ->
   0 <= Kernel.deltaTime (uniforms (fst (animate now w h s)))
     <= (now - lastTime s) / 1000).
Proof.
  unfold animate. cbv zeta. cbn [fst uniforms Kernel.deltaTime].
  unfold Num.min. split; [apply Rmin_r | ].
  intros Hclock. split; [apply Rmin_glb; lra | apply Rmin_l].
Qed.

(** X13.  In a frame of a system whose buffers hold the particle count,
    taken with a clock that has not gone back and a hover blend factor in
    [[0, 1]], every particle the compute pass writes has speed at most 3.2,
    and lies within 0.16 of where the same particle was in the buffer the
    pass read: no particle jumps, however long the frame took. *)
Theorem frame_motion_is_bounded
        (n : nat) (now w h : R) (s : State) (i : nat) (p q : Particle) :
  sized n s ->
  lastTime s <= now ->
  0 <= hoverTransition s <= 1 ->
  let s' := fst (animate now w h s) in
  let f := snd (animate now w h s) in
  nth_error (particleBuffer (particleBuffers s') (computeOut f)) i = Some p ->
  nth_error (particleBuffer (particleBuffers s) (computeIn f)) i = Some q ->
  Vec.length (velocity p) <= 3.2 /\
  Vec.length (sub (position p) (position q)) <= 0.16.
Proof.
  intros Hsized Hclock Hh s' f Hp Hq.
  pose proof (frame_speed_limit n now w h s Hsized Hclock Hh i p Hp) as Hv.
  split; [exact Hv | ].
  pose proof (frame_bindings_sized n now w h s Hsized) as (Hlen & _).
  assert (Hi : (i < n)%nat).
  { rewrite <- Hlen. apply nth_error_Some.
    unfold frame_bindings. cbn [Kernel.particlesIn]. fold f. congruence. }
  subst s' f. rewrite frame_writes_dispatch in Hp.
  destruct Hsized as (H0 & H1 & _ & _ & _ & Hn). rewrite Hn in Hp.
  assert (Hout : List.length
                   (particleBuffer (particleBuffers s)
                      (computeOut (snd (animate now w h s)))) = n)
    by (destruct (computeOut _); cbn [particleBuffer]; assumption).
  rewrite (dispatchThreads_lookup n _ _ i Hi Hout) in Hp.
  apply (f_equal (fun o => match o with Some r => r | None => p end)) in Hp.
  cbv beta iota in Hp.
  set (B := frame_bindings now w h s) in *.
  assert (Hpart : particle B i = q).
  { unfold particle. apply nth_error_nth. exact Hq. }
  assert (Hposn : position p =
                  add (position q) (mul (velocity p) (dt B))).
  { rewrite <- Hp, <- Hpart. reflexivity. }
  rewrite Hposn.
  replace (sub (add (position q) (mul (velocity p) (dt B))) (position q))
    with (mul (velocity p) (dt B))
    by (apply Vec2_eq; cbn [vx vy add sub mul]; ring).
  rewrite length_mul.
  pose proof (frame_dt_bounds now w h s) as [Hdt_hi Hdt_lo].
  specialize (Hdt_lo Hclock).
  change (Kernel.deltaTime (uniforms (fst (animate now w h s))))
    with (dt B) in Hdt_hi, Hdt_lo.
  rewrite (Rabs_pos_eq (dt B)) by lra.
  pose proof (length_nonneg (velocity p)) as Hv0.
  nra.
Qed.

Lemma sample_state_flags :
  lastTime sample_state = 0 /\ hoverTransition sample_state = 0.
Proof.
  unfold sample_state.
  destruct (populate_flags sample_options 0
              (fst (logo_points (particleCount sample_options)
                      sample_positions (Rng.makeRng (seed sample_options)) []))
              (snd (logo_points (particleCount sample_options)
                      sample_positions (Rng.makeRng (seed sample_options)) [])))
    as (_ & _ & Hh & _ & Hl).
  split; assumption.
Qed.

Lemma frame_motion_is_bounded_witness :
  sized 2 sample_state /\
  lastTime sample_state <= 16 /\
  0 <= hoverTransition sample_state <= 1 /\
  exists p q : Particle,
    nth_error (particleBuffer
                 (particleBuffers (fst (animate 16 800 600 sample_state)))
                 (computeOut (snd (animate 16 800 600 sample_state)))) 0
      = Some p /\
    nth_error (particleBuffer (particleBuffers sample_state)
                 (computeIn (snd (animate 16 800 600 sample_state)))) 0
      = Some q /\
    Vec.length (sub (position p) (position q)) <= 0.16.
Proof.
  destruct sample_state_flags as [Hl Hh].
  assert (Hclock : lastTime sample_state <= 16) by (rewrite Hl; lra).
  assert (Hunit : 0 <= hoverTransition sample_state <= 1)
    by (rewrite Hh; lra).
  split; [exact sample_state_sized | ]. split; [exact Hclock | ].
  split; [exact Hunit | ].
  pose proof (animate_sized 2 16 800 600 sample_state sample_state_sized)
    as (A0 & A1 & _).
  pose proof sample_state_sized as (S0 & S1 & _).
  destruct (nth_error (particleBuffer
                 (particleBuffers (fst (animate 16 800 600 sample_state)))
                 (computeOut (snd (animate 16 800 600 sample_state)))) 0)
    as [p | ] eqn:Hp.
  - destruct (nth_error (particleBuffer (particleBuffers sample_state)
                 (computeIn (snd (animate 16 800 600 sample_state)))) 0)
      as [q | ] eqn:Hq.
    + exists p, q. split; [reflexivity | ]. split; [reflexivity | ].
      exact (proj2 (frame_motion_is_bounded 2 16 800 600 sample_state 0 p q
                      sample_state_sized Hclock Hunit Hp Hq)).
    + exfalso. apply nth_error_None in Hq.
      destruct (computeIn _); cbn [particleBuffer] in Hq; lia.
  - exfalso. apply nth_error_None in Hp.
    destruct (computeOut _); cbn [particleBuffer] in Hp; lia.
Defined.

(** ** The hover blend factor and the simulated time *)

Lemma animate_clock (now w h : R) (s : State) :
  lastTime (fst (animate now w h s)) = now /\
  isHovering (fst (animate now w h s)) = isHovering s /\
  time (fst (animate now w h s)) =
    time s + Kernel.deltaTime (uniforms (fst (animate now w h s))) /\
  Kernel.time (uniforms (fst (animate now w h s))) =
    time (fst (animate now w h s)) /\
  Kernel.hoverStrength (uniforms (fst (animate now w h s))) =
    hoverTransition (fst (animate now w h s)).
Proof. repeat split. Qed.

Lemma hover_step (now w h : R) (s : State) :
  0 <= hoverTransition s <= 1 ->
  let d := Kernel.deltaTime (uniforms (fst (animate now w h s))) in
  (isHovering s = true ->
   1 - hoverTransition (fst (animate now w h s))
   = (1 - hoverTransition s) * (1 - 5 * d)) /\
  (isHovering s = false ->
   hoverTransition (fst (animate now w h s))
   = hoverTransition s * (1 - 1.2 * d)).
Proof.
  intros Hh. unfold animate. cbv zeta.
  cbn [fst hoverTransition uniforms Kernel.deltaTime].
  set (d := Num.min ((now - lastTime s) / 1000) 0.05).
  split; intros Hhov; rewrite Hhov.
  - destruct (Num.gtb 1 (hoverTransition s)) eqn:Hcmp; [lra | ].
    apply ltb_false in Hcmp. assert (hoverTransition s = 1) by lra. nra.
  - destruct (Num.gtb 0 (hoverTransition s)) eqn:Hcmp; [ | lra].
    apply ltb_true in Hcmp. lra.
Qed.

Lemma run_clock (s : State) (ops : list Op) :
  monotone_from (lastTime s) ops ->
  0 <= hoverTransition s <= 1 ->
  let s' := fst (run s ops) in
  0 <= hoverTransition s' <= 1 /\
  lastTime s <= lastTime s' /\
  time s <= time s' /\
  time s' - time s <= 0.05 * INR (frames_of ops) /\
  time s' - time s <= (lastTime s' - lastTime s) / 1000.
Proof.
  revert s. induction ops as [|op ops IH]; intros s Hmono Hh.
  - cbn. unfold frames_of. cbn. lra.
  - cbv zeta. rewrite run_cons. cbn [fst].
    destruct op as [tick | hov].
    + destruct Hmono as [Hnow Hmono]. cbn [step].
      pose proof (hoverTransition_unit (now tick) (canvas_width tick)
                    (canvas_height tick) s Hnow Hh) as Hh1.
      pose proof (animate_clock (now tick) (canvas_width tick)
                    (canvas_height tick) s) as (Hl & _ & Ht & _).
      pose proof (frame_dt_bounds (now tick) (canvas_width tick)
                    (canvas_height tick) s) as [Hhi Hlo].
      specialize (Hlo Hnow).
      destruct (animate (now tick) (canvas_width tick)
                        (canvas_height tick) s) as [s1 f1].
      cbn [fst] in *. rewrite <- Hl in Hmono.
      destruct (IH s1 Hmono Hh1) as (Ih & Il & It & Ib & Iw).
      unfold frames_of in *. cbn [filter is_animate List.length].
      rewrite S_INR. rewrite Hl in *.
      repeat split; try lra.
    + cbn [step fst]. cbn [monotone_from] in Hmono.
      destruct (IH (setHovering hov s) Hmono Hh) as (Ih & Il & It & Ib & Iw).
      cbn [setHovering lastTime time] in Il, It, Ib, Iw.
      unfold frames_of in *. cbn [filter is_animate].
      repeat split; try lra.
Qed.

(** X16.  In a frame taken with a clock that has not gone back, the hover
    blend factor moves toward its target without passing it: while hovered
    its distance to 1 shrinks by the factor [1 - 5 dt], otherwise the
    factor itself shrinks by [1 - 1.2 dt], [dt] being the frame's time
    step (at most 0.05); it stays in [[0, 1]], in one frame and through
    every run of frames and [setHovering] calls with such a clock; and the
    kernel of the frame reads the new value. *)
Theorem hover_blend_approaches_target
        (now w h : R) (s : State) (ops : list Op) :
  lastTime s <= now ->
  0 <= hoverTransition s <= 1 ->
  let s' := fst (animate now w h s) in
  let d := Kernel.deltaTime (uniforms s') in
  0 <= d <= 0.05 /\
  0 <= hoverTransition s' <= 1 /\
  (isHovering s = true ->
   1 - hoverTransition s' = (1 - hoverTransition s) * (1 - 5 * d) /\
   hoverTransition s <= hoverTransition s') /\
  (isHovering s = false ->
   hoverTransition s' = hoverTransition s * (1 - 1.2 * d) /\
   hoverTransition s' <= hoverTransition s) /\
  Kernel.hoverStrength (uniforms s') = hoverTransition s' /\
  (monotone_from (lastTime s) ops ->
   0 <= hoverTransition (fst (run s ops)) <= 1).
Proof.
  intros Hclock Hh s' d.
  pose proof (frame_dt_bounds now w h s) as [Hhi Hlo].
  specialize (Hlo Hclock). fold s' d in Hhi, Hlo.
  pose proof (hoverTransition_unit now w h s Hclock Hh) as Hunit.
  fold s' in Hunit.
  pose proof (hover_step now w h s Hh) as [Hon Hoff].
  cbv zeta in Hon, Hoff. fold s' d in Hon, Hoff.
  split; [lra | ]. split; [exact Hunit | ].
  split; [ | split; [ | split]].
  - intros Hhov. specialize (Hon Hhov). split; [exact Hon | nra].
  - intros Hhov. specialize (Hoff Hhov). split; [exact Hoff | nra].
  - reflexivity.
  - intros Hmono. exact (proj1 (run_clock s ops Hmono Hh)).
Qed.

Lemma hover_blend_approaches_target_witness :
  lastTime sample_state <= 16 /\
  0 <= hoverTransition sample_state <= 1 /\
  0 <= hoverTransition (fst (animate 16 800 600 sample_state)) <= 1.
Proof.
  destruct sample_state_flags as [Hl Hh].
  assert (Hclock : lastTime sample_state <= 16) by (rewrite Hl; lra).
  assert (Hunit : 0 <= hoverTransition sample_state <= 1)
    by (rewrite Hh; lra).
  split; [exact Hclock | ]. split; [exact Hunit | ].
  exact (proj1 (proj2 (hover_blend_approaches_target 16 800 600 sample_state
                         [] Hclock Hunit))).
Defined.

(** X17.  Simulated time never runs ahead of the clock and never jumps:
    through a run whose clock readings do not go back, [time] does not
    decrease, grows by at most 0.05 per frame, and grows by at most the
    clock time that passed (in seconds); [lastTime] ends at the reading of
    the last frame.  In each frame [time] grows by exactly the [deltaTime]
    the kernel gets, which is at most 0.05 whatever the clock does. *)
Theorem simulated_time_is_clamped (s : State) (ops : list Op) (tick : Tick) :
  monotone_from (lastTime s) ops ->
  let s' := fst (run s ops) in
  let s1 := fst (animate (now tick) (canvas_width tick)
                         (canvas_height tick) s) in
  lastTime s <= lastTime s' /\
  time s <= time s' /\
  time s' - time s <= 0.05 * INR (frames_of ops) /\
  time s' - time s <= (lastTime s' - lastTime s) / 1000 /\
  time s1 = time s + Kernel.deltaTime (uniforms s1) /\
  Kernel.time (uniforms s1) = time s1 /\
  Kernel.deltaTime (uniforms s1) <= 0.05 /\
  lastTime s1 = now tick.
Proof.
  intros Hmono s' s1.
  assert (Hrun : lastTime s <= lastTime s' /\
                 time s <= time s' /\
                 time s' - time s <= 0.05 * INR (frames_of ops) /\
                 time s' - time s <= (lastTime s' - lastTime s) / 1000).
  { clear s1 tick. subst s'. revert s Hmono.
    induction ops as [|op ops IH]; intros s Hmono.
    - cbn. unfold frames_of. cbn. lra.
    - rewrite run_cons. cbn [fst]. destruct op as [tick | hov].
      + destruct Hmono as [Hnow Hmono]. cbn [step].
        pose proof (animate_clock (now tick) (canvas_width tick)
                      (canvas_height tick) s) as (Hl & _ & Ht & _).
        pose proof (frame_dt_bounds (now tick) (canvas_width tick)
                      (canvas_height tick) s) as [Hhi Hlo].
        specialize (Hlo Hnow).
        destruct (animate (now tick) (canvas_width tick)
                          (canvas_height tick) s) as [s1 f1].
        cbn [fst] in *. rewrite <- Hl in Hmono.
        destruct (IH s1 Hmono) as (Il & It & Ib & Iw).
        unfold frames_of in *. cbn [filter is_animate List.length].
        rewrite S_INR. rewrite Hl in *.
        repeat split; lra.
      + cbn [step fst]. cbn [monotone_from] in Hmono.
        destruct (IH (setHovering hov s) Hmono) as (Il & It & Ib & Iw).
        cbn [setHovering lastTime time] in Il, It, Ib, Iw.
        unfold frames_of in *. cbn [filter is_animate].
        repeat split; lra. }
  destruct Hrun as (Hl & Ht & Hb & Hw).
  repeat (split; [assumption | ]).
  pose proof (frame_dt_bounds (now tick) (canvas_width tick)
                (canvas_height tick) s) as [Hhi _].
  repeat split. exact Hhi.
Qed.

Lemma simulated_time_is_clamped_witness :
  monotone_from (lastTime sample_state)
    [Animate sample_tick; SetHovering true; Animate sample_tick] /\
  time (fst (run sample_state
               [Animate sample_tick; SetHovering true; Animate sample_tick]))
  - time sample_state <= 0.05 * INR 2.
Proof.
  destruct sample_state_flags as [Hl _].
  assert (Hmono : monotone_from (lastTime sample_state)
            [Animate sample_tick; SetHovering true; Animate sample_tick]).
  { cbn [monotone_from sample_tick now]. rewrite Hl. lra. }
  split; [exact Hmono | ].
  exact (proj1 (proj2 (proj2 (simulated_time_is_clamped sample_state
           [Animate sample_tick; SetHovering true; Animate sample_tick]
           sample_tick Hmono)))).
Defined.

(** ** The render pass *)

Lemma scale_cases (aspect : R) :
  0 < aspect ->
  (1 <= aspect /\ Render.scaleX aspect = / aspect /\ Render.scaleY aspect = 1)
  \/
  (aspect < 1 /\ Render.scaleX aspect = 1 /\ Render.scaleY aspect = aspect).
Proof.
  intros Hpos. pose proof (Rinv_0_lt_compat aspect Hpos) as Hinv.
  assert (Hmul : aspect * / aspect = 1) by (apply Rinv_r; lra).
  unfold Render.scaleX, Render.scaleY, Num.min.
  replace (1.0 / aspect) with (/ aspect) by (unfold Rdiv; lra).
  replace 1.0 with 1 by lra.
  destruct (Rle_dec 1 aspect) as [Hwide | Htall].
  - left. split; [exact Hwide | ].
    split; [apply Rmin_right; nra | apply Rmin_left; exact Hwide].
  - right. split; [lra | ].
    split; [apply Rmin_left; nra | apply Rmin_right; lra].
Qed.

(** X18.  For a positive aspect ratio the vertex shader shrinks exactly the
    wider axis: both scale factors lie in [(0, 1]], one of them is 1, and
    [scaleX * aspect = scaleY], so a length covers the same number of
    pixels along both axes and the logo stays square; the corrected
    position is the particle position plus the quad offset, scaled, at
    depth 0 with [w = 1], and never farther from the axes than the
    uncorrected one.  The colour is the grey [0.7 + 0.6 * speed], at least
    0.7, with alpha 1. *)
Theorem vertex_shader_keeps_the_logo_square
        (unif : Kernel.Uniforms) (input : Render.VertexInput) :
  0 < Kernel.aspectRatio unif ->
  let aspect := Kernel.aspectRatio unif in
  let out := Render.mainVert unif input in
  let p := add (Render.particlePos input) (Render.quadPos input) in
  let speed := Vec.length (Render.particleVel input) in
  0 < Render.scaleX aspect <= 1 /\
  0 < Render.scaleY aspect <= 1 /\
  (Render.scaleX aspect = 1 \/ Render.scaleY aspect = 1) /\
  Render.scaleX aspect * aspect = Render.scaleY aspect /\
  Render.position out =
    Render.vec4f (vx p * Render.scaleX aspect) (vy p * Render.scaleY aspect)
                 0 1 /\
  Rabs (Render.x4 (Render.position out)) <= Rabs (vx p) /\
  Rabs (Render.y4 (Render.position out)) <= Rabs (vy p) /\
  Render.color out =
    Render.vec4f (0.7 + 0.6 * speed) (0.7 + 0.6 * speed) (0.7 + 0.6 * speed) 1
  /\
  0.7 <= 0.7 + 0.6 * speed.
Proof.
  intros Hpos aspect out p speed. fold aspect in Hpos.
  pose proof (Rinv_0_lt_compat aspect Hpos) as Hinv.
  assert (Hmul : aspect * / aspect = 1) by (apply Rinv_r; lra).
  assert (Hsx : 0 < Render.scaleX aspect <= 1 /\
                0 < Render.scaleY aspect <= 1 /\
                (Render.scaleX aspect = 1 \/ Render.scaleY aspect = 1) /\
                Render.scaleX aspect * aspect = Render.scaleY aspect).
  { destruct (scale_cases aspect Hpos) as [(Hw & -> & ->) | (Ht & -> & ->)].
    - repeat split; try lra; try nra.
    - repeat split; try lra. }
  destruct Hsx as (Hx & Hy & Hone & Hsq).
  repeat (split; [assumption | ]).
  split; [reflexivity | ].
  assert (Hshrink : forall v k : R, 0 < k <= 1 -> Rabs (v * k) <= Rabs v).
  { intros v k Hk. rewrite Rabs_mult, (Rabs_pos_eq k) by lra.
    pose proof (Rabs_pos v). nra. }
  split; [apply Hshrink; exact Hx | ].
  split; [apply Hshrink; exact Hy | ].
  pose proof (length_nonneg (Render.particleVel input)) as Hs.
  fold speed in Hs.
  split; [ | lra].
  unfold out, Render.mainVert. cbv zeta. cbn [Render.color].
  fold speed. unfold mix.
  replace (0.7 * (1 - speed * 2.0) + 1.0 * (speed * 2.0))
    with (0.7 + 0.6 * speed) by lra.
  reflexivity.
Qed.

Lemma vertex_shader_keeps_the_logo_square_witness :
  0 < Kernel.aspectRatio (Kernel.uniforms resting) /\
  Render.scaleX (Kernel.aspectRatio (Kernel.uniforms resting))
    * Kernel.aspectRatio (Kernel.uniforms resting)
  = Render.scaleY (Kernel.aspectRatio (Kernel.uniforms resting)).
Proof.
  assert (Hpos : 0 < Kernel.aspectRatio (Kernel.uniforms resting))
    by (cbn; lra).
  split; [exact Hpos | ].
  destruct (vertex_shader_keeps_the_logo_square (Kernel.uniforms resting)
              {| Render.quadPos := vec2f 0 0;
                 Render.particlePos := vec2f 0 0;
                 Render.particleVel := vec2f 0 0 |} Hpos)
    as (_ & _ & _ & Hsq & _).
  exact Hsq.
Defined.

Lemma uv_length (unif : Kernel.Uniforms) (input : Render.VertexInput) :
  Vec.length (Render.uv (Render.mainVert unif input)) =
  Vec.length (Render.quadPos input) / Render.quadSize.
Proof.
  unfold Render.mainVert. cbv zeta. cbn [Render.uv].
  rewrite length_mul. unfold Render.quadSize.
  replace (1.0 / 0.006) with (/ 0.006) by (unfold Rdiv; lra).
  rewrite Rabs_pos_eq by lra. reflexivity.
Qed.

Lemma corner_length (q : Vec2) :
  In q Render.quadVertices -> Render.quadSize <= Vec.length q.
Proof.
  intros Hin.
  assert (Hdot : dot q q = 2 * (Render.quadSize * Render.quadSize)).
  { unfold Render.quadVertices in Hin. cbn [In] in Hin.
    destruct Hin as [<- | [<- | [<- | [<- | [<- | [<- | []]]]]]];
      unfold dot; cbn [vx vy]; ring. }
  assert (Hq : 0 < Render.quadSize) by (unfold Render.quadSize; lra).
  pose proof (length_sq q) as Hl. pose proof (length_nonneg q) as Hn.
  rewrite Hdot in Hl.
  destruct (Rle_dec Render.quadSize (Vec.length q)) as [Hle | Hgt];
    [exact Hle | ].
  exfalso. nra.
Qed.

(** X19.  A particle is drawn as a soft disc of radius [quadSize] around
    its position.  For a fragment at offset [quadPos] from the centre (the
    shader's [uv] is this offset over [quadSize], as interpolation keeps
    it), with [r] the length of the offset: when [r < quadSize] the
    fragment has the vertex colour and the alpha [(1 - r / quadSize)^3],
    which lies in [(0, 1]] and is 1 at the centre; when [r >= quadSize] it
    is fully transparent black, and so it is at the six vertices of the
    quad. *)
Theorem particle_is_a_soft_disc
        (unif : Kernel.Uniforms) (input : Render.VertexInput) :
  let v := Render.mainVert unif input in
  let out := Render.mainFrag v in
  let r := Vec.length (Render.quadPos input) in
  (r < Render.quadSize ->
   out = Render.vec4f (Render.x4 (Render.color v)) (Render.y4 (Render.color v))
                      (Render.z4 (Render.color v))
                      ((1 - r / Render.quadSize) * (1 - r / Render.quadSize)
                       * (1 - r / Render.quadSize)) /\
   0 < Render.w4 out <= 1) /\
  (Render.quadSize <= r -> out = Render.vec4f 0 0 0 0) /\
  (Render.quadPos input = vec2f 0 0 -> Render.w4 out = 1) /\
  (In (Render.quadPos input) Render.quadVertices ->
   out = Render.vec4f 0 0 0 0).
Proof.
  intros v out r.
  assert (Hq : 0 < Render.quadSize) by (unfold Render.quadSize; lra).
  pose proof (Rinv_0_lt_compat _ Hq) as Hinv.
  assert (Hmul : Render.quadSize * / Render.quadSize = 1)
    by (apply Rinv_r; lra).
  pose proof (uv_length unif input) as Huv. fold v r in Huv.
  pose proof (length_nonneg (Render.quadPos input)) as Hr. fold r in Hr.
  assert (Hinside : r < Render.quadSize ->
            out = Render.vec4f (Render.x4 (Render.color v))
                    (Render.y4 (Render.color v)) (Render.z4 (Render.color v))
                    ((1 - r / Render.quadSize) * (1 - r / Render.quadSize)
                     * (1 - r / Render.quadSize))).
  { intros Hin. unfold out, Render.mainFrag. cbv zeta. rewrite Huv.
    assert (Hlt : r / Render.quadSize < 1.0) by (unfold Rdiv; nra).
    rewrite (proj2 (ltb_true _ _) Hlt). unfold select.
    replace 1.0 with 1 by lra. reflexivity. }
  assert (Houtside : Render.quadSize <= r -> out = Render.vec4f 0 0 0 0).
  { intros Hout. unfold out, Render.mainFrag. cbv zeta. rewrite Huv.
    assert (Hge : 1.0 <= r / Render.quadSize) by (unfold Rdiv; nra).
    rewrite (proj2 (ltb_false _ _) Hge). reflexivity. }
  split; [ | split; [exact Houtside | split]].
  - intros Hin. split; [apply Hinside; exact Hin | ].
    rewrite (Hinside Hin). cbn [Render.w4].
    assert (Ha : 0 < 1 - r / Render.quadSize <= 1) by (unfold Rdiv; nra).
    set (a := 1 - r / Render.quadSize) in *.
    assert (Haa : 0 < a * a <= 1) by nra.
    split.
    + apply Rmult_lt_0_compat; lra.
    + replace 1 with (1 * 1) by ring.
      apply Rmult_le_compat; lra.
  - intros Hcentre.
    assert (Hr0 : r = 0) by (unfold r; rewrite Hcentre; apply length_zero).
    rewrite (Hinside ltac:(lra)). cbn [Render.w4]. rewrite Hr0.
    unfold Rdiv. nra.
  - intros Hcorner. apply Houtside. apply corner_length. exact Hcorner.
Qed.

Lemma particle_is_a_soft_disc_witness :
  Vec.length (vec2f 0 0) < Render.quadSize /\
  0 < Render.w4 (Render.mainFrag
                   (Render.mainVert (Kernel.uniforms resting)
                      {| Render.quadPos := vec2f 0 0;
                         Render.particlePos := vec2f 0 0;
                         Render.particleVel := vec2f 0 0 |})) <= 1.
Proof.
  assert (Hin : Vec.length (vec2f 0 0) < Render.quadSize)
    by (rewrite length_zero; unfold Render.quadSize; lra).
  split; [exact Hin | ].
  exact (proj2 (proj1 (particle_is_a_soft_disc (Kernel.uniforms resting)
           {| Render.quadPos := vec2f 0 0;
              Render.particlePos := vec2f 0 0;
              Render.particleVel := vec2f 0 0 |}) Hin)).
Defined.

(** ** The page after initialization *)

Lemma initialize_without_webgpu (env : Browser) (c : Cache) (opts : Options)
      (now0 : R) :
  tgpu_init env = false \/ webgpu_context env = false ->
  initialize env c opts now0 =
  (inl (if tgpu_init env then WebGPUNotSupported else Rejected), c).
Proof.
  intros Hmissing. unfold initialize.
  destruct (tgpu_init env); cbn [negb]; [ | reflexivity].
  destruct Hmissing as [Hinit | Hctx]; [discriminate | ].
  rewrite Hctx. reflexivity.
Qed.

(** ** How many draws initialization takes *)

Lemma state_after_add (a b : nat) (s : Rng.state) :
  state_after (a + b) s = state_after b (state_after a s).
Proof.
  unfold state_after. revert s. induction b as [|b IH]; intros s.
  - rewrite Nat.add_0_r. reflexivity.
  - rewrite Nat.add_succ_r, !Nat.iter_succ, IH. reflexivity.
Qed.

Lemma logo_point_state (positions : list Vec2) (s : Rng.state) :
  snd (logo_point positions s) = state_after 3 s.
Proof.
  unfold logo_point, state_after. cbn [Nat.iter nat_rect].
  destruct (Rng.next s) as [r0 s0]. cbn [snd].
  destruct (Rng.next s0) as [r1 s1]. cbn [snd].
  destruct (Rng.next s1) as [r2 s2]. reflexivity.
Qed.

Lemma logo_points_split (n k : nat) (positions : list Vec2)
      (s : Rng.state) (acc : list Vec2) :
  logo_points (n + k) positions s acc =
  logo_points k positions (snd (logo_points n positions s acc))
              (fst (logo_points n positions s acc)).
Proof.
  revert s acc. induction n as [|n IH]; intros s acc.
  - reflexivity.
  - cbn [Nat.add logo_points].
    destruct (logo_point positions s) as [p s']. apply IH.
Qed.

Lemma logo_points_acc (n : nat) (positions : list Vec2)
      (s : Rng.state) (acc : list Vec2) :
  fst (logo_points n positions s acc) =
    acc ++ fst (logo_points n positions s []) /\
  snd (logo_points n positions s acc) = state_after (3 * n) s.
Proof.
  revert s acc. induction n as [|n IH]; intros s acc.
  - cbn. rewrite app_nil_r. split; reflexivity.
  - cbn [logo_points].
    pose proof (logo_point_state positions s) as Hs.
    destruct (logo_point positions s) as [p s']. cbn [snd] in Hs.
    destruct (IH s' (acc ++ [p])) as [Hf Hn].
    destruct (IH s' ([] ++ [p])) as [Hf0 _].
    rewrite Hf, Hf0, Hn, Hs. split.
    + rewrite <- app_assoc. reflexivity.
    + replace (3 * S n)%nat with (3 + 3 * n)%nat by lia.
      symmetry. apply state_after_add.
Qed.

Lemma rest_positions_state (maxOffset : R) (mass : list Vec2)
      (s : Rng.state) :
  snd (rest_positions maxOffset mass s) =
  state_after (2 * List.length mass) s.
Proof.
  revert s. induction mass as [|t mass IH]; intros s.
  - reflexivity.
  - cbn [rest_positions List.length].
    replace (2 * S (List.length mass))%nat
      with (2 + 2 * List.length mass)%nat by lia.
    rewrite state_after_add. unfold state_after at 2.
    cbn [Nat.iter nat_rect].
    destruct (Rng.next s) as [r0 s0]. cbn [snd].
    destruct (Rng.next s0) as [r1 s1]. cbn [snd].
    specialize (IH s1).
    destruct (rest_positions maxOffset mass s1) as [rests s2].
    cbn [snd] in *. exact IH.
Qed.

(** X21.  [generateLogoPoints] takes exactly three draws per point and the
    rest positions two per mass point, so initialization with [n] particles
    leaves the generator where [5 n] draws from the seed lead.  The points
    are drawn one after another: asking for [n + k] points gives the [n]
    points first and then what [k] points drawn from the state after give;
    a larger particle count keeps the mass points of a smaller one. *)
Theorem draws_are_taken_in_sequence
        (n k : nat) (positions : list Vec2) (seed : Z) (maxOffset : R) :
  let s := Rng.makeRng seed in
  let points := fst (logo_points n positions s []) in
  snd (logo_points n positions s []) = state_after (3 * n) s /\
  fst (logo_points (n + k) positions s []) =
    points ++ fst (logo_points k positions (state_after (3 * n) s) []) /\
  firstn n (fst (logo_points (n + k) positions s [])) = points /\
  snd (rest_positions maxOffset points
         (snd (logo_points n positions s [])))
  = Rng.u32 (seed + Z.of_nat (5 * n) * 0x6d2b79f5).
Proof.
  cbv zeta. set (s := Rng.makeRng seed).
  destruct (logo_points_acc n positions s []) as [_ Hstate].
  assert (Hsplit : fst (logo_points (n + k) positions s []) =
                   fst (logo_points n positions s []) ++
                   fst (logo_points k positions (state_after (3 * n) s) [])).
  { rewrite logo_points_split, Hstate.
    apply (proj1 (logo_points_acc k positions _ _)). }
  split; [exact Hstate | ]. split; [exact Hsplit | ]. split.
  - rewrite Hsplit.
    pose proof (logo_points_length n positions s []) as Hlen.
    cbn [List.length Nat.add] in Hlen.
    rewrite <- Hlen at 1. rewrite firstn_app, firstn_all, Nat.sub_diag.
    cbn [firstn]. apply app_nil_r.
  - rewrite rest_positions_state, Hstate, <- state_after_add.
    pose proof (logo_points_length n positions s []) as Hlen.
    cbn [List.length Nat.add] in Hlen. rewrite Hlen.
    replace (3 * n + 2 * n)%nat with (5 * n)%nat by lia.
    apply state_after_makeRng.
Qed.

(** ** The further properties at concrete inputs *)

Lemma load_is_cached_for_good_witness :
  1 <> 5 /\
  cache_get (snd (loadLogoPixelPositions logo_ok [] 5)) 1 = cache_get [] 1.
Proof.
  assert (Hne : 1 <> 5) by lra.
  split; [exact Hne | ].
  exact (proj2 (proj2 (load_is_cached_for_good logo_ok logo_ok [] 5 1)) Hne).
Defined.

Lemma clear_pixel_alpha (x y : Z) :
  (0 <= x < width clear_pixel)%Z -> (0 <= y < height clear_pixel)%Z ->
  (alpha clear_pixel x y <= 0)%Z.
Proof.
  intros Hx Hy. change (width clear_pixel) with 1%Z in Hx.
  change (height clear_pixel) with 1%Z in Hy.
  assert (x = 0%Z) by lia. assert (y = 0%Z) by lia. subst.
  vm_compute. discriminate.
Qed.

Lemma load_error_names_the_cause_witness :
  (exists b,
      decoded {| decoded := Some clear_pixel; context2d := true |} = Some b /\
      context2d {| decoded := Some clear_pixel; context2d := true |} = true /\
      forall x y : Z, (0 <= x < width b)%Z -> (0 <= y < height b)%Z ->
                      (alpha b x y <= 0)%Z) /\
  computeLogoPixelPositions
    {| decoded := Some clear_pixel; context2d := true |} 5
  = inl LogoMaskEmpty.
Proof.
  assert (Hclear :
    exists b,
      decoded {| decoded := Some clear_pixel; context2d := true |} = Some b /\
      context2d {| decoded := Some clear_pixel; context2d := true |} = true /\
      forall x y : Z, (0 <= x < width b)%Z -> (0 <= y < height b)%Z ->
                      (alpha b x y <= 0)%Z).
  { exists clear_pixel. split; [reflexivity | ]. split; [reflexivity | ].
    exact clear_pixel_alpha. }
  split; [exact Hclear | ].
  destruct (load_error_names_the_cause
              {| decoded := Some clear_pixel; context2d := true |} 5)
    as (_ & _ & Hempty & _).
  exact (proj2 Hempty Hclear).
Defined.

Lemma candidate_multiplicity_witness :
  0.5 < 2 /\ Z.to_nat (borderWeight 0.5) = 1%nat.
Proof.
  assert (Hlow : 0.5 < 2) by lra.
  split; [exact Hlow | ].
  destruct (candidate_multiplicity block3 0.5) as (_ & _ & Hone & _).
  exact (Hone Hlow).
Defined.

Lemma nearest_search_finds_nearest_witness :
  (Z.of_nat (S (Z.to_nat (massCount_i32 resting - 1)))
   <= Z.of_nat (List.length (Kernel.massPoints resting)))%Z /\
  In (nearest (nearest_search resting 0)) (Kernel.massPoints resting).
Proof.
  assert (Hlen : (Z.of_nat (S (Z.to_nat (massCount_i32 resting - 1)))
                  <= Z.of_nat (List.length (Kernel.massPoints resting)))%Z).
  { rewrite resting_count. cbn. lia. }
  split; [exact Hlen | ].
  destruct (nearest_search_finds_nearest resting 0)
    as (j & _ & _ & _ & _ & _ & _ & Hin).
  exact (Hin Hlen).
Defined.

(** ** The rest points, draw by draw *)

Lemma state_after_two (s : Rng.state) :
  state_after 2 s = snd (Rng.next (snd (Rng.next s))).
Proof. reflexivity. Qed.

(** Rest position [i] is mass point [i] moved by the polar offset whose
    angle and radius come from draws [2 i] and [2 i + 1] of the generator
    as the map receives it. *)
Lemma rest_positions_nth (maxOffset : R) (mass : list Vec2) :
  forall (s : Rng.state) (i : nat) (t r : Vec2),
    nth_error mass i = Some t ->
    nth_error (fst (rest_positions maxOffset mass s)) i = Some r ->
    polar_offset t r
      (fst (Rng.next (state_after (2 * i) s)) * PI * 2)
      (fst (Rng.next (snd (Rng.next (state_after (2 * i) s)))) * maxOffset).
Proof.
  induction mass as [|t0 mass IH]; intros s i t r Ht Hr.
  - destruct i; discriminate.
  - cbn [rest_positions] in Hr.
    destruct i as [|i].
    + change (state_after (2 * 0) s) with s.
      destruct (Rng.next s) as [r0 s0]. cbn [fst snd].
      destruct (Rng.next s0) as [r1 s1]. cbn [fst snd].
      destruct (rest_positions maxOffset mass s1) as [rests s2].
      cbn [fst nth_error] in Hr. cbn [nth_error] in Ht.
      inversion Ht; inversion Hr; subst. split; reflexivity.
    + replace (2 * S i)%nat with (2 + 2 * i)%nat by lia.
      rewrite state_after_add, state_after_two.
      destruct (Rng.next s) as [r0 s0]. cbn [fst snd].
      destruct (Rng.next s0) as [r1 s1]. cbn [fst snd].
      specialize (IH s1 i t r).
      destruct (rest_positions maxOffset mass s1) as [rests s2].
      cbn [fst nth_error] in Hr. cbn [nth_error] in Ht.
      cbn [fst] in IH. exact (IH Ht Hr).
Qed.

Lemma polar_offset_as_vector (t r : Vec2) (angle radius : R) :
  polar_offset t r angle radius <->
  r = add t (mul (vec2f (cos angle) (sin angle)) radius).
Proof.
  unfold polar_offset. split.
  - intros [Hx Hy]. apply Vec2_eq; cbn [vx vy add mul]; assumption.
  - intros ->. split; reflexivity.
Qed.

(** C7.  In the system [createParticleSystem] returns for [n] particles,
    rest point [i] is mass point [i] plus the polar offset
    [(cos angle, sin angle) * radius], where the angle is a draw of the
    seeded generator times [2 PI] and the radius the next draw times
    [scatter]: they are draws [3 n + 2 i] and [3 n + 2 i + 1] of
    [makeRng(seed)] (counted from 0), each in [[0, 1)].  The distance of
    the rest point from its mass point is the absolute value of the
    radius; so for a [scatter] that is not negative the radius lies in
    [[0, scatter]] and the distance is at most [scatter]. *)
Theorem C7_rest_within_scatter
        (env : Browser) (c : Cache) (opts : Options) (now0 : R)
        (first : Tick) (s : State) (f : Frame) (c' : Cache) :
  createParticleSystem env c opts now0 first = (inr (s, f), c') ->
  List.length (restBuffer s) = List.length (massBuffer s) /\
  forall (i : nat) (t r : Vec2),
    nth_error (massBuffer s) i = Some t ->
    nth_error (restBuffer s) i = Some r ->
    let g := state_after (3 * particleCount opts + 2 * i)
                         (Rng.makeRng (seed opts)) in
    let draw_angle := fst (Rng.next g) in
    let draw_radius := fst (Rng.next (snd (Rng.next g))) in
    let angle := draw_angle * PI * 2 in
    let radius := draw_radius * scatter opts in
    g = Rng.u32 (seed opts
                 + Z.of_nat (3 * particleCount opts + 2 * i) * 0x6d2b79f5) /\
    0 <= draw_angle < 1 /\
    0 <= draw_radius < 1 /\
    r = add t (mul (vec2f (cos angle) (sin angle)) radius) /\
    Vec.length (sub r t) = Rabs radius /\
    Rabs radius <= Rabs (scatter opts) /\
    (0 <= scatter opts ->
     0 <= radius <= scatter opts /\
     Vec.length (sub r t) <= scatter opts).
Proof.
  intros Hcreate.
  apply createParticleSystem_success in Hcreate as (s0 & Hinit & Hfirst).
  pose proof (animate_static (now first) (canvas_width first)
                             (canvas_height first) s0) as (Hm0 & Hr0 & _).
  rewrite Hfirst in Hm0, Hr0. cbn [fst] in Hm0, Hr0. rewrite Hm0, Hr0.
  apply initialize_success in Hinit as (_ & _ & positions & _ & ->).
  set (pts := logo_points _ _ _ _).
  assert (Hlen : List.length (fst pts) = particleCount opts)
    by (unfold pts; rewrite logo_points_length; reflexivity).
  assert (Hstate : snd pts =
                   state_after (3 * particleCount opts)
                               (Rng.makeRng (seed opts)))
    by (unfold pts; apply (proj2 (logo_points_acc _ _ _ _))).
  pose proof (populate_buffers opts now0 (fst pts) (snd pts) Hlen)
    as (Hm & Hr & _).
  rewrite Hm, Hr. split; [apply rest_positions_length | ].
  intros i t r Ht Hrest.
  pose proof (rest_positions_nth (scatter opts) (fst pts) (snd pts)
                                 i t r Ht Hrest) as Hpolar.
  rewrite Hstate, <- state_after_add in Hpolar.
  cbv zeta.
  set (g := state_after (3 * particleCount opts + 2 * i)
                        (Rng.makeRng (seed opts))) in *.
  pose proof (next_range g) as Hda.
  pose proof (next_range (snd (Rng.next g))) as Hdr.
  set (draw_angle := fst (Rng.next g)) in *.
  set (draw_radius := fst (Rng.next (snd (Rng.next g)))) in *.
  set (radius := draw_radius * scatter opts) in *.
  pose proof (polar_distance t r _ _ Hpolar) as Hdist.
  assert (Habs : Rabs radius = draw_radius * Rabs (scatter opts)).
  { unfold radius. rewrite Rabs_mult, (Rabs_pos_eq draw_radius) by lra.
    reflexivity. }
  pose proof (Rabs_pos (scatter opts)) as Hsc.
  split; [unfold g; apply state_after_makeRng | ].
  split; [exact Hda | ]. split; [exact Hdr | ].
  split; [apply polar_offset_as_vector; exact Hpolar | ].
  split; [exact Hdist | ].
  split; [rewrite Habs; nra | ].
  intros Hnonneg. rewrite Hdist, Habs.
  rewrite (Rabs_pos_eq (scatter opts) Hnonneg). unfold radius.
  repeat split; nra.
Qed.

Lemma C7_rest_within_scatter_witness :
  createParticleSystem browser_ok [] sample_options 0 sample_tick =
    (inr (sample_running, sample_frame), sample_cache) /\
  0 <= scatter sample_options /\
  forall (i : nat) (t r : Vec2),
    nth_error (massBuffer sample_running) i = Some t ->
    nth_error (restBuffer sample_running) i = Some r ->
    Vec.length (sub r t) <= 0.3.
Proof.
  assert (Hsc : 0 <= scatter sample_options) by (cbn; lra).
  split; [exact sample_system | ]. split; [exact Hsc | ].
  intros i t r Ht Hr.
  destruct (proj2 (C7_rest_within_scatter browser_ok [] sample_options 0
                     sample_tick sample_running sample_frame sample_cache
                     sample_system) i t r Ht Hr)
    as (_ & _ & _ & _ & _ & _ & Hin).
  exact (proj2 (Hin Hsc)).
Defined.

Lemma next_as_u32 (s : Rng.state) :
  Rng.next s = (IZR (fst (Rng.next_u32 s)) / 4294967296, snd (Rng.next_u32 s)).
Proof. unfold Rng.next. destruct (Rng.next_u32 s). reflexivity. Qed.

(** In the sample system the first rest point is its mass point moved by
    the radius [3272206421 / 2^32 * 0.3], the eighth draw for the seed
    409969 times the scatter, at the angle of the seventh draw: the offset
    is there. *)
Example sample_first_rest_point (t r : Vec2) :
  nth_error (massBuffer sample_running) 0 = Some t ->
  nth_error (restBuffer sample_running) 0 = Some r ->
  r = add t (mul (vec2f (cos (IZR 636074088 / 4294967296 * PI * 2))
                        (sin (IZR 636074088 / 4294967296 * PI * 2)))
                 (IZR 3272206421 / 4294967296 * 0.3)) /\
  Vec.length (sub r t) = IZR 3272206421 / 4294967296 * 0.3 /\
  r <> t.
Proof.
  intros Ht Hr.
  assert (Hcreate := sample_system).
  apply createParticleSystem_success in Hcreate as (s0 & Hinit & Hfirst).
  rewrite sample_initialize in Hinit. inversion Hinit; subst s0. clear Hinit.
  assert (Hm : massBuffer sample_running = massBuffer sample_state)
    by reflexivity.
  assert (Hrb : restBuffer sample_running = restBuffer sample_state)
    by reflexivity.
  rewrite Hm in Ht. rewrite Hrb in Hr. unfold sample_state in Ht, Hr.
  set (pts := logo_points _ _ _ _) in *.
  assert (Hlen : List.length (fst pts) = particleCount sample_options)
    by (unfold pts; rewrite logo_points_length; reflexivity).
  assert (Hstate : snd pts =
                   state_after (3 * particleCount sample_options)
                               (Rng.makeRng (seed sample_options)))
    by (unfold pts; apply (proj2 (logo_points_acc _ _ _ _))).
  pose proof (populate_buffers sample_options 0 (fst pts) (snd pts) Hlen)
    as (Hpm & Hpr & _).
  rewrite Hpm in Ht. rewrite Hpr in Hr.
  pose proof (rest_positions_nth (scatter sample_options) (fst pts) (snd pts)
                                 0 t r Ht Hr) as Hpolar.
  rewrite Hstate, <- state_after_add, state_after_makeRng in Hpolar.
  rewrite !next_as_u32 in Hpolar. cbn [fst snd] in Hpolar.
  change (Rng.u32 (seed sample_options
                   + Z.of_nat (3 * particleCount sample_options + 2 * 0)
                     * 0x6d2b79f5))
    with 2399870255%Z in Hpolar.
  change (fst (Rng.next_u32 2399870255%Z)) with 636074088%Z in Hpolar.
  change (snd (Rng.next_u32 2399870255%Z)) with 4231436068%Z in Hpolar.
  change (fst (Rng.next_u32 4231436068%Z)) with 3272206421%Z in Hpolar.
  change (scatter sample_options) with 0.3 in Hpolar.
  pose proof (polar_distance t r _ _ Hpolar) as Hdist.
  rewrite Rabs_pos_eq in Hdist by lra.
  split; [apply polar_offset_as_vector; exact Hpolar | ].
  split; [exact Hdist | ].
  intros ->.
  assert (Hzero : Vec.length (sub t t) = 0).
  { replace (sub t t) with (vec2f 0 0)
      by (apply Vec2_eq; cbn [vx vy sub]; ring).
    apply length_zero. }
  lra.
Qed.

(** ** Errors of initialization, whatever the cache holds *)

Lemma logo_load_cached (env : Browser) (c : Cache) (opts : Options) :
  logo_load env c opts =
  match cache_get c (edgeWeight opts) with
  | Some cached => cached
  | None => computeLogoPixelPositions (logo env) (edgeWeight opts)
  end.
Proof.
  unfold logo_load, loadLogoPixelPositions.
  destruct (cache_get c (edgeWeight opts)); reflexivity.
Qed.

Lemma initialize_outcome (env : Browser) (c : Cache) (opts : Options)
      (now0 : R) :
  fst (initialize env c opts now0) =
  (if negb (tgpu_init env) then inl Rejected
   else if negb (webgpu_context env) then inl WebGPUNotSupported
   else
     match logo_load env c opts with
     | inl e => inl e
     | inr positions =>
         inr (populate opts now0
                (fst (logo_points (particleCount opts) positions
                                  (Rng.makeRng (seed opts)) []))
                (snd (logo_points (particleCount opts) positions
                                  (Rng.makeRng (seed opts)) [])))
     end).
Proof.
  unfold initialize, generateLogoPoints, logo_load.
  destruct (tgpu_init env); cbn [negb]; [ | reflexivity].
  destruct (webgpu_context env); cbn [negb]; [ | reflexivity].
  destruct (loadLogoPixelPositions (logo env) c (edgeWeight opts))
    as [[e | positions] c1]; cbn [fst]; [reflexivity | ].
  destruct (logo_points (particleCount opts) positions
                        (Rng.makeRng (seed opts)) []) as [pts rng].
  reflexivity.
Qed.

Lemma created_fails_iff (env : Browser) (c : Cache) (opts : Options)
      (now0 : R) (first : Tick) :
  (exists e, fst (createParticleSystem env c opts now0 first) = inl e) <->
  webgpu_available env = false \/ exists e, logo_load env c opts = inl e.
Proof.
  rewrite (proj1 (createParticleSystem_fst env c opts now0 first)).
  rewrite initialize_outcome. unfold webgpu_available.
  destruct (tgpu_init env); cbn [negb andb];
    [ | split; [intros _; left; reflexivity | intros _; eexists; reflexivity]].
  destruct (webgpu_context env); cbn [negb];
    [ | split; [intros _; left; reflexivity | intros _; eexists; reflexivity]].
  destruct (logo_load env c opts) as [e | positions].
  - split; [intros _; right; exists e; reflexivity
           | intros _; eexists; reflexivity].
  - split; [intros [e He]; discriminate | ].
    intros [Hw | [e He]]; discriminate.
Qed.

Lemma created_error_kind (env : Browser) (c : Cache) (opts : Options)
      (now0 : R) (first : Tick) (e : Error) :
  fst (createParticleSystem env c opts now0 first) = inl e ->
  (webgpu_available env = false /\
   (e = Rejected \/ e = WebGPUNotSupported)) \/
  (webgpu_available env = true /\ logo_load env c opts = inl e).
Proof.
  rewrite (proj1 (createParticleSystem_fst env c opts now0 first)).
  rewrite initialize_outcome. unfold webgpu_available.
  destruct (tgpu_init env); cbn [negb andb];
    [ | intros He; inversion He; left; tauto].
  destruct (webgpu_context env); cbn [negb];
    [ | intros He; inversion He; left; tauto].
  destruct (logo_load env c opts) as [e0 | positions]; [ | discriminate].
  intros He. inversion He; subst e0. right. split; reflexivity.
Qed.

Lemma logo_load_fails_iff (env : Browser) (c : Cache) (opts : Options) :
  cache_get c (edgeWeight opts) = None \/ cache_consistent (logo env) c ->
  ((exists e, logo_load env c opts = inl e) <->
   logo_usable (logo env) = false) /\
  (forall e, logo_load env c opts = inl e ->
             e = Rejected \/ e = LogoMaskUnavailable \/ e = LogoMaskEmpty).
Proof.
  intros Hcache.
  assert (Hload : logo_load env c opts =
                  computeLogoPixelPositions (logo env) (edgeWeight opts)).
  { rewrite logo_load_cached.
    destruct (cache_get c (edgeWeight opts)) as [cached | ] eqn:Hget;
      [ | reflexivity].
    destruct Hcache as [Hnone | Hcons]; [discriminate | ].
    apply Hcons. exact Hget. }
  rewrite Hload. split.
  - pose proof (computeLogoPixelPositions_usable (logo env) (edgeWeight opts))
      as Husable.
    destruct (computeLogoPixelPositions (logo env) (edgeWeight opts))
      as [e | positions] eqn:Hcomp.
    + apply computeLogoPixelPositions_error in Hcomp as [Hu _].
      split; [intros _; exact Hu | intros _; exists e; reflexivity].
    + assert (Hu : logo_usable (logo env) = true)
        by (apply Husable; exists positions; reflexivity).
      split; [intros [e He]; discriminate | congruence].
  - intros e He. apply computeLogoPixelPositions_error in He. tauto.
Qed.

(** No frame throws: the bind group and the buffers a frame looks up are
    always there. *)
Lemma animate_checked_total (now w h : R) (s : State) :
  animate_checked now w h s = Some (animate now w h s).
Proof.
  unfold animate_checked. destruct (even s); reflexivity.
Qed.

Lemma run_checked_total (s : State) (ops : list Op) :
  run_checked s ops = Some (run s ops).
Proof.
  revert s. induction ops as [|op ops IH]; intros s; [reflexivity | ].
  cbn [run_checked run]. destruct op as [tick | hov]; cbn [step_checked step].
  - rewrite animate_checked_total.
    destruct (animate (now tick) (canvas_width tick) (canvas_height tick) s)
      as [s1 f1].
    rewrite IH. destruct (run s1 ops). reflexivity.
  - rewrite IH. destruct (run (setHovering hov s) ops). reflexivity.
Qed.

Lemma stale_cache_entry :
  stale_cache = [(edgeWeight sample_options, inl Rejected)].
Proof. reflexivity. Qed.

(** C8, as stated, fails.  The page's first initialization ran while the
    logo could not be fetched, which left the rejected load in the cache
    for this [edgeWeight].  In a browser where WebGPU is available and the
    logo decodes into a usable mask, the next initialization with this
    cache still raises the error: it fails although neither of the two
    conditions holds. *)
Lemma C8_stale_cache_counterexample :
  snd (createParticleSystem
         {| logo := {| decoded := None; context2d := true |};
            navigator_gpu := true; tgpu_init := true;
            webgpu_context := true |} [] sample_options 0 sample_tick)
    = stale_cache /\
  webgpu_available browser_ok = true /\
  logo_usable (logo browser_ok) = true /\
  fst (createParticleSystem browser_ok stale_cache sample_options 0
                            sample_tick) = inl Rejected /\
  ~ ((exists e,
         fst (createParticleSystem browser_ok stale_cache sample_options 0
                                   sample_tick) = inl e) <->
     webgpu_available browser_ok = false \/
     logo_usable (logo browser_ok) = false).
Proof.
  assert (Hfail : fst (createParticleSystem browser_ok stale_cache
                         sample_options 0 sample_tick) = inl Rejected).
  { rewrite (proj1 (createParticleSystem_fst _ _ _ _ _)), initialize_outcome.
    rewrite logo_load_cached, stale_cache_entry. cbn [cache_get].
    destruct (Req_dec_T (edgeWeight sample_options)
                        (edgeWeight sample_options)) as [_ | Hne];
      [reflexivity | contradiction]. }
  split; [reflexivity | ]. split; [reflexivity | ].
  split; [reflexivity | ]. split; [exact Hfail | ].
  intros [Hif _].
  destruct (Hif (ex_intro _ Rejected Hfail)) as [Hw | Hl]; discriminate.
Qed.

(** C8, amended.  [createParticleSystem] raises an error if and only if
    WebGPU is unavailable (the library cannot initialize, or the canvas
    gives no WebGPU context) or the load of the logo for the requested
    [edgeWeight] fails.  The load gives the outcome cached for this
    [edgeWeight] when there is one, a failure of an earlier attempt
    included, and otherwise fails exactly when the logo does not decode
    into a usable mask (it cannot be fetched and decoded, no 2D context
    reads it back, or it has no opaque pixel).  So on a first load, and
    whenever the cache holds nothing but what loading the logo in this
    browser gives, initialization fails exactly when one of the two
    conditions holds.  The error raised belongs to the condition that
    holds; [App] puts it on the page, and raises the WebGPU error itself
    when [navigator.gpu] is missing.  In a system that was created no
    frame throws: the bind group and the buffers every [animate] looks up
    are there, in every run of [animate] and [setHovering], and each
    [animate] draws its frame. *)
Theorem C8_initialization_errors
        (env : Browser) (c : Cache) (opts : Options) (now0 : R)
        (first : Tick) (ui : UI) :
  let created := fst (createParticleSystem env c opts now0 first) in
  let page := fst (App_init env c opts now0 first true ui) in
  let loaded := logo_load env c opts in
  ((exists e, created = inl e) <->
   webgpu_available env = false \/ exists e, loaded = inl e) /\
  loaded = match cache_get c (edgeWeight opts) with
           | Some cached => cached
           | None => computeLogoPixelPositions (logo env) (edgeWeight opts)
           end /\
  (cache_get c (edgeWeight opts) = None \/ cache_consistent (logo env) c ->
   ((exists e, loaded = inl e) <-> logo_usable (logo env) = false) /\
   ((exists e, created = inl e) <->
    webgpu_available env = false \/ logo_usable (logo env) = false) /\
   (forall e, loaded = inl e ->
              e = Rejected \/ e = LogoMaskUnavailable \/ e = LogoMaskEmpty)) /\
  (forall e : Error,
      created = inl e ->
      (webgpu_available env = false /\
       (e = Rejected \/ e = WebGPUNotSupported)) \/
      (webgpu_available env = true /\ loaded = inl e)) /\
  (navigator_gpu env = false ->
   error page = Some WebGPUNotInBrowser /\ loading page = false) /\
  (forall e : Error,
      navigator_gpu env = true -> created = inl e ->
      error page = Some e /\ loading page = false) /\
  (forall (s : State) (f : Frame),
      navigator_gpu env = true -> created = inr (s, f) ->
      error page = error ui /\ particleSystem page = Some s) /\
  (forall (s : State) (f : Frame),
      created = inr (s, f) ->
      forall ops : list Op,
        run_checked s ops = Some (run s ops) /\
        List.length (snd (run s ops)) = List.length (filter is_animate ops)).
Proof.
  intros created page loaded.
  split; [apply created_fails_iff | ].
  split; [apply logo_load_cached | ].
  split.
  { intros Hcache.
    destruct (logo_load_fails_iff env c opts Hcache) as [Hiff Hkind].
    split; [exact Hiff | ]. split; [ | exact Hkind].
    unfold created. rewrite created_fails_iff, Hiff. reflexivity. }
  split; [intros e; apply created_error_kind | ].
  subst created page. unfold App_init.
  split; [ | split; [ | split]].
  - intros Hnav. rewrite Hnav. cbn. split; reflexivity.
  - intros e Hnav. rewrite Hnav. cbn [negb].
    destruct (createParticleSystem env c opts now0 first)
      as [[e0 | [s0 f0]] c1]; cbn [fst]; [ | discriminate].
    intros He. inversion He; subst. split; reflexivity.
  - intros s f Hnav. rewrite Hnav. cbn [negb].
    destruct (createParticleSystem env c opts now0 first)
      as [[e0 | [s0 f0]] c1]; cbn [fst]; [discriminate | ].
    intros He. inversion He; subst. split; reflexivity.
  - intros s f _ ops. split; [apply run_checked_total | apply run_frames].
Qed.

Lemma C8_initialization_errors_witness :
  (cache_get [] (edgeWeight sample_options) = None \/
   cache_consistent (logo browser_ok) []) /\
  ((exists e,
       fst (createParticleSystem browser_ok [] sample_options 0 sample_tick)
       = inl e) <->
   webgpu_available browser_ok = false \/
   logo_usable (logo browser_ok) = false) /\
  run_checked sample_running sample_ops = Some (run sample_running sample_ops).
Proof.
  assert (Hfirst : cache_get [] (edgeWeight sample_options) = None \/
                   cache_consistent (logo browser_ok) [])
    by (left; reflexivity).
  split; [exact Hfirst | ].
  destruct (C8_initialization_errors browser_ok [] sample_options 0
              sample_tick fresh_ui)
    as (_ & _ & Hcache & _ & _ & _ & _ & Hrun).
  split; [exact (proj1 (proj2 (Hcache Hfirst))) | ].
  assert (Hcreated :
            fst (createParticleSystem browser_ok [] sample_options 0
                                      sample_tick)
            = inr (sample_running, sample_frame))
    by (rewrite sample_system; reflexivity).
  exact (proj1 (Hrun sample_running sample_frame Hcreated sample_ops)).
Defined.

(** ** The page after initialization *)

(** X20.  [init] of [App], run on a page in any state while the component
    is mounted, ends loading and writes exactly one of the two other
    fields: on failure it shows the error and keeps the stored system as it
    was, on success it stores the new system and keeps the error as it was,
    so an error shown by an earlier attempt is not cleared by a later
    success.  Started from the page before any initialization it therefore
    leaves exactly one of an error and a system.  When the component was
    unmounted meanwhile the page is left untouched.  When WebGPU is missing
    ([navigator.gpu] undefined, [tgpu.init()] rejecting, or no WebGPU
    context) the error shown is the WebGPU one, whatever state the logo is
    in, and the logo is not loaded: the cache is as before.  What [init]
    does to the cache does not depend on the page or on the component being
    mounted. *)
Theorem app_init_outcome
        (env : Browser) (c : Cache) (opts : Options) (now0 : R)
        (first : Tick) (mounted : bool) (ui : UI) :
  let page := fst (App_init env c opts now0 first mounted ui) in
  let cache := snd (App_init env c opts now0 first mounted ui) in
  let created := fst (createParticleSystem env c opts now0 first) in
  (mounted = true ->
   loading page = false /\
   ((exists e, error page = Some e /\
               particleSystem page = particleSystem ui /\
               (navigator_gpu env = false \/ created = inl e)) \/
    (exists s f, navigator_gpu env = true /\ created = inr (s, f) /\
                 error page = error ui /\ particleSystem page = Some s))) /\
  (mounted = true -> ui = fresh_ui ->
   (exists e, error page = Some e /\ particleSystem page = None) \/
   (exists s, error page = None /\ particleSystem page = Some s)) /\
  (mounted = false -> page = ui) /\
  (navigator_gpu env = false \/ tgpu_init env = false \/
   webgpu_context env = false ->
   cache = c /\
   (mounted = true ->
    error page =
      Some (if negb (navigator_gpu env) then WebGPUNotInBrowser
            else if negb (tgpu_init env) then Rejected
                 else WebGPUNotSupported))) /\
  cache = snd (App_init env c opts now0 first (negb mounted) fresh_ui).
Proof.
  cbv zeta. unfold App_init.
  split; [ | split; [ | split; [ | split]]].
  - intros ->. destruct (navigator_gpu env); cbn [negb].
    + destruct (createParticleSystem env c opts now0 first)
        as [[e | [s f]] c']; cbn [fst loading error particleSystem].
      * split; [reflexivity | ]. left. exists e.
        repeat split. right. reflexivity.
      * split; [reflexivity | ]. right. exists s, f. repeat split.
    + cbn [fst loading error particleSystem].
      split; [reflexivity | ]. left. exists WebGPUNotInBrowser.
      repeat split. left. reflexivity.
  - intros -> ->.
    destruct (if negb (navigator_gpu env) then _ else _)
      as [[e | [s f]] c']; cbn [fst loading error particleSystem fresh_ui].
    + left. exists e. split; reflexivity.
    + right. exists s. split; reflexivity.
  - intros ->.
    destruct (if negb (navigator_gpu env) then _ else _)
      as [[e | [s f]] c']; reflexivity.
  - intros Hmissing.
    destruct (navigator_gpu env); cbn [negb].
    + assert (Hgpu : tgpu_init env = false \/ webgpu_context env = false)
        by (destruct Hmissing as [H | H]; [discriminate | exact H]).
      unfold createParticleSystem.
      rewrite (initialize_without_webgpu env c opts now0 Hgpu).
      cbn [fst snd]. split; [destruct mounted; reflexivity | ].
      intros ->. cbn [fst error]. destruct (tgpu_init env); reflexivity.
    + cbn [fst snd]. split; [destruct mounted; reflexivity | ].
      intros ->. reflexivity.
  - destruct (if negb (navigator_gpu env) then _ else _)
      as [[e | [s f]] c']; destruct mounted; reflexivity.
Qed.

Lemma app_init_outcome_witness :
  (navigator_gpu browser_bare = false \/ tgpu_init browser_bare = false \/
   webgpu_context browser_bare = false) /\
  snd (App_init browser_bare sample_cache sample_options 0 sample_tick
                true fresh_ui) = sample_cache /\
  error (fst (App_init browser_bare sample_cache sample_options 0
                       sample_tick true fresh_ui))
  = Some WebGPUNotSupported.
Proof.
  assert (Hmissing : navigator_gpu browser_bare = false \/
                     tgpu_init browser_bare = false \/
                     webgpu_context browser_bare = false)
    by (right; right; reflexivity).
  split; [exact Hmissing | ].
  destruct (app_init_outcome browser_bare sample_cache sample_options 0
              sample_tick true fresh_ui) as (_ & _ & _ & Hgpu & _).
  destruct (Hgpu Hmissing) as [Hcache Herr].
  split; [exact Hcache | exact (Herr eq_refl)].
Defined.

(** A page that shows the error of a failed attempt keeps showing it after
    an attempt that succeeds, beside the system that attempt stored. *)
Example error_survives_a_later_success :
  let before := {| error := Some Rejected; loading := false;
                   particleSystem := None |} in
  let page := fst (App_init browser_ok [] sample_options 0 sample_tick
                            true before) in
  error page = Some Rejected /\ particleSystem page = Some sample_running.
Proof.
  cbv zeta. unfold App_init. cbn [navigator_gpu browser_ok negb].
  rewrite sample_system. cbn [fst error particleSystem].
  split; reflexivity.
Qed.
